(** * Dialogue agents and the dialogue simulator of [multi_player_dnd.ipynb]

    A shallow embedding of the two Python classes [DialogueAgent] and
    [DialogueSimulator] and of the speaker schedule [select_next_speaker],
    together with the properties of the turn scheduler that follow from the
    code.

    Python objects are mutable and are reached through references, so the
    agents live in an object store indexed by references and the simulator
    holds a list of references; a method is a computation in a state monad
    that can raise a Python exception.

    The relevance score [relevance_score_fn] of the memory retriever is
    embedded over IEEE 754 binary64 numbers. *)

From Stdlib Require Import ZArith List String Ascii Bool Lia.
From Stdlib Require Import QArith Qround Qpower Lqa SpecFloat.
Import ListNotations.

Local Open Scope string_scope.
Local Open Scope list_scope.
Local Open Scope Z_scope.

(** ** Exceptions and computations *)

(** The exceptions the embedded code can raise: [IndexError] from list
    indexing, [ZeroDivisionError] from [%] and [//], and [ProviderError]
    for anything the chat model raises when it is called. *)
Inductive exn : Type :=
| IndexError
| ZeroDivisionError
| ProviderError.

(** What a call produces: a returned value or a raised exception. *)
Inductive outcome (A : Type) : Type :=
| Return (a : A)
| Raise (e : exn).

Arguments Return {A} a.
Arguments Raise {A} e.

(** A computation over a mutable state [S]: the state after the call is
    there also when the call raises, as in Python, where the mutations done
    before an exception stay. *)
Definition M (S A : Type) : Type := S -> outcome A * S.

Definition ret {S A : Type} (a : A) : M S A := fun s => (Return a, s).

Definition raise {S A : Type} (e : exn) : M S A := fun s => (Raise e, s).

Definition bind {S A B : Type} (c : M S A) (k : A -> M S B) : M S B :=
  fun s =>
    match c s with
    | (Return a, s') => k a s'
    | (Raise e, s') => (Raise e, s')
    end.

Definition lift {S A : Type} (o : outcome A) : M S A := fun s => (o, s).

Definition gets {S A : Type} (f : S -> A) : M S A := fun s => (Return (f s), s).

Definition modify {S : Type} (f : S -> S) : M S unit := fun s => (Return tt, f s).

Notation "x <- c ;; k" := (bind c (fun x => k))
  (at level 61, c at next level, right associativity).
Notation "c ;;; k" := (bind c (fun _ => k))
  (at level 61, right associativity).

(** [for x in xs: body(x)]: the loop stops at the first exception. *)
Fixpoint for_each {S A : Type} (xs : list A) (body : A -> M S unit) : M S unit :=
  match xs with
  | [] => ret tt
  | x :: xs' => body x ;;; for_each xs' body
  end.

(** ** Python integers and lists *)

(** [a % b] and [a // b] on Python integers: floor division, the remainder
    has the sign of the divisor, and a zero divisor raises. *)
Definition py_mod (a b : Z) : outcome Z :=
  if b =? 0 then Raise ZeroDivisionError else Return (a mod b).

Definition py_floordiv (a b : Z) : outcome Z :=
  if b =? 0 then Raise ZeroDivisionError else Return (a / b).

Definition len {A : Type} (l : list A) : Z := Z.of_nat (List.length l).

(** [l[i]]: a negative index counts from the end; an index outside
    [-len(l) .. len(l)-1] raises [IndexError]. *)
Definition list_getitem {A : Type} (l : list A) (i : Z) : outcome A :=
  let j := if i <? 0 then i + len l else i in
  if j <? 0 then Raise IndexError
  else match nth_error l (Z.to_nat j) with
       | Some x => Return x
       | None => Raise IndexError
       end.

(** The indices [l[i]] accepts. *)
Definition index_in_range {A : Type} (l : list A) (i : Z) : bool :=
  (- len l <=? i) && (i <? len l).

(** [sep.join(parts)]. *)
Definition join (sep : string) (parts : list string) : string :=
  String.concat sep parts.

Definition newline : string := String (ascii_of_nat 10) EmptyString.

(** ** Chat messages and the chat model *)

Inductive BaseMessage : Type :=
| AIMessage (content : string)
| HumanMessage (content : string)
| SystemMessage (content : string).

Definition content (m : BaseMessage) : string :=
  match m with
  | AIMessage c | HumanMessage c | SystemMessage c => c
  end.

(** The chat model is an external service: calling it on a prompt returns a
    message or raises. *)
Definition ChatOpenAI : Type := list BaseMessage -> outcome BaseMessage.

(** ** [class DialogueAgent] *)

Module DialogueAgent.

Record t : Type := mk {
  name : string;
  system_message : BaseMessage;
  model : ChatOpenAI;
  prefix : string;
  message_history : list string
}.

Definition set_message_history (self : t) (h : list string) : t :=
  mk (name self) (system_message self) (model self) (prefix self) h.

Definition conversation_header : string := "Here is the conversation so far.".

(** [self.message_history = ["Here is the conversation so far."]] *)
Definition reset : M t unit :=
  modify (fun self => set_message_history self [conversation_header]).

(** [__init__] sets the four attributes and calls [self.reset()]; the
    object it works on has no [message_history] before that call. *)
Definition __init__ (name : string) (system_message : BaseMessage)
    (model : ChatOpenAI) : t :=
  snd (reset (mk name system_message model (name ++ ": ")%string [])).

(** [send] calls the model on the system message and the history joined
    with the prefix, and returns the content of the reply. The list
    [self.message_history + [self.prefix]] is a new list. *)
Definition send : M t string :=
  self <- gets (fun self => self) ;;
  message <- lift (model self
                     [system_message self;
                      HumanMessage
                        (join newline (message_history self ++ [prefix self]))]) ;;
  ret (content message).

(** [self.message_history.append(f"{name}: {message}")] *)
Definition receive (name message : string) : M t unit :=
  modify (fun self =>
    set_message_history self
      (message_history self ++ [(name ++ ": " ++ message)%string])).

End DialogueAgent.

(** ** The object store *)

(** A reference to an agent object, and the store that gives every
    reference its object. Two equal references are the same object. *)
Definition ref : Type := nat.

Definition store : Type := ref -> DialogueAgent.t.

Definition update (h : store) (r : ref) (a : DialogueAgent.t) : store :=
  fun r' => if Nat.eqb r' r then a else h r'.

(** ** The speaker schedule *)

(** [select_next_speaker(step, agents)] of the notebook. *)
Definition select_next_speaker (step : Z) (agents : list ref) : outcome Z :=
  match py_mod step 2 with
  | Raise e => Raise e
  | Return r =>
      if r =? 0 then Return 0
      else
        match py_floordiv step 2 with
        | Raise e => Raise e
        | Return q =>
            match py_mod q (len agents - 1) with
            | Raise e => Raise e
            | Return m => Return (m + 1)
            end
        end
  end.

(** ** [class DialogueSimulator] *)

Module DialogueSimulator.

(** A selection function receives the step and the agent list; it may
    read the agents and may raise. *)
Definition selection_function : Type := Z -> list ref -> store -> outcome Z.

Record t : Type := mk {
  agents : list ref;
  _step : Z;
  select_next_speaker : selection_function
}.

(** What the methods work on: the simulator object and the agent
    objects it refers to. *)
Record world : Type := World {
  self : t;
  objects : store
}.

(** Run a method of the agent behind the reference [r]. *)
Definition on {A : Type} (r : ref) (method : M DialogueAgent.t A) : M world A :=
  fun w =>
    let (o, a') := method (objects w r) in
    (o, World (self w) (update (objects w) r a')).

(** Read an attribute of the agent behind [r]. *)
Definition attr {A : Type} (r : ref) (f : DialogueAgent.t -> A) : M world A :=
  gets (fun w => f (objects w r)).

(** [self._step += 1] *)
Definition increment_step : M world unit :=
  modify (fun w =>
    World (mk (agents (self w)) (_step (self w) + 1)
              (select_next_speaker (self w)))
          (objects w)).

(** The constructor stores its arguments and sets [_step] to 0; it
    checks nothing. *)
Definition __init__ (agents : list ref)
    (selection_function : selection_function) : outcome t :=
  Return (mk agents 0 selection_function).

Definition reset : M world unit :=
  agents <- gets (fun w => agents (self w)) ;;
  for_each agents (fun agent => on agent DialogueAgent.reset).

Definition inject (name message : string) : M world unit :=
  agents <- gets (fun w => agents (self w)) ;;
  for_each agents (fun agent => on agent (DialogueAgent.receive name message)) ;;;
  increment_step.

(** [self.select_next_speaker(self._step, self.agents)] *)
Definition call_selection_function : M world Z :=
  fun w =>
    (select_next_speaker (self w) (_step (self w)) (agents (self w)) (objects w),
     w).

Definition step : M world (string * string) :=
  (* 1. choose the next speaker *)
  speaker_idx <- call_selection_function ;;
  agents <- gets (fun w => agents (self w)) ;;
  speaker <- lift (list_getitem agents speaker_idx) ;;
  (* 2. next speaker sends message *)
  message <- on speaker DialogueAgent.send ;;
  (* 3. everyone receives message *)
  for_each agents (fun receiver =>
    speaker_name <- attr speaker DialogueAgent.name ;;
    on receiver (DialogueAgent.receive speaker_name message)) ;;;
  (* 4. increment time *)
  increment_step ;;;
  speaker_name <- attr speaker DialogueAgent.name ;;
  ret (speaker_name, message).

End DialogueSimulator.

(** The notebook passes [select_next_speaker] as the selection function. *)
Definition round_robin : DialogueSimulator.selection_function :=
  fun step agents _ => select_next_speaker step agents.

(** ** Sequences of calls on one agent *)

(** A caller can call the three methods of an agent in any order; an
    exception raised by [send] reaches the caller, who may go on using the
    agent. *)
Inductive agent_call : Type :=
| CallReset
| CallSend
| CallReceive (name message : string).

Definition run_agent_call (c : agent_call) : M DialogueAgent.t unit :=
  match c with
  | CallReset => DialogueAgent.reset
  | CallSend => DialogueAgent.send ;;; ret tt
  | CallReceive name message => DialogueAgent.receive name message
  end.

Definition run_agent_calls (cs : list agent_call) (a : DialogueAgent.t)
    : DialogueAgent.t :=
  fold_left (fun a c => snd (run_agent_call c a)) cs a.

(** The transcript entry [f"{name}: {message}"]. *)
Definition transcript_entry (name message : string) : string :=
  (name ++ ": " ++ message)%string.

Definition receive_calls (msgs : list (string * string)) : list agent_call :=
  map (fun nm => CallReceive (fst nm) (snd nm)) msgs.

(** ** What a loop over the agent list does to the store *)

(** Apply the attribute update [f] to the object behind each reference of
    [rs] in turn. A reference that occurs twice is updated twice. *)
Definition update_each (f : DialogueAgent.t -> DialogueAgent.t)
    (rs : list ref) (h : store) : store :=
  fold_left (fun h r => update h r (f (h r))) rs h.

(** What [receive] does to the attributes of an agent. *)
Definition received (nm msg : string) (a : DialogueAgent.t) : DialogueAgent.t :=
  DialogueAgent.set_message_history a
    (DialogueAgent.message_history a ++ [transcript_entry nm msg]).

(** What [reset] does to the attributes of an agent. *)
Definition cleared (a : DialogueAgent.t) : DialogueAgent.t :=
  DialogueAgent.set_message_history a [DialogueAgent.conversation_header].

(** How often the reference [r] occurs in the agent list. *)
Definition occurrences (rs : list ref) (r : ref) : nat :=
  count_occ Nat.eq_dec rs r.

(** ** Sequences of calls on the simulator *)

Inductive simulator_call : Type :=
| CallSimReset
| CallInject (name message : string)
| CallStep.

Definition run_simulator_call (c : simulator_call) : M DialogueSimulator.world unit :=
  match c with
  | CallSimReset => DialogueSimulator.reset
  | CallInject name message => DialogueSimulator.inject name message
  | CallStep => DialogueSimulator.step ;;; ret tt
  end.

(** The caller goes on after a call that raised. *)
Definition run_simulator_calls (cs : list simulator_call)
    (w : DialogueSimulator.world) : DialogueSimulator.world :=
  fold_left (fun w c => snd (run_simulator_call c w)) cs w.

(** Is [c] an [inject] or a [step] that returned normally from [w]? *)
Definition ticked (c : simulator_call) (w : DialogueSimulator.world) : bool :=
  match c, fst (run_simulator_call c w) with
  | CallInject _ _, Return _ => true
  | CallStep, Return _ => true
  | _, _ => false
  end.

(** The number of [inject] and [step] calls of [cs] that returned
    normally when [cs] is run from [w]. *)
Fixpoint ticks (cs : list simulator_call) (w : DialogueSimulator.world) : nat :=
  match cs with
  | [] => 0%nat
  | c :: cs' =>
      ((if ticked c w then 1 else 0)
       + ticks cs' (snd (run_simulator_call c w)))%nat
  end.

(** ** The cast of the notebook *)

Module Example.

(** A stand-in for the chat model that always gives the same reply. *)
Definition scripted (reply : string) : ChatOpenAI :=
  fun _ => Return (AIMessage reply).

Definition storyteller : DialogueAgent.t :=
  DialogueAgent.__init__ "Dungeon Master" (SystemMessage "You are the storyteller.")
    (scripted "The hunt begins.").

Definition character (name : string) : DialogueAgent.t :=
  DialogueAgent.__init__ name (SystemMessage "You are a player.")
    (scripted "I draw my wand.").

(** Reference 0 is the storyteller, the others are characters. *)
Definition cast : store :=
  fun r =>
    match r with
    | 0%nat => storyteller
    | 1%nat => character "Harry Potter"
    | 2%nat => character "Ron Weasley"
    | 3%nat => character "Hermione Granger"
    | _ => character "Argus Filch"
    end.

(** A simulator as in the docstring of [select_next_speaker]: the
    storyteller at index 0 and three characters, just constructed. *)
Definition world0 : DialogueSimulator.world :=
  DialogueSimulator.World
    (DialogueSimulator.mk [0; 1; 2; 3]%nat 0 round_robin) cast.

(** A selection function that always answers [i]. *)
Definition always (i : Z) : DialogueSimulator.selection_function :=
  fun _ _ _ => Return i.

End Example.

(** ** The relevance score of the memory retriever

    [relevance_score_fn] works on Python floats, which are IEEE 754
    binary64 numbers: precision 53, largest exponent 1024. They are
    modelled by [spec_float] with the operations of [SpecFloat], each of
    which rounds to nearest, ties to even, as the hardware does. *)

(** Python's [0.0], [1.0] and [2.0] as binary64 values. *)
Definition float_0 : spec_float := S754_zero false.
Definition float_1 : spec_float := S754_finite false 4503599627370496 (-52).
Definition float_2 : spec_float := S754_finite false 4503599627370496 (-51).

(** [math.sqrt]: the correctly rounded square root. *)
Definition math_sqrt (x : spec_float) : spec_float := SFsqrt 53 1024 x.

(** [relevance_score_fn]: [return 1.0 - score / math.sqrt(2)]. *)
Definition relevance_score_fn (score : spec_float) : spec_float :=
  SFsub 53 1024 float_1 (SFdiv 53 1024 score (math_sqrt float_2)).

(** A distance score: a binary64 value with [0.0 <= score <= math.sqrt(2)]. *)
Definition is_score (x : spec_float) : bool :=
  valid_binary 53 1024 x && SFleb float_0 x
  && SFleb x (math_sqrt float_2).

(** [1e-17], the binary64 value nearest to it. *)
Definition float_1e_17 : spec_float := S754_finite false 6490371073168535 (-109).

(** The largest binary64 number, [sys.float_info.max]. *)
Definition float_max : spec_float := S754_finite false 9007199254740991 971.

(** *** The values of floats *)

Definition pow2 (e : Z) : Q := (2 ^ e)%Q.

(** The rational number a float stands for (0 for infinities and NaN). *)
Definition B2Q (x : spec_float) : Q :=
  match x with
  | S754_finite s m e =>
      ((if s then -1 else 1) * inject_Z (Zpos m) * pow2 e)%Q
  | _ => 0%Q
  end.

(** The sign of a float as a factor. *)
Definition sign_factor (s : bool) : Q := if s then (-1)%Q else 1%Q.

(** The value of the largest binary64 number, [(2^53 - 1) * 2^971]. *)
Definition max_value : Q := (inject_Z 9007199254740991 * pow2 971)%Q.

(** A zero or a positive binary64 number in canonical form. *)
Definition nonneg_valid (z : spec_float) : Prop :=
  match z with
  | S754_zero _ => True
  | S754_finite false m e => bounded 53 1024 m e = true
  | _ => False
  end.

(** A zero or a nonzero binary64 number in canonical form, of any sign. *)
Definition finite_valid (z : spec_float) : Prop :=
  match z with
  | S754_zero _ => True
  | S754_finite _ m e => bounded 53 1024 m e = true
  | _ => False
  end.

(** *** Rounding *)

(** What the round and sticky bits [r] and [s] say of a number [u] that
    was truncated to [m]. *)
Definition inb (m : Z) (r s : bool) (u : Q) : Prop :=
  match r, s with
  | false, false => (u == inject_Z m)%Q
  | false, true => (inject_Z m < u /\ u < inject_Z m + (1#2))%Q
  | true, false => (u == inject_Z m + (1#2))%Q
  | true, true => (inject_Z m + (1#2) < u /\ u < inject_Z m + 1)%Q
  end.

Definition inb_rec (mrs : shr_record) (u : Q) : Prop :=
  inb (shr_m mrs) (shr_r mrs) (shr_s mrs) u.

(** Rounding of a rational number to the nearest integer, ties to even. *)
Definition RNE (u : Q) : Z :=
  let m := Qfloor u in
  match Qcompare (u - inject_Z m) (1#2) with
  | Lt => m
  | Eq => if Z.even m then m else m + 1
  | Gt => m + 1
  end.

(** The last step of [binary_round_aux] for a positive sign. *)
Definition finish_round (p : shr_record * Z) : spec_float :=
  let '(mrs, e) := p in
  match shr_m mrs with
  | Z0 => S754_zero false
  | Zpos m => if Z.leb e (1024 - 53) then S754_finite false m e else S754_infinity false
  | Zneg _ => S754_nan
  end.

(** [z] is, in value, the rounding to nearest even of the real [v], whose
    absolute value does not exceed the largest float. *)
Definition rounds_from (z : spec_float) (v : Q) : Prop :=
  finite_valid z /\
  exists (s : bool) (m e : Z) (l : location) (u : Q),
    0 <= m /\ inb_rec (shr_record_of_loc m l) u /\
    e <= fexp 53 1024 (Zdigits2 m + e) /\
    (u * pow2 e <= max_value)%Q /\
    (B2Q z == B2Q (binary_round_aux 53 1024 s m e l))%Q /\
    (sign_factor s * (u * pow2 e) == v)%Q.

(** ** The ways a call of [step] can go *)

Section StepCase.

Import DialogueSimulator.

(** The selection function raised; or the agent list rejected the index;
    or the chat model of the speaker raised; or the speaker spoke. Each
    case records the result of [step]. *)
Inductive step_case (w : world) : Prop :=
| SelectionRaised (e : exn)
    (Hsel : call_selection_function w = (Raise e, w))
    (Hstep : step w = (Raise e, w))
| IndexRejected (idx : Z)
    (Hsel : call_selection_function w = (Return idx, w))
    (Hidx : index_in_range (agents (self w)) idx = false)
    (Hstep : step w = (Raise IndexError, w))
| ModelRaised (idx : Z) (speaker : ref) (e : exn)
    (Hsel : call_selection_function w = (Return idx, w))
    (Hidx : list_getitem (agents (self w)) idx = Return speaker)
    (Hsend : fst (DialogueAgent.send (objects w speaker)) = Raise e)
    (Hstep : step w =
             (Raise e,
              World (self w) (update (objects w) speaker (objects w speaker))))
| Spoke (idx : Z) (speaker : ref) (message : string)
    (Hsel : call_selection_function w = (Return idx, w))
    (Hidx : list_getitem (agents (self w)) idx = Return speaker)
    (Hsend : fst (DialogueAgent.send (objects w speaker)) = Return message)
    (Hstep : step w =
             (Return (DialogueAgent.name (objects w speaker), message),
              World (mk (agents (self w)) (_step (self w) + 1)
                        (select_next_speaker (self w)))
                    (update_each
                       (received (DialogueAgent.name (objects w speaker)) message)
                       (agents (self w))
                       (update (objects w) speaker (objects w speaker))))).


End StepCase.

(** ** What a sequence of simulator calls delivers *)

(** The transcript entry that the call [c] delivers from the state [w]:
    one for an [inject], one for a [step] that returns, none otherwise. *)
Definition call_entries (c : simulator_call) (w : DialogueSimulator.world)
    : list string :=
  match c with
  | CallSimReset => []
  | CallInject name message => [transcript_entry name message]
  | CallStep =>
      match fst (DialogueSimulator.step w) with
      | Return (name, message) => [transcript_entry name message]
      | Raise _ => []
      end
  end.

(** The entries delivered by the calls of [cs], run from [w], in order. *)
Fixpoint tick_entries (cs : list simulator_call) (w : DialogueSimulator.world)
    : list string :=
  match cs with
  | [] => []
  | c :: cs' => call_entries c w ++ tick_entries cs' (snd (run_simulator_call c w))
  end.

(** Two states of an agent object that differ at most in the transcript. *)
Definition same_identity (a a' : DialogueAgent.t) : Prop :=
  DialogueAgent.name a' = DialogueAgent.name a /\
  DialogueAgent.prefix a' = DialogueAgent.prefix a /\
  DialogueAgent.system_message a' = DialogueAgent.system_message a /\
  DialogueAgent.model a' = DialogueAgent.model a.

(** What the simulator keeps from a state [w] to a later state [w']: the
    agent list, the selection function, every attribute of every agent but
    the transcript, and the objects outside the agent list; the step
    counter does not go down. *)
Definition kept (w w' : DialogueSimulator.world) : Prop :=
  DialogueSimulator.agents (DialogueSimulator.self w')
    = DialogueSimulator.agents (DialogueSimulator.self w) /\
  DialogueSimulator.select_next_speaker (DialogueSimulator.self w')
    = DialogueSimulator.select_next_speaker (DialogueSimulator.self w) /\
  DialogueSimulator._step (DialogueSimulator.self w)
    <= DialogueSimulator._step (DialogueSimulator.self w') /\
  (forall r, same_identity (DialogueSimulator.objects w r)
                           (DialogueSimulator.objects w' r)) /\
  (forall r, ~ In r (DialogueSimulator.agents (DialogueSimulator.self w)) ->
             DialogueSimulator.objects w' r = DialogueSimulator.objects w r).

(** ** The main loop of the notebook *)

Module MainLoop.

(** The cell works on the simulator, the agents and the standard output;
    the output is the list of the strings given to [print]. *)
Record script : Type := Script {
  world_of : DialogueSimulator.world;
  stdout : list string
}.

(** Run a method of the simulator. *)
Definition in_world {A : Type} (method : M DialogueSimulator.world A)
    : M script A :=
  fun s =>
    let (o, w') := method (world_of s) in
    (o, Script w' (stdout s)).

(** [print(line)] *)
Definition print (line : string) : M script unit :=
  modify (fun s => Script (world_of s) (stdout s ++ [line])).

(** [simulator = value] *)
Definition assign_simulator (value : DialogueSimulator.t) : M script unit :=
  modify (fun s =>
    Script (DialogueSimulator.World value (DialogueSimulator.objects (world_of s)))
           (stdout s)).

Definition max_iters : Z := 20.

(** The body of the [while] loop without [n += 1]. *)
Definition turn : M script unit :=
  result <- in_world DialogueSimulator.step ;;
  print ("(" ++ fst result ++ "): " ++ snd result)%string ;;;
  print newline.

(** [while n < max_iters: turn; n += 1]. The body changes [n] by
    [n += 1] only, so the test holds exactly as long as turns remain out
    of the [max_iters - n] of the start; the loop returns the last [n]. *)
Fixpoint while_turns (remaining : nat) (n : Z) : M script Z :=
  match remaining with
  | O => ret n
  | S remaining' => turn ;;; while_turns remaining' (n + 1)
  end.

(** The cell: the agent list is [[storyteller] + characters]. *)
Definition main (storyteller : ref) (characters : list ref)
    (storyteller_name specified_quest : string) : M script unit :=
  simulator <- lift (DialogueSimulator.__init__ (storyteller :: characters)
                       round_robin) ;;
  assign_simulator simulator ;;;
  in_world DialogueSimulator.reset ;;;
  in_world (DialogueSimulator.inject storyteller_name specified_quest) ;;;
  print ("(" ++ storyteller_name ++ "): " ++ specified_quest)%string ;;;
  print newline ;;;
  while_turns (Z.to_nat (max_iters - 0)) 0 ;;;
  ret tt.

End MainLoop.

(** Every chat model of the agents [rs] answers every prompt. *)
Definition models_answer (rs : list ref) (h : store) : Prop :=
  forall r prompt, In r rs ->
    exists reply, DialogueAgent.model (h r) prompt = Return reply.

(** ** [run_conversation] of the generative agents notebook *)

Module Conversation.

Section WithGenerativeAgent.

(** [GenerativeAgent] comes from the [langchain] library. An agent object
    has a state of some type [G], and the two methods the notebook calls
    take a string and return a pair of a flag and a string; they can change
    the agent and can raise. *)
Variable G : Type.
Variable generate_reaction : string -> M G (bool * string).
Variable generate_dialogue_response : string -> M G (bool * string).

(** The agent objects and the standard output, as the list of the strings
    given to [print]. *)
Record conversation : Type := Conversation {
  agent_objects : ref -> G;
  printed : list string
}.

(** Run a method of the agent behind the reference [r]. *)
Definition call {A : Type} (r : ref) (method : M G A) : M conversation A :=
  fun c =>
    let (o, g') := method (agent_objects c r) in
    (o,
     Conversation
       (fun r' => if Nat.eqb r' r then g' else agent_objects c r')
       (printed c)).

(** [print(line)] *)
Definition print (line : string) : M conversation unit :=
  modify (fun c => Conversation (agent_objects c) (printed c ++ [line])).

(** The [for agent in agents] loop of one round, from the current values
    of [break_dialogue] and [observation]; it returns their last values.
    There is no [break] in it. *)
Fixpoint for_agents (agents : list ref) (break_dialogue : bool)
    (observation : string) : M conversation (bool * string) :=
  match agents with
  | [] => ret (break_dialogue, observation)
  | agent :: agents' =>
      response <- call agent (generate_dialogue_response observation) ;;
      let stay_in_dialogue := fst response in
      let observation := snd response in
      print observation ;;;
      for_agents agents'
        (if negb stay_in_dialogue then true else break_dialogue)
        observation
  end.

(** [while True: ...]. Nothing bounds the number of rounds, so the loop
    is run with fuel: [None] means that the fuel ran out before the loop
    ended. *)
Fixpoint while_true (fuel : nat) (agents : list ref) (turns : Z)
    (observation : string) : M conversation (option unit) :=
  match fuel with
  | O => ret None
  | S fuel' =>
      round <- for_agents agents false observation ;;
      let break_dialogue := fst round in
      let observation := snd round in
      if break_dialogue then ret (Some tt)
      else while_true fuel' agents (turns + 1) observation
  end.

Definition run_conversation (fuel : nat) (agents : list ref)
    (initial_observation : string) : M conversation (option unit) :=
  second <- lift (list_getitem agents 1) ;;
  reaction <- call second (generate_reaction initial_observation) ;;
  let observation := snd reaction in
  print observation ;;;
  while_true fuel agents 0 observation.

End WithGenerativeAgent.

Arguments agent_objects {G} c r.
Arguments printed {G} c.
Arguments Conversation {G} agent_objects printed.

End Conversation.

(** Stand-ins for a generative agent, whose state counts its answers:
    one that stays in the dialogue for its first [patience] answers, and
    its reaction. *)
Module ExampleAgents.

Definition patience : nat := 2.

Definition generate_reaction (observation : string) : M nat (bool * string) :=
  fun g => (Return (false, "Eve nods."), g).

Definition generate_dialogue_response (observation : string)
    : M nat (bool * string) :=
  fun g => (Return (Nat.ltb g patience, "I see."), S g).

Definition start : Conversation.conversation nat :=
  Conversation.Conversation (fun _ => 0%nat) [].

End ExampleAgents.

(** * Properties of [DialogueAgent] *)

Section AgentFacts.

Import DialogueAgent.

Lemma send_state (a : t) : snd (send a) = a.
Proof.
  unfold send, bind, gets, lift, ret; simpl.
  destruct (model a _); reflexivity.
Qed.

Lemma receive_state (a : t) (nm msg : string) :
  receive nm msg a =
  (Return tt,
   set_message_history a (message_history a ++ [transcript_entry nm msg])).
Proof. reflexivity. Qed.

Lemma run_agent_call_send (a : t) : snd (run_agent_call CallSend a) = a.
Proof.
  simpl. unfold bind.
  pose proof (send_state a) as E.
  destruct (send a) as [[v | e] a']; simpl in *; now subst.
Qed.

Lemma run_receive_calls (msgs : list (string * string)) (a : t) :
  message_history (run_agent_calls (receive_calls msgs) a) =
  message_history a ++ map (fun nm => transcript_entry (fst nm) (snd nm)) msgs.
Proof.
  revert a; induction msgs as [| [nm msg] msgs IH]; intros a; simpl.
  - now rewrite app_nil_r.
  - unfold run_agent_calls in IH. rewrite IH. simpl.
    now rewrite <- app_assoc.
Qed.

Lemma run_agent_calls_header (cs : list agent_call) (a : t) :
  (exists tail, message_history a = conversation_header :: tail) ->
  exists tail,
    message_history (run_agent_calls cs a) = conversation_header :: tail.
Proof.
  revert a; induction cs as [| c cs IH]; intros a [tl Ha]; simpl.
  - now exists tl.
  - apply IH. destruct c as [| | nm msg].
    + now exists [].
    + rewrite run_agent_call_send. now exists tl.
    + simpl. rewrite Ha. now exists (tl ++ [transcript_entry nm msg]).
Qed.

End AgentFacts.

(** C8. [receive(name, message)] returns normally and appends exactly the
    one string "{name}: {message}" at the end of the agent's transcript:
    the new transcript is the old one followed by that entry, so it is one
    longer, every old entry stays at its position, and the other attributes
    of the agent are untouched. *)
Theorem receive_appends_entry :
  forall (a : DialogueAgent.t) (name message : string),
    let a' := snd (DialogueAgent.receive name message a) in
    fst (DialogueAgent.receive name message a) = Return tt /\
    DialogueAgent.message_history a' =
      DialogueAgent.message_history a ++ [(name ++ ": " ++ message)%string] /\
    List.length (DialogueAgent.message_history a') =
      S (List.length (DialogueAgent.message_history a)) /\
    (forall (i : nat) (entry : string),
        nth_error (DialogueAgent.message_history a) i = Some entry ->
        nth_error (DialogueAgent.message_history a') i = Some entry) /\
    nth_error (DialogueAgent.message_history a')
              (List.length (DialogueAgent.message_history a)) =
      Some (name ++ ": " ++ message)%string /\
    DialogueAgent.name a' = DialogueAgent.name a /\
    DialogueAgent.prefix a' = DialogueAgent.prefix a /\
    DialogueAgent.system_message a' = DialogueAgent.system_message a /\
    DialogueAgent.model a' = DialogueAgent.model a.
Proof.
  intros a name message a'. subst a'. rewrite receive_state. simpl.
  repeat split.
  - rewrite length_app. simpl. lia.
  - intros i entry H. rewrite nth_error_app1; auto.
    apply nth_error_Some. congruence.
  - rewrite nth_error_app2 by lia. now rewrite Nat.sub_diag.
Qed.

(** Witness of C8 on a two-entry transcript. *)
Lemma receive_appends_entry_witness :
  let a := DialogueAgent.mk "Harry Potter" (SystemMessage "") (fun _ => Raise ProviderError)
             "Harry Potter: " ["Here is the conversation so far."; "Dungeon Master: Go."] in
  nth_error (DialogueAgent.message_history a) 1 = Some "Dungeon Master: Go." /\
  nth_error (DialogueAgent.message_history
               (snd (DialogueAgent.receive "Ron Weasley" "I follow." a))) 1
    = Some "Dungeon Master: Go.".
Proof.
  intro a. split; [reflexivity |].
  apply (proj1 (proj2 (proj2 (proj2
           (receive_appends_entry a "Ron Weasley" "I follow."))))).
  reflexivity.
Defined.

(** C10. The transcript of an agent is never empty. Right after
    construction and right after [reset()] it is the one-element list
    ["Here is the conversation so far."]; [n] calls of [receive] from there
    give a transcript of length [n+1] that starts with that header; [send()]
    leaves the whole agent, hence the transcript, as it was, whether the
    model answers or raises; and after any sequence of [reset], [send] and
    [receive] calls on a constructed agent the transcript still starts with
    the header. *)
Theorem transcript_never_empty :
  forall (name : string) (system_message : BaseMessage) (model : ChatOpenAI)
         (a : DialogueAgent.t),
    let fresh := DialogueAgent.__init__ name system_message model in
    let cleared := snd (DialogueAgent.reset a) in
    DialogueAgent.message_history fresh = ["Here is the conversation so far."] /\
    DialogueAgent.message_history cleared = ["Here is the conversation so far."] /\
    (forall msgs : list (string * string),
        let after := run_agent_calls (receive_calls msgs) fresh in
        List.length (DialogueAgent.message_history after) = S (List.length msgs) /\
        DialogueAgent.message_history after =
          "Here is the conversation so far."
            :: map (fun nm => (fst nm ++ ": " ++ snd nm)%string) msgs) /\
    (forall msgs : list (string * string),
        let after := run_agent_calls (receive_calls msgs) cleared in
        List.length (DialogueAgent.message_history after) = S (List.length msgs) /\
        DialogueAgent.message_history after =
          "Here is the conversation so far."
            :: map (fun nm => (fst nm ++ ": " ++ snd nm)%string) msgs) /\
    snd (DialogueAgent.send a) = a /\
    (forall cs : list agent_call,
        exists tail,
          DialogueAgent.message_history (run_agent_calls cs fresh) =
            "Here is the conversation so far." :: tail).
Proof.
  intros name system_message model a fresh cleared.
  assert (Hf : DialogueAgent.message_history fresh
               = [DialogueAgent.conversation_header]) by reflexivity.
  assert (Hc : DialogueAgent.message_history cleared
               = [DialogueAgent.conversation_header]) by reflexivity.
  split; [exact Hf |]. split; [exact Hc |].
  split; [| split; [| split]].
  - intros msgs after. subst after. rewrite run_receive_calls, Hf. simpl.
    now rewrite length_map.
  - intros msgs after. subst after. rewrite run_receive_calls, Hc. simpl.
    now rewrite length_map.
  - apply send_state.
  - intros cs. apply run_agent_calls_header. now exists [].
Qed.

(** * Sequencing *)

Section Sequencing.

Context {S A B : Type}.

Lemma bind_returns (c : M S A) (k : A -> M S B) (s s' : S) (a : A) :
  c s = (Return a, s') -> bind c k s = k a s'.
Proof. unfold bind. now intros ->. Qed.

Lemma bind_raises (c : M S A) (k : A -> M S B) (s s' : S) (e : exn) :
  c s = (Raise e, s') -> bind c k s = (Raise e, s').
Proof. unfold bind. now intros ->. Qed.

End Sequencing.

(** * Python list indexing *)

Section Indexing.

Context {A : Type}.

Lemma list_getitem_out_of_range (l : list A) (i : Z) :
  index_in_range l i = false -> list_getitem l i = Raise IndexError.
Proof.
  unfold index_in_range, list_getitem, len. intros H.
  apply andb_false_iff in H.
  destruct (Z.ltb_spec i 0) as [Hneg | Hpos].
  - destruct (Z.ltb_spec (i + Z.of_nat (List.length l)) 0) as [| Hj]; [reflexivity |].
    destruct H as [H | H]; [apply Z.leb_gt in H | apply Z.ltb_ge in H]; lia.
  - destruct (Z.ltb_spec i 0) as [| _]; [lia |].
    destruct H as [H | H]; [apply Z.leb_gt in H; lia | apply Z.ltb_ge in H].
    destruct (nth_error l (Z.to_nat i)) eqn:E; [| reflexivity].
    assert (Z.to_nat i < List.length l)%nat
      by (apply nth_error_Some; congruence).
    lia.
Qed.

Lemma list_getitem_in_range (l : list A) (i : Z) :
  index_in_range l i = true -> exists x, list_getitem l i = Return x.
Proof.
  unfold index_in_range, list_getitem, len. intros H.
  apply andb_true_iff in H. destruct H as [Hlo Hhi].
  apply Z.leb_le in Hlo. apply Z.ltb_lt in Hhi.
  set (j := if i <? 0 then i + Z.of_nat (List.length l) else i).
  assert (Hj : 0 <= j < Z.of_nat (List.length l)).
  { subst j. destruct (Z.ltb_spec i 0); lia. }
  destruct (Z.ltb_spec j 0) as [| _]; [lia |].
  destruct (nth_error l (Z.to_nat j)) eqn:E; [eauto |].
  apply nth_error_None in E. lia.
Qed.

Lemma list_getitem_In (l : list A) (i : Z) (x : A) :
  list_getitem l i = Return x -> In x l.
Proof.
  unfold list_getitem.
  destruct (_ <? 0); [discriminate |].
  destruct (nth_error l _) eqn:E; [| discriminate].
  intros [= <-]. eapply nth_error_In; eauto.
Qed.

Lemma list_getitem_returns_in_range (l : list A) (i : Z) (x : A) :
  list_getitem l i = Return x -> index_in_range l i = true.
Proof.
  intros H. destruct (index_in_range l i) eqn:E; [reflexivity |].
  rewrite (list_getitem_out_of_range _ _ E) in H. discriminate.
Qed.

Lemma list_getitem_nonneg (l : list A) (i : Z) :
  0 <= i < len l ->
  exists x, nth_error l (Z.to_nat i) = Some x /\ list_getitem l i = Return x.
Proof.
  unfold list_getitem, len. intros Hi.
  destruct (Z.ltb_spec i 0) as [| _]; [lia |].
  destruct (Z.ltb_spec i 0) as [| _]; [lia |].
  destruct (nth_error l (Z.to_nat i)) eqn:E; [eauto |].
  apply nth_error_None in E. lia.
Qed.

End Indexing.

(** * Loops over the agent list *)

Section Loops.

Import DialogueSimulator.

Lemma update_each_iter (f : DialogueAgent.t -> DialogueAgent.t)
    (rs : list ref) (h : store) (r : ref) :
  update_each f rs h r = Nat.iter (occurrences rs r) f (h r).
Proof.
  revert h; induction rs as [| x rs IH]; intros h; [reflexivity |].
  unfold update_each in *. simpl fold_left. rewrite IH.
  unfold occurrences, update. simpl count_occ.
  destruct (Nat.eq_dec x r) as [-> | Hne].
  - rewrite Nat.eqb_refl. now rewrite Nat.iter_succ_r.
  - destruct (Nat.eqb_spec r x); [congruence | reflexivity].
Qed.

Lemma iter_received_history (n : nat) (nm msg : string) (a : DialogueAgent.t) :
  DialogueAgent.message_history (Nat.iter n (received nm msg) a) =
  DialogueAgent.message_history a ++ repeat (transcript_entry nm msg) n.
Proof.
  induction n as [| n IH]; simpl.
  - now rewrite app_nil_r.
  - rewrite IH, <- app_assoc. f_equal.
    change ([?x]) with (repeat x 1). 
    now rewrite <- repeat_app, Nat.add_1_r.
Qed.

Lemma iter_received_attrs (n : nat) (nm msg : string) (a : DialogueAgent.t) :
  DialogueAgent.name (Nat.iter n (received nm msg) a) = DialogueAgent.name a /\
  DialogueAgent.prefix (Nat.iter n (received nm msg) a) = DialogueAgent.prefix a /\
  DialogueAgent.system_message (Nat.iter n (received nm msg) a)
    = DialogueAgent.system_message a /\
  DialogueAgent.model (Nat.iter n (received nm msg) a) = DialogueAgent.model a.
Proof. induction n; simpl; auto. Qed.

Lemma iter_cleared (n : nat) (a : DialogueAgent.t) :
  Nat.iter n cleared a = match n with O => a | S _ => cleared a end.
Proof.
  destruct n as [| n]; [reflexivity |].
  induction n as [| n IH]; [reflexivity |].
  rewrite Nat.iter_succ. rewrite IH. reflexivity.
Qed.

Lemma for_each_on_modify (f : DialogueAgent.t -> DialogueAgent.t)
    (rs : list ref) (w : world) :
  for_each rs (fun r => on r (modify f)) w =
  (Return tt, World (self w) (update_each f rs (objects w))).
Proof.
  revert w; induction rs as [| r rs IH]; intros [s h]; [reflexivity |].
  simpl for_each. unfold bind at 1. simpl. rewrite IH. reflexivity.
Qed.

(** The loop of [step]: the name of the speaker is read at every turn of
    the loop, and no turn changes it. *)
Lemma for_each_receive_from (speaker : ref) (msg : string)
    (rs : list ref) (w : world) :
  for_each rs (fun receiver =>
      speaker_name <- attr speaker DialogueAgent.name ;;
      on receiver (DialogueAgent.receive speaker_name msg)) w =
  (Return tt,
   World (self w)
     (update_each (received (DialogueAgent.name (objects w speaker)) msg)
        rs (objects w))).
Proof.
  revert w; induction rs as [| r rs IH]; intros [s h]; [reflexivity |].
  simpl for_each. unfold bind at 1.
  change ((speaker_name <- attr speaker DialogueAgent.name ;;
           on r (DialogueAgent.receive speaker_name msg)) (World s h))
    with (Return tt,
          World s (update h r (received (DialogueAgent.name (h speaker)) msg (h r)))).
  cbv beta iota. rewrite IH. cbn [self objects].
  assert (E : DialogueAgent.name
                (update h r (received (DialogueAgent.name (h speaker)) msg (h r))
                   speaker)
              = DialogueAgent.name (h speaker)).
  { unfold update. destruct (Nat.eqb_spec speaker r); [subst |]; reflexivity. }
  rewrite E. reflexivity.
Qed.

End Loops.

(** * The methods of [DialogueSimulator] as state transformers *)

Section SimulatorMethods.

Import DialogueSimulator.

Lemma update_same (h : store) (r r' : ref) : update h r (h r) r' = h r'.
Proof. unfold update. destruct (Nat.eqb_spec r' r); congruence. Qed.

Lemma reset_world (w : world) :
  reset w =
  (Return tt,
   World (self w) (update_each cleared (agents (self w)) (objects w))).
Proof.
  unfold reset, bind, gets.
  apply (for_each_on_modify cleared).
Qed.

Lemma inject_world (nm msg : string) (w : world) :
  inject nm msg w =
  (Return tt,
   World (mk (agents (self w)) (_step (self w) + 1)
             (select_next_speaker (self w)))
         (update_each (received nm msg) (agents (self w)) (objects w))).
Proof.
  unfold inject, bind, gets.
  change (for_each (agents (self w))
            (fun agent => on agent (DialogueAgent.receive nm msg)) w)
    with (for_each (agents (self w))
            (fun agent => on agent (modify (received nm msg))) w).
  rewrite for_each_on_modify. reflexivity.
Qed.

Variable w : world.

(** What the selection function answers in the state [w]. *)
Local Abbreviation choice :=
  (select_next_speaker (self w) (_step (self w)) (agents (self w)) (objects w)).

Lemma on_send (r : ref) :
  on r DialogueAgent.send w =
  (fst (DialogueAgent.send (objects w r)),
   World (self w) (update (objects w) r (objects w r))).
Proof.
  unfold on. pose proof (send_state (objects w r)) as St.
  destruct (DialogueAgent.send (objects w r)) as [o a']. simpl in *.
  now subst.
Qed.

Lemma step_selection_raises (e : exn) :
  choice = Raise e -> step w = (Raise e, w).
Proof.
  intros H. unfold step.
  apply bind_raises. unfold call_selection_function. now rewrite H.
Qed.

Lemma step_index_error (idx : Z) :
  choice = Return idx ->
  index_in_range (agents (self w)) idx = false ->
  step w = (Raise IndexError, w).
Proof.
  intros H Hr. unfold step.
  rewrite (bind_returns _ _ w w idx)
    by (unfold call_selection_function; now rewrite H).
  rewrite (bind_returns _ _ w w (agents (self w))) by reflexivity.
  apply bind_raises. unfold lift.
  now rewrite (list_getitem_out_of_range _ _ Hr).
Qed.

Lemma step_send_raises (idx : Z) (speaker : ref) (e : exn) :
  choice = Return idx ->
  list_getitem (agents (self w)) idx = Return speaker ->
  fst (DialogueAgent.send (objects w speaker)) = Raise e ->
  step w =
  (Raise e, World (self w) (update (objects w) speaker (objects w speaker))).
Proof.
  intros H Hi Hs. unfold step.
  rewrite (bind_returns _ _ w w idx)
    by (unfold call_selection_function; now rewrite H).
  rewrite (bind_returns _ _ w w (agents (self w))) by reflexivity.
  rewrite (bind_returns _ _ w w speaker) by (unfold lift; now rewrite Hi).
  apply bind_raises. now rewrite on_send, Hs.
Qed.

Lemma step_returns (idx : Z) (speaker : ref) (message : string) :
  choice = Return idx ->
  list_getitem (agents (self w)) idx = Return speaker ->
  fst (DialogueAgent.send (objects w speaker)) = Return message ->
  step w =
  (Return (DialogueAgent.name (objects w speaker), message),
   World (mk (agents (self w)) (_step (self w) + 1)
             (select_next_speaker (self w)))
         (update_each
            (received (DialogueAgent.name (objects w speaker)) message)
            (agents (self w))
            (update (objects w) speaker (objects w speaker)))).
Proof.
  intros H Hi Hs. unfold step.
  rewrite (bind_returns _ _ w w idx)
    by (unfold call_selection_function; now rewrite H).
  rewrite (bind_returns _ _ w w (agents (self w))) by reflexivity.
  rewrite (bind_returns _ _ w w speaker) by (unfold lift; now rewrite Hi).
  erewrite bind_returns by (rewrite on_send, Hs; reflexivity).
  erewrite bind_returns by apply for_each_receive_from.
  cbn [self objects]. rewrite update_same.
  erewrite bind_returns by reflexivity.
  erewrite bind_returns by reflexivity.
  unfold ret. cbn [self objects].
  rewrite update_each_iter, update_same.
  now destruct (iter_received_attrs
                  (occurrences (agents (self w)) speaker)
                  (DialogueAgent.name (objects w speaker)) message
                  (objects w speaker)) as [-> _].
Qed.

(** A call of [step] that returns went through the three stages. *)
Lemma step_return_inv (res : string * string) :
  fst (step w) = Return res ->
  exists idx speaker message,
    choice = Return idx /\
    list_getitem (agents (self w)) idx = Return speaker /\
    fst (DialogueAgent.send (objects w speaker)) = Return message.
Proof.
  intros H.
  destruct choice as [idx | e] eqn:Hc.
  2:{ rewrite (step_selection_raises e Hc) in H. discriminate. }
  destruct (list_getitem (agents (self w)) idx) as [speaker | e] eqn:Hi.
  2:{ destruct (index_in_range (agents (self w)) idx) eqn:Hr.
      - destruct (list_getitem_in_range _ _ Hr) as [x Hx]. congruence.
      - rewrite (step_index_error idx Hc Hr) in H. discriminate. }
  destruct (fst (DialogueAgent.send (objects w speaker))) as [message | e] eqn:Hs.
  2:{ rewrite (step_send_raises idx speaker e Hc Hi Hs) in H. discriminate. }
  now exists idx, speaker, message.
Qed.

End SimulatorMethods.

(** * The speaker schedule *)

Section Schedule.

Lemma select_even (step : Z) (agents : list ref) :
  step mod 2 = 0 -> select_next_speaker step agents = Return 0.
Proof.
  intros H. unfold select_next_speaker, py_mod. simpl. now rewrite H.
Qed.

Lemma select_odd (step : Z) (agents : list ref) :
  step mod 2 <> 0 ->
  len agents - 1 <> 0 ->
  select_next_speaker step agents =
  Return ((step / 2) mod (len agents - 1) + 1).
Proof.
  intros H Hn. unfold select_next_speaker, py_mod, py_floordiv. simpl.
  destruct (Z.eqb_spec (step mod 2) 0) as [| _]; [contradiction |].
  destruct (Z.eqb_spec (len agents - 1) 0) as [| _]; [contradiction |].
  reflexivity.
Qed.

Lemma select_odd_alone (step : Z) (agents : list ref) :
  step mod 2 <> 0 ->
  len agents = 1 ->
  select_next_speaker step agents = Raise ZeroDivisionError.
Proof.
  intros H Hn. unfold select_next_speaker, py_mod, py_floordiv. simpl.
  destruct (Z.eqb_spec (step mod 2) 0) as [| _]; [contradiction |].
  now rewrite Hn.
Qed.

End Schedule.

(** C2. With four agents, the storyteller at index 0 and three characters
    at indices 1, 2 and 3, the schedule for the steps 0 to 8 is
    0,1,0,2,0,3,0,1,0: an even step selects index 0, and an odd step
    selects [((step // 2) mod (N-1)) + 1], where N is the number of
    agents. *)
Theorem select_next_speaker_round_robin :
  forall agents : list ref,
    List.length agents = 4%nat ->
    map (fun step => select_next_speaker step agents) [0; 1; 2; 3; 4; 5; 6; 7; 8]
      = map Return [0; 1; 0; 2; 0; 3; 0; 1; 0] /\
    (forall step : Z,
        Z.even step = true -> select_next_speaker step agents = Return 0) /\
    (forall step : Z,
        Z.odd step = true ->
        select_next_speaker step agents =
        Return ((step / 2) mod (len agents - 1) + 1)).
Proof.
  intros agents H4.
  assert (Hn : len agents - 1 = 3) by (unfold len; rewrite H4; reflexivity).
  split; [| split].
  - unfold select_next_speaker, py_mod, py_floordiv. rewrite Hn. reflexivity.
  - intros step He. apply select_even.
    rewrite Zmod_even, He. reflexivity.
  - intros step Ho. apply select_odd; [| lia].
    rewrite Zmod_odd, Ho. discriminate.
Qed.

(** Witness of C2 on the agent list of the notebook's docstring. *)
Lemma select_next_speaker_round_robin_witness :
  map (fun step => select_next_speaker step [0; 1; 2; 3]%nat)
      [0; 1; 2; 3; 4; 5; 6; 7; 8]
    = map Return [0; 1; 0; 2; 0; 3; 0; 1; 0] /\
  select_next_speaker 16 [0; 1; 2; 3]%nat = Return 0 /\
  select_next_speaker 15 [0; 1; 2; 3]%nat = Return 2.
Proof.
  destruct (select_next_speaker_round_robin [0; 1; 2; 3]%nat eq_refl)
    as (Hseq & Heven & Hodd).
  split; [exact Hseq |]. split.
  - apply Heven. reflexivity.
  - apply (Hodd 15). reflexivity.
Defined.

(** C4, the claim as stated fails: with a single agent and an odd step the
    divisor [len(agents) - 1] is zero and [select_next_speaker] raises
    [ZeroDivisionError] instead of returning an index. *)
Lemma select_next_speaker_single_agent_counterexample :
  [0%nat] <> [] /\ 0 <= 1 /\
  select_next_speaker 1 [0%nat] = Raise ZeroDivisionError /\
  ~ (exists i : Z,
        select_next_speaker 1 [0%nat] = Return i /\ 0 <= i < len [0%nat]).
Proof.
  split; [discriminate |]. split; [lia |]. split; [reflexivity |].
  intros [i [H _]]. discriminate H.
Qed.

(** C4, amended. For every agent list with at least two agents and every
    integer step, [select_next_speaker(step, agents)] returns an index [i]
    with [0 <= i < len(agents)]. *)
Theorem select_next_speaker_valid_index :
  forall (step : Z) (agents : list ref),
    2 <= len agents ->
    exists i : Z,
      select_next_speaker step agents = Return i /\ 0 <= i < len agents.
Proof.
  intros step agents Hn.
  destruct (Z.eq_dec (step mod 2) 0) as [He | Ho].
  - exists 0. rewrite select_even by assumption. split; [reflexivity | lia].
  - exists ((step / 2) mod (len agents - 1) + 1).
    rewrite select_odd by lia. split; [reflexivity |].
    pose proof (Z.mod_pos_bound (step / 2) (len agents - 1)). lia.
Qed.

(** Witness of the amended C4: step 3 with the four agents of the notebook. *)
Lemma select_next_speaker_valid_index_witness :
  2 <= len [0; 1; 2; 3]%nat /\
  exists i : Z,
    select_next_speaker 3 [0; 1; 2; 3]%nat = Return i /\
    0 <= i < len [0; 1; 2; 3]%nat.
Proof.
  assert (H : 2 <= len [0; 1; 2; 3]%nat) by (vm_compute; discriminate).
  split; [exact H |].
  exact (select_next_speaker_valid_index 3 [0; 1; 2; 3]%nat H).
Defined.

(** * Broadcasting *)

Section Broadcast.

Variables (nm msg : string) (rs : list ref) (h : store).

Local Abbreviation h' := (update_each (received nm msg) rs h).

Lemma broadcast_history (r : ref) :
  DialogueAgent.message_history (h' r) =
  DialogueAgent.message_history (h r)
    ++ repeat (transcript_entry nm msg) (occurrences rs r).
Proof. now rewrite update_each_iter, iter_received_history. Qed.

Lemma broadcast_member (r : ref) :
  In r rs ->
  exists k : nat,
    DialogueAgent.message_history (h' r) =
    DialogueAgent.message_history (h r)
      ++ transcript_entry nm msg :: repeat (transcript_entry nm msg) k.
Proof.
  intros Hin. rewrite broadcast_history.
  apply (count_occ_In Nat.eq_dec) in Hin. unfold occurrences.
  destruct (count_occ Nat.eq_dec rs r) as [| k]; [lia |].
  now exists k.
Qed.

Lemma broadcast_once (r : ref) :
  NoDup rs -> In r rs ->
  DialogueAgent.message_history (h' r) =
  DialogueAgent.message_history (h r) ++ [transcript_entry nm msg].
Proof.
  intros Hnd Hin. rewrite broadcast_history. unfold occurrences.
  apply (proj1 (NoDup_count_occ' Nat.eq_dec rs)) with (x := r) in Hnd;
    [| exact Hin].
  now rewrite Hnd.
Qed.

Lemma broadcast_attrs (r : ref) :
  DialogueAgent.name (h' r) = DialogueAgent.name (h r) /\
  DialogueAgent.prefix (h' r) = DialogueAgent.prefix (h r) /\
  DialogueAgent.system_message (h' r) = DialogueAgent.system_message (h r) /\
  DialogueAgent.model (h' r) = DialogueAgent.model (h r).
Proof. rewrite update_each_iter. apply iter_received_attrs. Qed.

End Broadcast.

Lemma update_each_ext (f : DialogueAgent.t -> DialogueAgent.t)
    (rs : list ref) (h1 h2 : store) :
  (forall r, h1 r = h2 r) ->
  forall r, update_each f rs h1 r = update_each f rs h2 r.
Proof. intros E r. now rewrite !update_each_iter, E. Qed.

(** C1. When the selection function returns an index [idx] that the agent
    list accepts, so that [speaker = agents[idx]] exists, and the speaker's
    [send()] returns [message], then [step()] returns the pair of the
    speaker's name and [message], and the entry "{speaker_name}: {message}"
    is appended to the transcript of every agent of the list, the speaker
    included: once for each time the agent occurs in the list, so exactly
    once when the agents of the list are distinct objects. Nothing else in
    a transcript changes and the names stay. *)
Theorem step_returns_and_broadcasts :
  forall (w : DialogueSimulator.world) (idx : Z) (speaker : ref)
         (message : string),
    DialogueSimulator.select_next_speaker (DialogueSimulator.self w)
      (DialogueSimulator._step (DialogueSimulator.self w))
      (DialogueSimulator.agents (DialogueSimulator.self w))
      (DialogueSimulator.objects w) = Return idx ->
    list_getitem (DialogueSimulator.agents (DialogueSimulator.self w)) idx
      = Return speaker ->
    fst (DialogueAgent.send (DialogueSimulator.objects w speaker))
      = Return message ->
    let agents := DialogueSimulator.agents (DialogueSimulator.self w) in
    let speaker_name := DialogueAgent.name (DialogueSimulator.objects w speaker) in
    let entry := (speaker_name ++ ": " ++ message)%string in
    let before r := DialogueAgent.message_history (DialogueSimulator.objects w r) in
    let after r :=
      DialogueAgent.message_history
        (DialogueSimulator.objects (snd (DialogueSimulator.step w)) r) in
    fst (DialogueSimulator.step w) = Return (speaker_name, message) /\
    In speaker agents /\
    (forall r, after r = before r ++ repeat entry (occurrences agents r)) /\
    (forall r, In r agents ->
       exists k : nat, after r = before r ++ entry :: repeat entry k) /\
    (NoDup agents -> forall r, In r agents -> after r = before r ++ [entry]) /\
    (forall r,
       DialogueAgent.name
         (DialogueSimulator.objects (snd (DialogueSimulator.step w)) r)
       = DialogueAgent.name (DialogueSimulator.objects w r)).
Proof.
  intros w idx speaker message Hsel Hidx Hsend agents speaker_name entry
         before after.
  subst after. rewrite (step_returns w idx speaker message Hsel Hidx Hsend).
  cbn [fst snd DialogueSimulator.objects].
  fold agents speaker_name.
  set (h0 := update (DialogueSimulator.objects w) speaker
               (DialogueSimulator.objects w speaker)).
  assert (E0 : forall r, h0 r = DialogueSimulator.objects w r)
    by (intro r; apply update_same).
  assert (Eb : forall r, before r = DialogueAgent.message_history (h0 r))
    by (intro r; subst before; cbv beta; now rewrite E0).
  split; [reflexivity |].
  split; [eapply list_getitem_In; eassumption |].
  split; [| split; [| split]].
  - intros r. rewrite Eb. apply broadcast_history.
  - intros r Hin. rewrite Eb. now apply broadcast_member.
  - intros Hnd r Hin. rewrite Eb. now apply broadcast_once.
  - intros r. rewrite <- E0. apply broadcast_attrs.
Qed.

(** Witness of C1: the first [step()] of the notebook's simulator, where
    the schedule selects the storyteller. *)
Lemma step_returns_and_broadcasts_witness :
  fst (DialogueSimulator.step Example.world0)
    = Return ("Dungeon Master", "The hunt begins.") /\
  DialogueAgent.message_history
    (DialogueSimulator.objects (snd (DialogueSimulator.step Example.world0)) 0%nat)
    = ["Here is the conversation so far."; "Dungeon Master: The hunt begins."] /\
  DialogueAgent.message_history
    (DialogueSimulator.objects (snd (DialogueSimulator.step Example.world0)) 2%nat)
    = ["Here is the conversation so far."; "Dungeon Master: The hunt begins."].
Proof.
  destruct (step_returns_and_broadcasts Example.world0 0 0%nat
              "The hunt begins." eq_refl eq_refl eq_refl)
    as (Hret & _ & _ & _ & Honce & _).
  assert (Hnd : NoDup [0; 1; 2; 3]%nat).
  { repeat constructor; simpl; intuition discriminate. }
  split; [exact Hret |]. split.
  - apply (Honce Hnd 0%nat). simpl. tauto.
  - apply (Honce Hnd 2%nat). simpl. tauto.
Defined.

(** * The step counter *)

Section Counter.

Import DialogueSimulator.

Lemma step_counter (w : world) :
  _step (self (snd (step w))) =
  _step (self w) + (if ticked CallStep w then 1 else 0).
Proof.
  unfold ticked, run_simulator_call.
  destruct (fst (step w)) as [res |] eqn:Hres.
  - destruct (step_return_inv w res Hres) as (idx & speaker & message & Hc & Hi & Hs).
    assert (Eb : fst ((step ;;; ret tt) w) = Return tt).
    { destruct (step w) as [o w'] eqn:Es. simpl in Hres. subst o.
      now rewrite (bind_returns _ _ w w' res Es). }
    rewrite Eb, (step_returns w idx speaker message Hc Hi Hs). reflexivity.
  - assert (E : self (snd (step w)) = self w).
    { destruct (select_next_speaker (self w) (_step (self w)) (agents (self w))
                  (objects w)) as [idx | e'] eqn:Hc.
      2:{ now rewrite (step_selection_raises w e' Hc). }
      destruct (list_getitem (agents (self w)) idx) as [speaker | e'] eqn:Hi.
      2:{ destruct (index_in_range (agents (self w)) idx) eqn:Hr.
          - destruct (list_getitem_in_range _ _ Hr) as [x Hx]. congruence.
          - now rewrite (step_index_error w idx Hc Hr). }
      destruct (fst (DialogueAgent.send (objects w speaker))) as [m | e'] eqn:Hs.
      - rewrite (step_returns w idx speaker m Hc Hi Hs) in Hres. discriminate.
      - now rewrite (step_send_raises w idx speaker e' Hc Hi Hs). }
    rewrite E.
    assert (Eb : fst ((step ;;; ret tt) w) = Raise e).
    { destruct (step w) as [o w'] eqn:Es. simpl in Hres. subst o.
      now rewrite (bind_raises _ _ w w' e Es). }
    rewrite Eb. lia.
Qed.

Lemma run_simulator_call_counter (c : simulator_call) (w : world) :
  _step (self (snd (run_simulator_call c w))) =
  _step (self w) + (if ticked c w then 1 else 0).
Proof.
  destruct c as [| nm msg |].
  - unfold ticked. simpl. rewrite reset_world. simpl. lia.
  - unfold ticked. simpl. rewrite inject_world. simpl. lia.
  - rewrite <- step_counter. simpl.
    destruct (step w) as [[res | e] w'] eqn:Es.
    + now rewrite (bind_returns _ _ w w' res Es).
    + now rewrite (bind_raises _ _ w w' e Es).
Qed.

Lemma run_simulator_calls_counter (cs : list simulator_call) (w : world) :
  _step (self (run_simulator_calls cs w)) =
  _step (self w) + Z.of_nat (ticks cs w).
Proof.
  revert w; induction cs as [| c cs IH]; intros w.
  - simpl. lia.
  - unfold run_simulator_calls in *. simpl fold_left. rewrite IH.
    rewrite run_simulator_call_counter. simpl ticks.
    destruct (ticked c w); lia.
Qed.

End Counter.

(** C3, the claim as stated fails: on the notebook's simulator, built with
    step counter 0, one [inject] followed by [reset()] leaves the counter
    at 1. *)
Lemma reset_keeps_step_counter_counterexample :
  let w0 := Example.world0 in
  let w1 := snd (DialogueSimulator.inject "Dungeon Master" "Find the horcruxes." w0) in
  let w2 := snd (DialogueSimulator.reset w1) in
  DialogueSimulator.__init__ [0; 1; 2; 3]%nat round_robin
    = Return (DialogueSimulator.self w0) /\
  fst (DialogueSimulator.inject "Dungeon Master" "Find the horcruxes." w0)
    = Return tt /\
  fst (DialogueSimulator.reset w1) = Return tt /\
  DialogueSimulator._step (DialogueSimulator.self w2) = 1 /\
  DialogueSimulator._step (DialogueSimulator.self w2) <> 0.
Proof.
  repeat split. discriminate.
Qed.

(** C3, amended. [reset()] always returns, puts the transcript of every
    agent of the list back to its initial one-element state, keeps the
    other attributes of these agents, touches no other object, and leaves
    the simulator object, so also its step counter, as it was. After any
    sequence of [reset], [inject] and [step] calls on a new simulator
    followed by [reset()], the step counter is therefore the number of
    [inject] and [step] calls that returned; it is 0 when there was
    none. *)
Theorem reset_clears_transcripts_keeps_counter :
  forall w : DialogueSimulator.world,
    let w' := snd (DialogueSimulator.reset w) in
    fst (DialogueSimulator.reset w) = Return tt /\
    DialogueSimulator.self w' = DialogueSimulator.self w /\
    DialogueSimulator._step (DialogueSimulator.self w')
      = DialogueSimulator._step (DialogueSimulator.self w) /\
    (forall r, In r (DialogueSimulator.agents (DialogueSimulator.self w)) ->
       DialogueAgent.message_history (DialogueSimulator.objects w' r)
         = ["Here is the conversation so far."] /\
       DialogueAgent.name (DialogueSimulator.objects w' r)
         = DialogueAgent.name (DialogueSimulator.objects w r)) /\
    (forall r, ~ In r (DialogueSimulator.agents (DialogueSimulator.self w)) ->
       DialogueSimulator.objects w' r = DialogueSimulator.objects w r) /\
    (forall (agents : list ref) (f : DialogueSimulator.selection_function)
            (h : store) (cs : list simulator_call),
       let new := DialogueSimulator.World (DialogueSimulator.mk agents 0 f) h in
       DialogueSimulator._step
         (DialogueSimulator.self
            (snd (DialogueSimulator.reset (run_simulator_calls cs new))))
       = Z.of_nat (ticks cs new)).
Proof.
  intros w w'. subst w'. rewrite reset_world. cbn [fst snd].
  split; [reflexivity |]. split; [reflexivity |]. split; [reflexivity |].
  split; [| split].
  - intros r Hin. cbn [DialogueSimulator.objects].
    rewrite update_each_iter, iter_cleared.
    apply (count_occ_In Nat.eq_dec) in Hin. unfold occurrences.
    destruct (count_occ Nat.eq_dec _ r); [lia |]. split; reflexivity.
  - intros r Hnin. cbn [DialogueSimulator.objects].
    rewrite update_each_iter, iter_cleared.
    apply (count_occ_not_In Nat.eq_dec) in Hnin. unfold occurrences.
    now rewrite Hnin.
  - intros agents f h cs. rewrite reset_world. cbn [snd DialogueSimulator.self].
    rewrite run_simulator_calls_counter. reflexivity.
Qed.

(** Witness of the amended C3: [reset()] after one [inject] on the
    notebook's simulator. *)
Lemma reset_clears_transcripts_keeps_counter_witness :
  let w1 := snd (DialogueSimulator.inject "Dungeon Master" "Find the horcruxes."
                   Example.world0) in
  In 1%nat (DialogueSimulator.agents (DialogueSimulator.self w1)) /\
  DialogueAgent.message_history (DialogueSimulator.objects w1 1%nat)
    = ["Here is the conversation so far.";
       "Dungeon Master: Find the horcruxes."] /\
  DialogueAgent.message_history
    (DialogueSimulator.objects (snd (DialogueSimulator.reset w1)) 1%nat)
    = ["Here is the conversation so far."] /\
  ~ In 7%nat (DialogueSimulator.agents (DialogueSimulator.self w1)) /\
  DialogueSimulator.objects (snd (DialogueSimulator.reset w1)) 7%nat
    = DialogueSimulator.objects w1 7%nat.
Proof.
  intros w1.
  destruct (reset_clears_transcripts_keeps_counter w1)
    as (_ & _ & _ & Hin & Hout & _).
  assert (H1 : In 1%nat (DialogueSimulator.agents (DialogueSimulator.self w1)))
    by (simpl; tauto).
  assert (H7 : ~ In 7%nat (DialogueSimulator.agents (DialogueSimulator.self w1)))
    by (simpl; intuition discriminate).
  split; [exact H1 |]. split; [reflexivity |].
  split; [exact (proj1 (Hin 1%nat H1)) |].
  split; [exact H7 | exact (Hout 7%nat H7)].
Defined.

(** C5. [inject(name, message)] always returns; it adds exactly 1 to the
    step counter and delivers the entry "{name}: {message}" to the
    transcript of every agent of the list (once for each time the agent
    occurs in the list, so exactly once when the agents are distinct
    objects), keeping the agent list. Every call of [step()] that returns
    adds exactly 1 to the step counter as well. *)
Theorem inject_and_step_advance_counter :
  forall (w : DialogueSimulator.world) (name message : string),
    let agents := DialogueSimulator.agents (DialogueSimulator.self w) in
    let entry := (name ++ ": " ++ message)%string in
    let w' := snd (DialogueSimulator.inject name message w) in
    let before r := DialogueAgent.message_history (DialogueSimulator.objects w r) in
    let after r := DialogueAgent.message_history (DialogueSimulator.objects w' r) in
    fst (DialogueSimulator.inject name message w) = Return tt /\
    DialogueSimulator._step (DialogueSimulator.self w')
      = DialogueSimulator._step (DialogueSimulator.self w) + 1 /\
    DialogueSimulator.agents (DialogueSimulator.self w') = agents /\
    (forall r, after r = before r ++ repeat entry (occurrences agents r)) /\
    (forall r, In r agents ->
       exists k : nat, after r = before r ++ entry :: repeat entry k) /\
    (NoDup agents -> forall r, In r agents -> after r = before r ++ [entry]) /\
    (forall res : string * string,
       fst (DialogueSimulator.step w) = Return res ->
       DialogueSimulator._step
         (DialogueSimulator.self (snd (DialogueSimulator.step w)))
       = DialogueSimulator._step (DialogueSimulator.self w) + 1).
Proof.
  intros w name message agents entry w' before after.
  subst w' after. rewrite inject_world.
  cbn [fst snd DialogueSimulator.self DialogueSimulator.objects
       DialogueSimulator._step DialogueSimulator.agents].
  fold agents.
  repeat (split; [reflexivity |]).
  split; [| split; [| split]].
  - intros r. apply broadcast_history.
  - intros r Hin. now apply broadcast_member.
  - intros Hnd r Hin. now apply broadcast_once.
  - intros res Hres. rewrite step_counter.
    unfold ticked, run_simulator_call.
    destruct (DialogueSimulator.step w) as [o w1] eqn:Es. simpl in Hres. subst o.
    now rewrite (bind_returns _ _ w w1 res Es).
Qed.

(** Witness of C5: the opening [inject] of the notebook and a first
    [step()] on its simulator. *)
Lemma inject_and_step_advance_counter_witness :
  let w0 := Example.world0 in
  let w1 := snd (DialogueSimulator.inject "Dungeon Master" "Find the horcruxes." w0) in
  DialogueSimulator._step (DialogueSimulator.self w1) = 1 /\
  DialogueAgent.message_history (DialogueSimulator.objects w1 3%nat)
    = ["Here is the conversation so far.";
       "Dungeon Master: Find the horcruxes."] /\
  fst (DialogueSimulator.step w0) = Return ("Dungeon Master", "The hunt begins.") /\
  DialogueSimulator._step
    (DialogueSimulator.self (snd (DialogueSimulator.step w0))) = 1.
Proof.
  intros w0 w1.
  destruct (inject_and_step_advance_counter w0 "Dungeon Master"
              "Find the horcruxes.")
    as (_ & Hstep & _ & _ & _ & Honce & Htick).
  assert (Hnd : NoDup [0; 1; 2; 3]%nat).
  { repeat constructor; simpl; intuition discriminate. }
  assert (Hin : In 3%nat [0; 1; 2; 3]%nat) by (simpl; tauto).
  split; [exact Hstep |].
  split; [exact (Honce Hnd 3%nat Hin) |].
  split; [reflexivity |].
  exact (Htick ("Dungeon Master", "The hunt begins.") eq_refl).
Defined.

(** C6, the claim as stated fails: on the four agents of the notebook a
    selection function that answers -1 returns an index outside
    [0 <= idx < len(agents)], yet [step()] does not fail: list indexing
    takes -1 as the last agent, who speaks; the message is broadcast to
    every transcript and the step counter goes from 0 to 1. *)
Lemma step_proceeds_on_index_minus_one_counterexample :
  let w := DialogueSimulator.World
             (DialogueSimulator.mk [0; 1; 2; 3]%nat 0 (Example.always (-1)))
             Example.cast in
  let w' := snd (DialogueSimulator.step w) in
  DialogueSimulator.select_next_speaker (DialogueSimulator.self w)
    (DialogueSimulator._step (DialogueSimulator.self w))
    (DialogueSimulator.agents (DialogueSimulator.self w))
    (DialogueSimulator.objects w) = Return (-1) /\
  ~ (0 <= -1 < len (DialogueSimulator.agents (DialogueSimulator.self w))) /\
  fst (DialogueSimulator.step w)
    = Return ("Hermione Granger", "I draw my wand.") /\
  DialogueSimulator._step (DialogueSimulator.self w) = 0 /\
  DialogueSimulator._step (DialogueSimulator.self w') = 1 /\
  DialogueAgent.message_history (DialogueSimulator.objects w 0%nat)
    = ["Here is the conversation so far."] /\
  DialogueAgent.message_history (DialogueSimulator.objects w' 0%nat)
    = ["Here is the conversation so far.";
       "Hermione Granger: I draw my wand."].
Proof.
  intros w w'. split; [reflexivity |]. split; [lia |].
  split; [reflexivity |]. split; [reflexivity |]. split; [reflexivity |].
  split; reflexivity.
Qed.

(** C6, amended. When the selection function returns an index outside the
    range that list indexing accepts ([idx >= len(agents)] or
    [idx < -len(agents)]), [step()] raises [IndexError] at
    [self.agents[speaker_idx]] and nothing has happened: the simulator and
    every agent are as before, so the step counter and every transcript
    are unchanged. The outcome is [IndexError] whatever the chat models of
    the agents would answer, since [send] is not reached. *)
Theorem step_rejects_out_of_range_index :
  forall (w : DialogueSimulator.world) (idx : Z),
    DialogueSimulator.select_next_speaker (DialogueSimulator.self w)
      (DialogueSimulator._step (DialogueSimulator.self w))
      (DialogueSimulator.agents (DialogueSimulator.self w))
      (DialogueSimulator.objects w) = Return idx ->
    idx < - len (DialogueSimulator.agents (DialogueSimulator.self w)) \/
    len (DialogueSimulator.agents (DialogueSimulator.self w)) <= idx ->
    let w' := snd (DialogueSimulator.step w) in
    fst (DialogueSimulator.step w) = Raise IndexError /\
    w' = w /\
    DialogueSimulator._step (DialogueSimulator.self w')
      = DialogueSimulator._step (DialogueSimulator.self w) /\
    (forall r,
       DialogueAgent.message_history (DialogueSimulator.objects w' r)
       = DialogueAgent.message_history (DialogueSimulator.objects w r)).
Proof.
  intros w idx Hsel Hout w'. subst w'.
  assert (Hr : index_in_range
                 (DialogueSimulator.agents (DialogueSimulator.self w)) idx = false).
  { unfold index_in_range. apply andb_false_iff.
    destruct Hout as [Hlo | Hhi]; [left; apply Z.leb_gt | right; apply Z.ltb_ge];
      assumption. }
  rewrite (step_index_error w idx Hsel Hr). simpl. auto.
Qed.

(** Witness of C6: a selection function that answers 4 on the four agents
    of the notebook. *)
Lemma step_rejects_out_of_range_index_witness :
  let w := DialogueSimulator.World
             (DialogueSimulator.mk [0; 1; 2; 3]%nat 0 (Example.always 4))
             Example.cast in
  len [0; 1; 2; 3]%nat <= 4 /\
  fst (DialogueSimulator.step w) = Raise IndexError /\
  snd (DialogueSimulator.step w) = w.
Proof.
  intros w.
  assert (H : len [0; 1; 2; 3]%nat <= 4) by (vm_compute; discriminate).
  split; [exact H |].
  destruct (step_rejects_out_of_range_index w 4 eq_refl (or_intror H))
    as (Hraise & Hsame & _).
  split; [exact Hraise | exact Hsame].
Defined.

(** C7, the claim as stated fails: the constructor accepts the empty agent
    list and returns a simulator with zero agents. *)
Lemma init_accepts_empty_agent_list_counterexample :
  (exists sim : DialogueSimulator.t,
      DialogueSimulator.__init__ [] round_robin = Return sim /\
      DialogueSimulator.agents sim = []) /\
  (forall e : exn, DialogueSimulator.__init__ [] round_robin <> Raise e).
Proof.
  split.
  - eexists. split; reflexivity.
  - intros e. discriminate.
Qed.

(** C7, amended. The constructor checks nothing: for every agent list, the
    empty one included, it returns a simulator that holds this list and
    the selection function, with step counter 0. A simulator with zero
    agents and the schedule [select_next_speaker] fails only when
    [step()] is called: at every step count [step()] raises [IndexError]
    and changes nothing. *)
Theorem init_checks_nothing :
  forall (agents : list ref) (f : DialogueSimulator.selection_function),
    (exists sim : DialogueSimulator.t,
        DialogueSimulator.__init__ agents f = Return sim /\
        DialogueSimulator.agents sim = agents /\
        DialogueSimulator._step sim = 0 /\
        DialogueSimulator.select_next_speaker sim = f) /\
    (forall (k : Z) (h : store),
        DialogueSimulator.step
          (DialogueSimulator.World (DialogueSimulator.mk [] k round_robin) h)
        = (Raise IndexError,
           DialogueSimulator.World (DialogueSimulator.mk [] k round_robin) h)).
Proof.
  intros agents f. split.
  - eexists. repeat split.
  - intros k h.
    set (w := DialogueSimulator.World (DialogueSimulator.mk [] k round_robin) h).
    destruct (Z.eq_dec (k mod 2) 0) as [He | Ho].
    + apply (step_index_error w 0); [| reflexivity].
      simpl. unfold round_robin. now apply select_even.
    + apply (step_index_error w 1); [| reflexivity].
      simpl. unfold round_robin. rewrite select_odd; [| assumption | discriminate].
      change (len (@nil ref) - 1) with (-1). f_equal.
      pose proof (Z.mod_neg_bound (k / 2) (-1)). lia.
Qed.
(** ** The relevance score: binary64 arithmetic

    The operations of [SpecFloat] are related to the rational numbers the
    floats stand for: [binary_round_aux] returns the nearest float, ties
    to even, so it is monotone; the division and the subtraction of
    [relevance_score_fn] hand it the exact quotient and the exact
    difference. *)

(** *** Powers of two *)

Section Pow2.
Local Open Scope Q_scope.

Lemma pow2_pos (e : Z) : 0 < pow2 e.
Proof. apply Qpower_0_lt. reflexivity. Qed.

Lemma pow2_add (a b : Z) : pow2 (a + b) == pow2 a * pow2 b.
Proof. apply Qpower_plus. discriminate. Qed.

Lemma pow2_succ (a : Z) : pow2 (a + 1) == 2 * pow2 a.
Proof. rewrite pow2_add. unfold pow2 at 2. simpl. ring. Qed.

Lemma pow2_0 : pow2 0 == 1.
Proof. reflexivity. Qed.

Lemma pow2_le (a b : Z) : (a <= b)%Z -> pow2 a <= pow2 b.
Proof.
  intros H. unfold pow2. apply Qpower_le_compat_l; [exact H | discriminate].
Qed.

Lemma pow2_Z (n : Z) : (0 <= n)%Z -> inject_Z (2 ^ n) == pow2 n.
Proof. intros H. unfold pow2. now rewrite Zpower_Qpower. Qed.

End Pow2.

(** *** Numbers of binary digits *)

Section Digits.

Lemma digits2_pos_bounds (p : positive) :
  2 ^ (Zpos (digits2_pos p) - 1) <= Zpos p < 2 ^ Zpos (digits2_pos p).
Proof.
  induction p as [p IH | p IH |]; simpl digits2_pos.
  - rewrite Pos2Z.inj_succ.
    replace (Z.succ (Zpos (digits2_pos p)) - 1) with (Z.succ (Zpos (digits2_pos p) - 1)) by lia.
    rewrite !Z.pow_succ_r by lia. lia.
  - rewrite Pos2Z.inj_succ.
    replace (Z.succ (Zpos (digits2_pos p)) - 1) with (Z.succ (Zpos (digits2_pos p) - 1)) by lia.
    rewrite !Z.pow_succ_r by lia. lia.
  - simpl. lia.
Qed.

Lemma Zdigits2_nonneg (m : Z) : 0 <= Zdigits2 m.
Proof. destruct m; simpl; lia. Qed.

Lemma Zdigits2_bounds (m : Z) :
  0 < m -> 2 ^ (Zdigits2 m - 1) <= m < 2 ^ Zdigits2 m.
Proof.
  destruct m as [| p | p]; try lia. intros _. apply digits2_pos_bounds.
Qed.

Lemma Zdigits2_unique (m k : Z) :
  2 ^ (k - 1) <= m < 2 ^ k -> 0 < m -> Zdigits2 m = k.
Proof.
  intros H Hm. pose proof (Zdigits2_bounds m Hm) as B.
  pose proof (Zdigits2_nonneg m) as N.
  assert (Hk : 0 < k).
  { destruct (Z_lt_le_dec 0 k); [assumption |].
    assert (2 ^ k <= 1).
    { destruct (Z.eq_dec k 0) as [-> |]; [simpl; lia |].
      rewrite Z.pow_neg_r by lia. lia. }
    lia. }
  destruct (Z.lt_trichotomy (Zdigits2 m) k) as [Hlt | [Heq | Hgt]]; [| exact Heq |].
  - assert (2 ^ Zdigits2 m <= 2 ^ (k - 1)) by (apply Z.pow_le_mono_r; lia). lia.
  - assert (2 ^ k <= 2 ^ (Zdigits2 m - 1)) by (apply Z.pow_le_mono_r; lia). lia.
Qed.

Lemma Zdigits2_pos (m : Z) : 0 < m -> 0 < Zdigits2 m.
Proof. destruct m; simpl; lia. Qed.

End Digits.

Section DigitsQ.
Local Open Scope Q_scope.

(** The bounds of [Zdigits2] as rational numbers. *)
Lemma Zdigits2_Q (m : Z) :
  (0 < m)%Z ->
  pow2 (Zdigits2 m - 1) <= inject_Z m /\ inject_Z m + 1 <= pow2 (Zdigits2 m).
Proof.
  intros Hm. pose proof (Zdigits2_bounds m Hm) as [Hlo Hhi].
  pose proof (Zdigits2_pos m Hm) as Hd.
  rewrite <- !pow2_Z by lia. split.
  - rewrite <- Zle_Qle. exact Hlo.
  - replace 1 with (inject_Z 1) by reflexivity. rewrite <- inject_Z_plus.
    rewrite <- Zle_Qle. lia.
Qed.

End DigitsQ.

(** *** Shifting right keeps track of the discarded bits *)

Section Shr.
Local Open Scope Q_scope.

Lemma inb_ext (m : Z) (r s : bool) (u u' : Q) :
  u == u' -> inb m r s u -> inb m r s u'.
Proof. intros E. destruct r, s; simpl; lra. Qed.

Lemma inb_bounds (m : Z) (r s : bool) (u : Q) :
  inb m r s u -> inject_Z m <= u /\ u < inject_Z m + 1.
Proof. destruct r, s; simpl; lra. Qed.

Lemma inject_xO (p : positive) : inject_Z (Zpos p~0) == 2 * inject_Z (Zpos p).
Proof. rewrite Pos2Z.inj_xO, inject_Z_mult. reflexivity. Qed.

Lemma inject_xI (p : positive) : inject_Z (Zpos p~1) == 2 * inject_Z (Zpos p) + 1.
Proof. rewrite Pos2Z.inj_xI, inject_Z_plus, inject_Z_mult. reflexivity. Qed.

(** One shift halves the number the record stands for. *)
Lemma shr_1_ok (mrs : shr_record) (u : Q) :
  (0 <= shr_m mrs)%Z -> inb_rec mrs u ->
  inb_rec (shr_1 mrs) (u * (1#2)) /\ (0 <= shr_m (shr_1 mrs))%Z.
Proof.
  destruct mrs as [m r s]. unfold inb_rec. cbn [shr_m shr_r shr_s].
  intros Hm H. destruct m as [| p | p]; [| | lia].
  - split; [| simpl; lia].
    destruct r, s; cbn [shr_1 shr_m shr_r shr_s orb inb] in *;
      change (inject_Z 0) with 0 in *; lra.
  - destruct p as [p | p |].
    + split; [| simpl; lia].
      pose proof (inject_xI p) as E.
      destruct r, s; cbn [shr_1 shr_m shr_r shr_s orb inb] in *; lra.
    + split; [| simpl; lia].
      pose proof (inject_xO p) as E.
      destruct r, s; cbn [shr_1 shr_m shr_r shr_s orb inb] in *; lra.
    + split; [| simpl; lia].
      destruct r, s; cbn [shr_1 shr_m shr_r shr_s orb inb] in *;
        change (inject_Z 0) with 0 in *; change (inject_Z 1) with 1 in *; lra.
Qed.

Lemma iter_shr_ok (p : positive) :
  forall (mrs : shr_record) (u : Q),
    (0 <= shr_m mrs)%Z -> inb_rec mrs u ->
    inb_rec (iter_pos shr_1 p mrs) (u * pow2 (- Zpos p)) /\
    (0 <= shr_m (iter_pos shr_1 p mrs))%Z.
Proof.
  induction p as [p IH | p IH |]; intros mrs u Hm H; simpl iter_pos.
  - destruct (shr_1_ok mrs u Hm H) as [H1 Hm1].
    destruct (IH _ _ Hm1 H1) as [H2 Hm2].
    destruct (IH _ _ Hm2 H2) as [H3 Hm3].
    split; [| exact Hm3].
    eapply inb_ext; [| exact H3].
    replace (- Zpos p~1)%Z with (-1 + (- Zpos p + - Zpos p))%Z by lia.
    rewrite !pow2_add. change (pow2 (-1)) with (1#2). ring.
  - destruct (IH _ _ Hm H) as [H2 Hm2].
    destruct (IH _ _ Hm2 H2) as [H3 Hm3].
    split; [| exact Hm3].
    eapply inb_ext; [| exact H3].
    replace (- Zpos p~0)%Z with (- Zpos p + - Zpos p)%Z by lia.
    rewrite !pow2_add. ring.
  - destruct (shr_1_ok mrs u Hm H) as [H1 Hm1].
    split; [| exact Hm1].
    eapply inb_ext; [| exact H1]. change (pow2 (- 1)) with (1#2). reflexivity.
Qed.

(** [shr] by a non-negative amount. *)
Lemma shr_ok (mrs : shr_record) (e n : Z) (u : Q) :
  (0 <= shr_m mrs)%Z -> inb_rec mrs u -> (0 <= n)%Z ->
  snd (shr mrs e n) = (e + n)%Z /\
  inb_rec (fst (shr mrs e n)) (u * pow2 (- n)) /\
  (0 <= shr_m (fst (shr mrs e n)))%Z.
Proof.
  intros Hm H Hn. destruct n as [| p | p]; [| | lia].
  - simpl. split; [lia |]. split; [| exact Hm].
    eapply inb_ext; [| exact H]. change (pow2 (-0)) with 1. ring.
  - simpl shr. cbn [fst snd]. split; [reflexivity |].
    apply iter_shr_ok; assumption.
Qed.

End Shr.

(** *** Rounding to the nearest integer, ties to even *)

Section Rounding.
Local Open Scope Q_scope.

Lemma Qfloor_unique (u : Q) (m : Z) :
  inject_Z m <= u -> u < inject_Z m + 1 -> Qfloor u = m.
Proof.
  intros Hlo Hhi.
  pose proof (Qfloor_le u) as F1. pose proof (Qlt_floor u) as F2.
  rewrite inject_Z_plus in F2. change (inject_Z 1) with 1 in F2.
  assert (A : (Qfloor u < m + 1)%Z).
  { rewrite Zlt_Qlt, inject_Z_plus. change (inject_Z 1) with 1. lra. }
  assert (B : (m < Qfloor u + 1)%Z).
  { rewrite Zlt_Qlt, inject_Z_plus. change (inject_Z 1) with 1. lra. }
  lia.
Qed.

Lemma RNE_bounds (u : Q) : (Qfloor u <= RNE u <= Qfloor u + 1)%Z.
Proof.
  unfold RNE. destruct (Qcompare _ _); [destruct (Z.even _) | |]; lia.
Qed.

Lemma RNE_ext (u u' : Q) : u == u' -> RNE u = RNE u'.
Proof.
  intros E. unfold RNE.
  assert (F : Qfloor u = Qfloor u') by (now rewrite E).
  rewrite F.
  assert (C : (u - inject_Z (Qfloor u') ?= 1 # 2) = (u' - inject_Z (Qfloor u') ?= 1 # 2))
    by (now rewrite E).
  now rewrite C.
Qed.

Lemma RNE_mono (u u' : Q) : u <= u' -> (RNE u <= RNE u')%Z.
Proof.
  intros H. pose proof (Qfloor_resp_le _ _ H) as F.
  pose proof (RNE_bounds u) as B. pose proof (RNE_bounds u') as B'.
  destruct (Z.eq_dec (Qfloor u) (Qfloor u')) as [E | NE]; [| lia].
  unfold RNE in *. rewrite E in *.
  destruct (Qcompare_spec (u - inject_Z (Qfloor u')) (1#2)) as [C | C | C];
    destruct (Qcompare_spec (u' - inject_Z (Qfloor u')) (1#2)) as [C' | C' | C'];
    try lia; try lra; destruct (Z.even _); lia.
Qed.

Lemma RNE_le_int (u : Q) (n : Z) : u < inject_Z n -> (RNE u <= n)%Z.
Proof.
  intros H. pose proof (RNE_bounds u) as B. pose proof (Qfloor_le u) as F.
  assert ((Qfloor u < n)%Z) by (rewrite Zlt_Qlt; lra). lia.
Qed.

Lemma RNE_ge_int (u : Q) (n : Z) : inject_Z n <= u -> (n <= RNE u)%Z.
Proof.
  intros H. pose proof (RNE_bounds u) as B.
  pose proof (Qfloor_resp_le _ _ H) as F. rewrite Qfloor_Z in F. lia.
Qed.

Lemma RNE_nonneg (u : Q) : 0 <= u -> (0 <= RNE u)%Z.
Proof. intros H. apply RNE_ge_int. exact H. Qed.

Lemma RNE_Z (n : Z) : RNE (inject_Z n) = n.
Proof.
  unfold RNE. rewrite Qfloor_Z.
  destruct (Qcompare (inject_Z n - inject_Z n) (1 # 2)) eqn:C.
  - apply Qeq_alt in C. lra.
  - reflexivity.
  - apply Qgt_alt in C. lra.
Qed.

(** [round_nearest_even] on a record is [RNE] on the number it stands for. *)
Lemma round_record (mrs : shr_record) (u : Q) :
  inb_rec mrs u ->
  round_nearest_even (shr_m mrs) (loc_of_shr_record mrs) = RNE u.
Proof.
  destruct mrs as [m r s]. unfold inb_rec. cbn [shr_m shr_r shr_s]. intros H.
  pose proof (inb_bounds _ _ _ _ H) as [Hlo Hhi].
  unfold RNE. rewrite (Qfloor_unique u m Hlo Hhi).
  destruct r, s; cbn [inb loc_of_shr_record round_nearest_even] in *.
  - destruct (Qcompare_spec (u - inject_Z m) (1#2)); try lra; lia.
  - destruct (Qcompare_spec (u - inject_Z m) (1#2)); try lra; reflexivity.
  - destruct (Qcompare_spec (u - inject_Z m) (1#2)); try lra; reflexivity.
  - destruct (Qcompare_spec (u - inject_Z m) (1#2)); try lra; reflexivity.
Qed.

End Rounding.

(** *** What [binary_round_aux] returns *)

Section Core.

Lemma fexp64 (e : Z) : fexp 53 1024 e = Z.max (e - 53) (-1074).
Proof. reflexivity. Qed.

Lemma bounded_intro (p : positive) (e : Z) :
  fexp 53 1024 (Zdigits2 (Zpos p) + e) = e -> e <= 971 ->
  bounded 53 1024 p e = true.
Proof.
  intros Hc He. unfold bounded, canonical_mantissa.
  change (Zpos (digits2_pos p)) with (Zdigits2 (Zpos p)).
  rewrite Hc, Z.eqb_refl. simpl. apply Z.leb_le. exact He.
Qed.

Lemma bounded_elim (p : positive) (e : Z) :
  bounded 53 1024 p e = true ->
  fexp 53 1024 (Zdigits2 (Zpos p) + e) = e /\ e <= 971.
Proof.
  unfold bounded, canonical_mantissa. intros H.
  apply andb_true_iff in H. destruct H as [Hc He].
  apply Z.eqb_eq in Hc. apply Z.leb_le in He. split; assumption.
Qed.

Lemma shr_fexp_exact_0 (m e : Z) :
  fexp 53 1024 (Zdigits2 m + e) - e = 0 ->
  shr_fexp 53 1024 m e loc_Exact = (Build_shr_record m false false, e).
Proof. intros H. unfold shr_fexp. rewrite H. reflexivity. Qed.

Local Open Scope Q_scope.

Lemma max_value_lt : max_value < pow2 1024.
Proof. reflexivity. Qed.

Lemma max_value_scaled : max_value * pow2 (-971) == inject_Z 9007199254740991.
Proof.
  unfold max_value. rewrite <- Qmult_assoc, <- pow2_add. simpl (971 + -971)%Z.
  rewrite pow2_0. ring.
Qed.

(** Where the value of a rounding input lies. *)
Lemma input_value_bounds (m e : Z) (l : location) (u : Q) :
  (0 <= m)%Z ->
  inb_rec (shr_record_of_loc m l) u ->
  (e <= fexp 53 1024 (Zdigits2 m + e))%Z ->
  0 <= u * pow2 e /\
  ((0 < m)%Z ->
     pow2 (Zdigits2 m + e - 1) <= u * pow2 e /\ u * pow2 e < pow2 (Zdigits2 m + e)) /\
  (m = 0%Z -> u * pow2 e < pow2 e /\ (e <= -1074)%Z).
Proof.
  intros Hm Hin HP.
  assert (Hrm : shr_m (shr_record_of_loc m l) = m)
    by (destruct l as [| []]; reflexivity).
  destruct (inb_bounds _ _ _ _ Hin) as [Hlo Hhi]. rewrite Hrm in Hlo, Hhi.
  pose proof (pow2_pos e) as Pe.
  assert (H0 : 0 <= u) by (change 0 with (inject_Z 0); rewrite Zle_Qle in Hm; lra).
  split; [apply Qmult_le_0_compat; lra |]. split.
  - intros Hmpos. destruct (Zdigits2_Q m Hmpos) as [Q1 Q2]. split.
    + replace (Zdigits2 m + e - 1)%Z with ((Zdigits2 m - 1) + e)%Z by lia.
      rewrite pow2_add. apply Qmult_le_compat_r; lra.
    + rewrite pow2_add. apply Qmult_lt_compat_r; lra.
  - intros ->. change (inject_Z 0) with 0 in *. split.
    + assert (u * pow2 e < 1 * pow2 e) by (apply Qmult_lt_compat_r; lra). lra.
    + simpl in HP. rewrite fexp64 in HP. lia.
Qed.

(** What [binary_round_aux] returns on an input that stands for [u * 2^e]
    and does not exceed the largest float. *)
Lemma round_aux_spec (m e : Z) (l : location) (u : Q) :
  (0 <= m)%Z ->
  inb_rec (shr_record_of_loc m l) u ->
  (e <= fexp 53 1024 (Zdigits2 m + e))%Z ->
  u * pow2 e <= max_value ->
  let E := fexp 53 1024 (Zdigits2 m + e) in
  let m2 := RNE (u * pow2 (e - E)) in
  nonneg_valid (binary_round_aux 53 1024 false m e l) /\
  B2Q (binary_round_aux 53 1024 false m e l) == inject_Z m2 * pow2 E.
Proof.
  intros Hm Hin HP Hov E m2.
  set (D0 := (Zdigits2 m + e)%Z) in *.
  assert (Hrm : shr_m (shr_record_of_loc m l) = m)
    by (destruct l as [| []]; reflexivity).
  assert (Hfin : binary_round_aux 53 1024 false m e l
                 = finish_round (shr_fexp 53 1024 m2 E loc_Exact)).
  { change (binary_round_aux 53 1024 false m e l)
      with (let '(mrs', e') := shr_fexp 53 1024 m e l in
            finish_round
              (shr_fexp 53 1024
                 (round_nearest_even (shr_m mrs') (loc_of_shr_record mrs')) e'
                 loc_Exact)).
    destruct (shr_ok (shr_record_of_loc m l) e (E - e) u) as (He1 & Hin1 & Hm1);
      [rewrite Hrm; exact Hm | exact Hin | fold E in HP; lia |].
    unfold shr_fexp at 1. fold D0 E.
    destruct (shr (shr_record_of_loc m l) e (E - e)) as [mrs1 e1].
    cbn [fst snd] in He1, Hin1, Hm1.
    assert (He1' : e1 = E) by lia. rewrite He1'.
    rewrite (round_record mrs1 _ Hin1).
    assert (Hr : RNE (u * pow2 (- (E - e))) = m2).
    { apply RNE_ext. replace (- (E - e))%Z with (e - E)%Z by lia. reflexivity. }
    now rewrite Hr. }
  rewrite Hfin. clear Hfin.
  set (u1 := u * pow2 (e - E)) in *.
  rename D0 into D.
  assert (HE : E = Z.max (D - 53) (-1074)) by reflexivity.
  destruct (inb_bounds _ _ _ _ Hin) as [Hlo Hhi]. rewrite Hrm in Hlo, Hhi.
  assert (Hu1 : 0 <= u1).
  { subst u1. pose proof (pow2_pos (e - E)).
    assert (0 <= u) by (change 0 with (inject_Z 0); rewrite Zle_Qle in Hm; lra).
    apply Qmult_le_0_compat; lra. }
  assert (Hm2 : (0 <= m2)%Z) by (apply RNE_nonneg; exact Hu1).
  assert (HD : (0 < m)%Z -> (D <= 1024)%Z).
  { intros Hmpos.
    destruct (input_value_bounds m e l u Hm Hin HP) as (_ & Vpos & _).
    destruct (Vpos Hmpos) as [Vlo _]. fold D in Vlo.
    destruct (Z_le_gt_dec D 1024) as [Hle | Hgt]; [exact Hle | exfalso].
    assert (pow2 1024 <= pow2 (D - 1)) by (apply pow2_le; lia).
    pose proof max_value_lt. lra. }
  (* the two regimes *)
  destruct (Z_lt_le_dec 0 m) as [Hmpos | Hm0];
    [destruct (Z_lt_le_dec 0 (D - E)) as [Hd | Hd] |].
  - (* enough digits *)
    pose proof (HD Hmpos) as HD1.
    destruct (Zdigits2_Q m Hmpos) as [Q1 Q2].
    set (d := (D - E)%Z) in *.
    assert (B1 : pow2 (d - 1) <= u1).
    { subst u1. replace (d - 1)%Z with ((Zdigits2 m - 1) + (e - E))%Z by (subst d D; lia).
      rewrite pow2_add. pose proof (pow2_pos (e - E)).
      apply Qmult_le_compat_r; lra. }
    assert (B2 : u1 < pow2 d).
    { subst u1. replace d with (Zdigits2 m + (e - E))%Z by (subst d D; lia).
      rewrite pow2_add. pose proof (pow2_pos (e - E)).
      apply Qmult_lt_compat_r; lra. }
    assert (I1 : (2 ^ (d - 1) <= m2)%Z).
    { apply RNE_ge_int. rewrite pow2_Z by lia. exact B1. }
    assert (I2 : (m2 <= 2 ^ d)%Z).
    { apply RNE_le_int. rewrite pow2_Z by lia. exact B2. }
    assert (Hpos2 : (0 < 2 ^ (d - 1))%Z) by (apply Z.pow_pos_nonneg; lia).
    assert (Hpow : (2 ^ d = 2 * 2 ^ (d - 1))%Z).
    { replace d with (Z.succ (d - 1)) at 1 by lia. apply Z.pow_succ_r. lia. }
    destruct (Z_lt_le_dec m2 (2 ^ d)) as [Hlt | Hge].
    + (* no carry *)
      assert (Hdig : Zdigits2 m2 = d) by (apply Zdigits2_unique; lia).
      rewrite shr_fexp_exact_0
        by (rewrite Hdig; replace (d + E)%Z with D by (subst d; lia); fold E; lia).
      unfold finish_round. cbn [shr_m]. change (1024 - 53)%Z with 971%Z.
      destruct m2 as [| p | p]; try lia.
      assert (HEle : (E <= 971)%Z) by lia.
      apply Z.leb_le in HEle. rewrite HEle.
      split; [| simpl; ring].
      simpl. apply bounded_intro; [| apply Z.leb_le; exact HEle].
      rewrite Hdig. replace (d + E)%Z with D by (subst d; lia). reflexivity.
    + (* carry *)
      assert (Hm2eq : m2 = (2 ^ d)%Z) by lia.
      assert (Hdig : Zdigits2 m2 = (d + 1)%Z).
      { apply Zdigits2_unique; [| lia].
        replace (d + 1 - 1)%Z with d by lia.
        replace (d + 1)%Z with (Z.succ d) by lia.
        rewrite Z.pow_succ_r by lia. lia. }
      destruct (Z_lt_le_dec (D - 53) (-1074)) as [Hsub | Hnorm].
      * (* subnormal: the exponent stays *)
        rewrite shr_fexp_exact_0
          by (rewrite Hdig, fexp64; lia).
        unfold finish_round. cbn [shr_m]. change (1024 - 53)%Z with 971%Z.
        destruct m2 as [| p | p]; try lia.
        assert (HEle : (E <= 971)%Z) by lia.
        apply Z.leb_le in HEle. rewrite HEle.
        split; [| simpl; ring].
        simpl. apply bounded_intro; [| apply Z.leb_le; exact HEle].
        rewrite Hdig, fexp64. lia.
      * (* normal: one more shift *)
        assert (HD2 : (D <= 1023)%Z).
        { destruct (Z_le_gt_dec D 1023) as [Hle | Hgt]; [exact Hle | exfalso].
          assert (HE971 : E = 971%Z) by lia.
          assert (Hd53 : d = 53%Z) by (subst d; lia).
          assert (Hu1max : u1 <= inject_Z 9007199254740991).
          { rewrite <- max_value_scaled. subst u1.
            replace (e - E)%Z with (e + -971)%Z by lia. rewrite pow2_add.
            rewrite Qmult_assoc. pose proof (pow2_pos (-971)).
            apply Qmult_le_compat_r; lra. }
          apply RNE_mono in Hu1max. rewrite RNE_Z in Hu1max.
          fold m2 in Hu1max. rewrite Hm2eq, Hd53 in Hu1max.
          revert Hu1max. vm_compute. intros F. apply F. reflexivity. }
        assert (Hn2 : (fexp 53 1024 (Zdigits2 m2 + E) - E = 1)%Z)
          by (rewrite Hdig, fexp64; lia).
        unfold shr_fexp. rewrite Hn2.
        destruct m2 as [| p | p]; try lia.
        destruct p as [p | p |]; try lia.
        unfold finish_round.
        cbn [shr_record_of_loc shr iter_pos shr_1 shr_m orb].
        change (1024 - 53)%Z with 971%Z.
        assert (Hp : Zpos p = (2 ^ (d - 1))%Z) by lia.
        assert (HEle : (E + 1 <= 971)%Z) by lia.
        apply Z.leb_le in HEle. rewrite HEle.
        split.
        -- simpl. apply bounded_intro; [| apply Z.leb_le; exact HEle].
           assert (Hdp : Zdigits2 (Zpos p) = d) by (apply Zdigits2_unique; lia).
           rewrite Hdp, fexp64. lia.
        -- unfold B2Q. rewrite inject_xO, pow2_succ. ring.
  - (* below the smallest subnormal binade *)
    assert (HEm : E = (-1074)%Z) by lia.
    destruct (Zdigits2_Q m Hmpos) as [Q1 Q2].
    assert (B2 : u1 < 1).
    { subst u1.
      assert (pow2 (Zdigits2 m) * pow2 (e - E) <= 1).
      { rewrite <- pow2_add. change 1 with (pow2 0). apply pow2_le. subst D. lia. }
      pose proof (pow2_pos (e - E)).
      assert (u * pow2 (e - E) < pow2 (Zdigits2 m) * pow2 (e - E))
        by (apply Qmult_lt_compat_r; lra).
      lra. }
    assert (I2 : (m2 <= 1)%Z) by (apply RNE_le_int; exact B2).
    rewrite HEm in *.
    assert (Hc : m2 = 0%Z \/ m2 = 1%Z) by lia.
    destruct Hc as [-> | ->]; simpl; split; try reflexivity; try exact I; ring.
  - (* zero mantissa *)
    assert (Hz : m = 0%Z) by lia. subst m.
    assert (HEm : E = (-1074)%Z) by (subst D; simpl in *; lia).
    assert (B2 : u1 < 1).
    { subst u1. change (inject_Z 0) with 0 in *.
      assert (pow2 (e - E) <= 1).
      { change 1 with (pow2 0). apply pow2_le. subst D. simpl in *. lia. }
      pose proof (pow2_pos (e - E)).
      assert (u * pow2 (e - E) < 1 * pow2 (e - E))
        by (apply Qmult_lt_compat_r; lra).
      lra. }
    assert (I2 : (m2 <= 1)%Z) by (apply RNE_le_int; exact B2).
    rewrite HEm in *.
    assert (Hc : m2 = 0%Z \/ m2 = 1%Z) by lia.
    destruct Hc as [-> | ->]; simpl; split; try reflexivity; try exact I; ring.
Qed.

End Core.

(** *** Rounding is monotone *)

Section Monotone.
Local Open Scope Q_scope.

(** Of two inputs of [binary_round_aux], the one that stands for the
    smaller number gives the smaller float. *)
Lemma round_aux_mono (m e : Z) (l : location) (u : Q)
    (m' e' : Z) (l' : location) (u' : Q) :
  (0 <= m)%Z -> inb_rec (shr_record_of_loc m l) u ->
  (e <= fexp 53 1024 (Zdigits2 m + e))%Z ->
  (0 <= m')%Z -> inb_rec (shr_record_of_loc m' l') u' ->
  (e' <= fexp 53 1024 (Zdigits2 m' + e'))%Z -> u' * pow2 e' <= max_value ->
  u * pow2 e <= u' * pow2 e' ->
  B2Q (binary_round_aux 53 1024 false m e l)
  <= B2Q (binary_round_aux 53 1024 false m' e' l').
Proof.
  intros Hm Hin HP Hm' Hin' HP' Hov' Hle.
  assert (Hov : u * pow2 e <= max_value) by lra.
  destruct (round_aux_spec m e l u Hm Hin HP Hov) as [_ ->].
  destruct (round_aux_spec m' e' l' u' Hm' Hin' HP' Hov') as [_ ->].
  destruct (input_value_bounds m e l u Hm Hin HP) as (V0 & Vpos & Vzero).
  destruct (input_value_bounds m' e' l' u' Hm' Hin' HP') as (V0' & Vpos' & Vzero').
  set (D := (Zdigits2 m + e)%Z) in *. set (D' := (Zdigits2 m' + e')%Z) in *.
  set (E := fexp 53 1024 D) in *. set (E' := fexp 53 1024 D') in *.
  assert (HE : E = Z.max (D - 53) (-1074)) by reflexivity.
  assert (HE' : E' = Z.max (D' - 53) (-1074)) by reflexivity.
  set (v := u * pow2 e) in *. set (v' := u' * pow2 e') in *.
  assert (U : u * pow2 (e - E) == v * pow2 (- E)).
  { subst v. replace (e - E)%Z with (e + - E)%Z by lia. rewrite pow2_add. ring. }
  assert (U' : u' * pow2 (e' - E') == v' * pow2 (- E')).
  { subst v'. replace (e' - E')%Z with (e' + - E')%Z by lia. rewrite pow2_add. ring. }
  rewrite (RNE_ext _ _ U), (RNE_ext _ _ U').
  (* the exponents are ordered like the values *)
  assert (HEE : (E <= E')%Z).
  { destruct (Z_lt_le_dec E' E) as [Hlt | ]; [exfalso | assumption].
    assert (HD : (D' + 1 <= D)%Z) by lia.
    destruct (Z_lt_le_dec 0 m) as [Hmpos | Hm0].
    - destruct (Vpos Hmpos) as [Vlo _].
      assert (P : pow2 D' <= pow2 (D - 1)) by (apply pow2_le; lia).
      destruct (Z_lt_le_dec 0 m') as [Hmpos' | Hm0'].
      + destruct (Vpos' Hmpos') as [_ Vhi']. lra.
      + assert (m' = 0%Z) by lia. subst m'.
        destruct (Vzero' eq_refl) as [Vhi' _].
        assert (D' = e') by (subst D'; reflexivity).
        assert (pow2 e' <= pow2 D') by (apply pow2_le; lia). lra.
    - assert (m = 0%Z) by lia. subst m.
      destruct (Vzero eq_refl) as [_ He]. subst D. simpl in HE. lia. }
  pose proof (pow2_pos E) as PE. pose proof (pow2_pos E') as PE'.
  pose proof (pow2_pos (- E)) as PnE. pose proof (pow2_pos (- E')) as PnE'.
  destruct (Z.eq_dec E E') as [Heq | Hne].
  - (* same grid *)
    rewrite <- Heq.
    assert (R : (RNE (v * pow2 (- E)) <= RNE (v' * pow2 (- E)))%Z).
    { apply RNE_mono. apply Qmult_le_compat_r; lra. }
    rewrite Zle_Qle in R. apply Qmult_le_compat_r; lra.
  - (* the second value is in a higher binade *)
    assert (HElt : (E < E')%Z) by lia.
    assert (HE'n : E' = (D' - 53)%Z) by lia.
    assert (Hmpos' : (0 < m')%Z).
    { destruct (Z_lt_le_dec 0 m') as [| Hm0']; [assumption | exfalso].
      assert (m' = 0%Z) by lia. subst m'.
      destruct (Vzero' eq_refl) as [_ He']. subst D'. simpl in HE'. lia. }
    destruct (Vpos' Hmpos') as [Vlo' _].
    (* lower bound for the second result *)
    assert (L' : (2 ^ 52 <= RNE (v' * pow2 (- E')))%Z).
    { apply RNE_ge_int. rewrite pow2_Z by lia.
      replace 52%Z with ((D' - 1) + - E')%Z by lia.
      rewrite pow2_add. apply Qmult_le_compat_r; lra. }
    assert (L2 : pow2 (D' - 1) <= inject_Z (RNE (v' * pow2 (- E'))) * pow2 E').
    { rewrite Zle_Qle in L'. rewrite pow2_Z in L' by lia.
      replace (D' - 1)%Z with (52 + E')%Z by lia. rewrite pow2_add.
      apply Qmult_le_compat_r; lra. }
    (* upper bound for the first result *)
    assert (HDD : (D + 1 <= D')%Z) by lia.
    assert (R1 : inject_Z (RNE (v * pow2 (- E))) * pow2 E <= pow2 (D' - 1)).
    { destruct (Z_lt_le_dec 0 m) as [Hmpos | Hm0];
        [destruct (Z_lt_le_dec D E) as [Hsmall | Hbig] |].
      - (* the value is below one unit *)
        destruct (Vpos Hmpos) as [_ Vhi].
        assert (B : v * pow2 (- E) < inject_Z 1).
        { change (inject_Z 1) with 1.
          assert (pow2 D * pow2 (- E) <= 1).
          { rewrite <- pow2_add. change 1 with (pow2 0). apply pow2_le. lia. }
          assert (v * pow2 (- E) < pow2 D * pow2 (- E))
            by (apply Qmult_lt_compat_r; lra).
          lra. }
        apply RNE_le_int in B. rewrite Zle_Qle in B. change (inject_Z 1) with 1 in B.
        assert (pow2 E <= pow2 (D' - 1)) by (apply pow2_le; lia).
        assert (inject_Z (RNE (v * pow2 (- E))) * pow2 E <= 1 * pow2 E)
          by (apply Qmult_le_compat_r; lra).
        lra.
      - destruct (Vpos Hmpos) as [_ Vhi].
        assert (B : v * pow2 (- E) < inject_Z (2 ^ (D - E))).
        { rewrite pow2_Z by lia. replace (D - E)%Z with (D + - E)%Z by lia.
          rewrite pow2_add. apply Qmult_lt_compat_r; lra. }
        apply RNE_le_int in B. rewrite Zle_Qle in B. rewrite pow2_Z in B by lia.
        assert (pow2 (D - E) * pow2 E <= pow2 (D' - 1)).
        { rewrite <- pow2_add. apply pow2_le. lia. }
        assert (inject_Z (RNE (v * pow2 (- E))) * pow2 E <= pow2 (D - E) * pow2 E)
          by (apply Qmult_le_compat_r; lra).
        lra.
      - assert (m = 0%Z) by lia. subst m.
        destruct (Vzero eq_refl) as [Vhi He].
        assert (HEm : E = (-1074)%Z) by (subst D; simpl in HE; lia).
        assert (B : v * pow2 (- E) < inject_Z 1).
        { change (inject_Z 1) with 1.
          assert (pow2 e * pow2 (- E) <= 1).
          { rewrite <- pow2_add. change 1 with (pow2 0). apply pow2_le. lia. }
          assert (v * pow2 (- E) < pow2 e * pow2 (- E))
            by (apply Qmult_lt_compat_r; lra).
          lra. }
        apply RNE_le_int in B. rewrite Zle_Qle in B. change (inject_Z 1) with 1 in B.
        assert (pow2 E <= pow2 (D' - 1)) by (apply pow2_le; lia).
        assert (inject_Z (RNE (v * pow2 (- E))) * pow2 E <= 1 * pow2 E)
          by (apply Qmult_le_compat_r; lra).
        lra. }
    lra.
Qed.

End Monotone.

(** *** Comparison of floats and of their values *)

Section Compare.
Local Open Scope Q_scope.

Lemma B2Q_nonneg (x : spec_float) : nonneg_valid x -> 0 <= B2Q x.
Proof.
  destruct x as [s | s | | [|] m e]; simpl; try lra; try contradiction.
  intros _. pose proof (pow2_pos e).
  assert (0 < inject_Z (Zpos m)) by (change 0 with (inject_Z 0); rewrite <- Zlt_Qlt; lia).
  assert (0 < inject_Z (Zpos m) * pow2 e) by (apply Qmult_lt_0_compat; assumption).
  lra.
Qed.

Lemma finite_value_bounds (m : positive) (e : Z) :
  pow2 (Zdigits2 (Zpos m) + e - 1) <= inject_Z (Zpos m) * pow2 e /\
  inject_Z (Zpos m) * pow2 e < pow2 (Zdigits2 (Zpos m) + e).
Proof.
  destruct (Zdigits2_Q (Zpos m)) as [Q1 Q2]; [lia |].
  pose proof (pow2_pos e). split.
  - replace (Zdigits2 (Zpos m) + e - 1)%Z with ((Zdigits2 (Zpos m) - 1) + e)%Z by lia.
    rewrite pow2_add. apply Qmult_le_compat_r; lra.
  - rewrite pow2_add. apply Qmult_lt_compat_r; lra.
Qed.

(** Canonical floats with a smaller exponent are smaller. *)
Lemma canonical_exponent_lt (m1 m2 : positive) (e1 e2 : Z) :
  bounded 53 1024 m1 e1 = true -> bounded 53 1024 m2 e2 = true ->
  (e1 < e2)%Z ->
  inject_Z (Zpos m1) * pow2 e1 < inject_Z (Zpos m2) * pow2 e2.
Proof.
  intros B1 B2 Hlt.
  destruct (bounded_elim _ _ B1) as [C1 _]. destruct (bounded_elim _ _ B2) as [C2 _].
  rewrite fexp64 in C1, C2.
  destruct (finite_value_bounds m1 e1) as [_ H1].
  destruct (finite_value_bounds m2 e2) as [H2 _].
  assert (P : pow2 (Zdigits2 (Zpos m1) + e1) <= pow2 (Zdigits2 (Zpos m2) + e2 - 1))
    by (apply pow2_le; lia).
  lra.
Qed.

(** On positive canonical floats [SFcompare] compares the values. *)
Lemma SFcompare_finite (m1 m2 : positive) (e1 e2 : Z) :
  bounded 53 1024 m1 e1 = true -> bounded 53 1024 m2 e2 = true ->
  SFcompare (S754_finite false m1 e1) (S754_finite false m2 e2)
  = Some (Qcompare (inject_Z (Zpos m1) * pow2 e1) (inject_Z (Zpos m2) * pow2 e2)).
Proof.
  intros B1 B2. cbn [SFcompare]. f_equal.
  destruct (Z.compare_spec e1 e2) as [-> | Hlt | Hgt].
  - change (Pos.compare_cont Eq m1 m2) with (Pos.compare m1 m2).
    pose proof (pow2_pos e2) as P.
    destruct (Pos.compare_spec m1 m2) as [-> | H | H]; symmetry.
    + apply Qeq_alt. reflexivity.
    + apply Qlt_alt. apply Qmult_lt_compat_r; [exact P |].
      rewrite <- Zlt_Qlt. lia.
    + apply Qgt_alt. apply Qmult_lt_compat_r; [exact P |].
      rewrite <- Zlt_Qlt. lia.
  - symmetry. apply Qlt_alt. now apply canonical_exponent_lt.
  - symmetry. apply Qgt_alt. now apply canonical_exponent_lt.
Qed.

End Compare.

(** *** The location of a quotient from its remainder *)

Section Division.
Local Open Scope Q_scope.

(** [new_location nb k] says where [q + k / nb] lies from [q]. *)
Lemma new_location_spec (nb k q : Z) :
  (0 < nb)%Z -> (0 <= k < nb)%Z ->
  inb_rec (shr_record_of_loc q (new_location nb k))
          (inject_Z q + inject_Z k / inject_Z nb).
Proof.
  intros Hnb Hk.
  assert (Nb : 0 < inject_Z nb) by (change 0 with (inject_Z 0); rewrite <- Zlt_Qlt; lia).
  assert (K0 : 0 <= inject_Z k) by (change 0 with (inject_Z 0); rewrite <- Zle_Qle; lia).
  assert (Kn : inject_Z k < inject_Z nb) by (rewrite <- Zlt_Qlt; lia).
  set (t := inject_Z k / inject_Z nb).
  assert (T : t * inject_Z nb == inject_Z k).
  { subst t. field. lra. }
  assert (Goal_t : inject_Z q + inject_Z k / inject_Z nb == inject_Z q + t)
    by reflexivity.
  apply (inb_ext _ _ _ _ _ (Qeq_sym _ _ Goal_t)). clear Goal_t. clearbody t.
  assert (Half : forall c : comparison,
             Z.compare (2 * k) nb = c ->
             match c with
             | Lt => t < 1#2
             | Eq => t == 1#2
             | Gt => 1#2 < t
             end).
  { intros c Hc.
    assert (E2 : inject_Z (2 * k) == 2 * inject_Z k) by (rewrite inject_Z_mult; reflexivity).
    destruct c.
    - apply Z.compare_eq in Hc.
      assert (I : inject_Z nb == 2 * inject_Z k) by (rewrite <- E2, Hc; reflexivity).
      assert (Nz : ~ inject_Z nb == 0) by lra.
      apply (Qmult_inj_r _ _ (inject_Z nb) Nz). lra.
    - rewrite Z.compare_lt_iff in Hc. rewrite Zlt_Qlt, E2 in Hc.
      apply (Qmult_lt_r _ _ (inject_Z nb) Nb). lra.
    - rewrite Z.compare_gt_iff in Hc. rewrite Zlt_Qlt, E2 in Hc.
      apply (Qmult_lt_r _ _ (inject_Z nb) Nb). lra. }
  assert (T0 : 0 <= t).
  { apply (Qmult_le_r _ _ (inject_Z nb) Nb). lra. }
  assert (T1 : t < 1).
  { apply (Qmult_lt_r _ _ (inject_Z nb) Nb). lra. }
  assert (Tpos : (k <> 0)%Z -> 0 < t).
  { intros Hk0. apply (Qmult_lt_r _ _ (inject_Z nb) Nb).
    assert (0 < inject_Z k) by (change 0 with (inject_Z 0); rewrite <- Zlt_Qlt; lia).
    lra. }
  assert (Tz : k = 0%Z -> t == 0).
  { intros ->. assert (Nz : ~ inject_Z nb == 0) by lra.
    apply (Qmult_inj_r _ _ (inject_Z nb) Nz). rewrite T.
    change (inject_Z 0) with 0. ring. }
  pose proof (Half _ eq_refl) as Hh.
  unfold new_location.
  destruct (Z.even nb) eqn:Ev; unfold new_location_even, new_location_odd;
    destruct (Z.eqb_spec k 0) as [Hk0 | Hk0];
    try (specialize (Tz Hk0); cbn [shr_record_of_loc shr_m shr_r shr_s inb]; lra);
    specialize (Tpos Hk0).
  - destruct (Z.compare (2 * k) nb);
      cbn [shr_record_of_loc shr_m shr_r shr_s inb]; lra.
  - (* an odd number of steps has no middle *)
    assert (Hodd : (2 * k <> nb)%Z).
    { intros E. rewrite <- E in Ev. rewrite Z.even_mul in Ev. discriminate. }
    destruct (Z.compare_spec (2 * k + 1) nb) as [E | L | G];
      cbn [shr_record_of_loc shr_m shr_r shr_s inb].
    + assert (C : (2 * k ?= nb)%Z = Lt) by (apply Z.compare_lt_iff; lia).
      rewrite C in Hh. lra.
    + assert (C : (2 * k ?= nb)%Z = Lt) by (apply Z.compare_lt_iff; lia).
      rewrite C in Hh. lra.
    + assert (C : (2 * k ?= nb)%Z = Gt) by (apply Z.compare_gt_iff; lia).
      rewrite C in Hh. lra.
Qed.

End Division.

(** *** Floats of both signs *)

Section SignedCompare.
Local Open Scope Q_scope.

Lemma nonneg_valid_finite (z : spec_float) : nonneg_valid z -> finite_valid z.
Proof. destruct z as [| | | [|] m e]; simpl; auto. Qed.

Lemma mantissa_pos (m : positive) (e : Z) : 0 < inject_Z (Zpos m) * pow2 e.
Proof.
  pose proof (pow2_pos e).
  assert (0 < inject_Z (Zpos m)) by (change 0 with (inject_Z 0); rewrite <- Zlt_Qlt; lia).
  apply Qmult_lt_0_compat; assumption.
Qed.

Lemma B2Q_finite (s : bool) (m : positive) (e : Z) :
  B2Q (S754_finite s m e)
  == (if s then -1 else 1) * (inject_Z (Zpos m) * pow2 e).
Proof. simpl. ring. Qed.

Lemma B2Q_opp (z : spec_float) : B2Q (SFopp z) == - B2Q z.
Proof. destruct z as [s | s | | [|] m e]; simpl; ring. Qed.

Lemma magnitude_compare (m1 m2 : positive) (e1 e2 : Z) :
  bounded 53 1024 m1 e1 = true -> bounded 53 1024 m2 e2 = true ->
  match Z.compare e1 e2 with
  | Lt => Lt
  | Gt => Gt
  | Eq => Pos.compare_cont Eq m1 m2
  end = Qcompare (inject_Z (Zpos m1) * pow2 e1) (inject_Z (Zpos m2) * pow2 e2).
Proof.
  intros B1 B2. pose proof (SFcompare_finite m1 m2 e1 e2 B1 B2) as H.
  cbn [SFcompare] in H. injection H as H. exact H.
Qed.

Lemma SFcompare_negative (m1 m2 : positive) (e1 e2 : Z) :
  bounded 53 1024 m1 e1 = true -> bounded 53 1024 m2 e2 = true ->
  SFcompare (S754_finite true m1 e1) (S754_finite true m2 e2)
  = Some (Qcompare (inject_Z (Zpos m2) * pow2 e2) (inject_Z (Zpos m1) * pow2 e1)).
Proof.
  intros B1 B2. cbn [SFcompare]. f_equal.
  rewrite <- (magnitude_compare m2 m1 e2 e1 B2 B1).
  rewrite (Z.compare_antisym e1 e2).
  destruct (Z.compare e1 e2); simpl; try reflexivity.
  change (Pos.compare_cont Eq m1 m2) with (Pos.compare m1 m2).
  change (Pos.compare_cont Eq m2 m1) with (Pos.compare m2 m1).
  rewrite (Pos.compare_antisym m1 m2). reflexivity.
Qed.

(** On finite floats [SFleb] is the order of the values. *)
Lemma SFleb_value (a b : spec_float) :
  finite_valid a -> finite_valid b ->
  (SFleb a b = true <-> B2Q a <= B2Q b).
Proof.
  intros Va Vb. unfold SFleb.
  destruct a as [sa | sa | | sa ma ea]; try contradiction;
    destruct b as [sb | sb | | sb mb eb]; try contradiction.
  - simpl. split; [lra | reflexivity].
  - pose proof (mantissa_pos mb eb). rewrite B2Q_finite. cbn [SFcompare B2Q].
    destruct sb; split; intros; try reflexivity; try discriminate; lra.
  - pose proof (mantissa_pos ma ea). rewrite B2Q_finite. cbn [SFcompare B2Q].
    destruct sa; split; intros; try reflexivity; try discriminate; lra.
  - simpl in Va, Vb.
    pose proof (mantissa_pos ma ea). pose proof (mantissa_pos mb eb).
    rewrite !B2Q_finite.
    destruct sa, sb.
    + rewrite (SFcompare_negative _ _ _ _ Va Vb).
      destruct (Qcompare_spec (inject_Z (Zpos mb) * pow2 eb) (inject_Z (Zpos ma) * pow2 ea));
        split; intros; try reflexivity; try discriminate; lra.
    + cbn [SFcompare]. split; intros; try reflexivity; lra.
    + cbn [SFcompare]. split; intros; try discriminate; lra.
    + rewrite (SFcompare_finite _ _ _ _ Va Vb).
      destruct (Qcompare_spec (inject_Z (Zpos ma) * pow2 ea) (inject_Z (Zpos mb) * pow2 eb));
        split; intros; try reflexivity; try discriminate; lra.
Qed.

(** A canonical float is at most the largest float in absolute value. *)
Lemma bounded_le_max (m : positive) (e : Z) :
  bounded 53 1024 m e = true -> inject_Z (Zpos m) * pow2 e <= max_value.
Proof.
  intros B. destruct (bounded_elim _ _ B) as [C He]. rewrite fexp64 in C.
  pose proof (Zdigits2_bounds (Zpos m) eq_refl) as [_ Hhi].
  pose proof (Zdigits2_pos (Zpos m) eq_refl) as Hd.
  assert (Hd53 : (Zdigits2 (Zpos m) <= 53)%Z) by lia.
  assert (Hm : (Zpos m <= 9007199254740991)%Z).
  { assert (2 ^ Zdigits2 (Zpos m) <= 2 ^ 53)%Z by (apply Z.pow_le_mono_r; lia).
    change (2 ^ 53)%Z with 9007199254740992%Z in *. lia. }
  unfold max_value. rewrite Zle_Qle in Hm.
  pose proof (pow2_pos e). pose proof (pow2_le e 971 He).
  assert (0 <= inject_Z (Zpos m))
    by (change 0 with (inject_Z 0); rewrite <- Zle_Qle; lia).
  apply Qle_trans with (inject_Z (Zpos m) * pow2 971).
  - rewrite (Qmult_comm _ (pow2 e)), (Qmult_comm _ (pow2 971)).
    apply Qmult_le_compat_r; lra.
  - apply Qmult_le_compat_r; lra.
Qed.

End SignedCompare.

(** *** The integer division behind [SFdiv] *)

Section Division2.

(** [SFdiv_core_binary] divides the shifted mantissa by the divisor. *)
Lemma div_core_Z (m1 m2 : positive) (e1 e2 : Z) (q e' : Z) (l : location) :
  SFdiv_core_binary 53 1024 (Zpos m1) e1 (Zpos m2) e2 = (q, e', l) ->
  exists s r,
    0 <= s /\ e' = e1 - e2 - s /\
    e' = Z.min (fexp 53 1024 (Zdigits2 (Zpos m1) + e1 - (Zdigits2 (Zpos m2) + e2))) (e1 - e2) /\
    Zpos m1 * 2 ^ s = Zpos m2 * q + r /\ 0 <= r < Zpos m2 /\
    l = new_location (Zpos m2) r.
Proof.
  unfold SFdiv_core_binary.
  set (d1 := Zdigits2 (Zpos m1)). set (d2 := Zdigits2 (Zpos m2)).
  set (e0 := Z.min (fexp 53 1024 (d1 + e1 - (d2 + e2))) (e1 - e2)).
  set (s := e1 - e2 - e0).
  assert (Hs : 0 <= s) by (unfold s, e0; lia).
  set (m' := match s with Z0 => Zpos m1 | Zpos _ => Z.shiftl (Zpos m1) s | Zneg _ => 0 end).
  assert (Hm' : m' = Zpos m1 * 2 ^ s).
  { unfold m'. destruct s as [| p | p] eqn:Es.
    - simpl. lia.
    - rewrite Z.shiftl_mul_pow2 by lia. reflexivity.
    - lia. }
  clearbody m'.
  pose proof (Z_div_mod m' (Zpos m2) eq_refl) as Hdm.
  destruct (Z.div_eucl m' (Zpos m2)) as [q0 r0].
  intros H. injection H as <- <- <-.
  exists s, r0. destruct Hdm as [Hdm Hr].
  repeat split; try lia.
Qed.

Local Open Scope Q_scope.

(** Its result stands for the exact quotient and has enough digits to be
    rounded once. *)
Lemma div_core_spec (m1 m2 : positive) (e1 e2 : Z) (q e' : Z) (l : location) :
  SFdiv_core_binary 53 1024 (Zpos m1) e1 (Zpos m2) e2 = (q, e', l) ->
  exists u : Q,
    (0 <= q)%Z /\
    inb_rec (shr_record_of_loc q l) u /\
    u * pow2 e' * (inject_Z (Zpos m2) * pow2 e2) == inject_Z (Zpos m1) * pow2 e1 /\
    (e' <= fexp 53 1024 (Zdigits2 q + e'))%Z /\
    (e' <= e1 - e2)%Z /\
    ((0 < q)%Z ->
     (Zdigits2 q + e' <= Zdigits2 (Zpos m1) + e1 - (Zdigits2 (Zpos m2) + e2) + 1)%Z).
Proof.
  intros H. destruct (div_core_Z _ _ _ _ _ _ _ H) as (s & r & Hs & He' & Hmin & Hdiv & Hr & ->).
  set (d1 := Zdigits2 (Zpos m1)) in *. set (d2 := Zdigits2 (Zpos m2)) in *.
  pose proof (Zdigits2_bounds (Zpos m1) eq_refl) as B1. fold d1 in B1.
  pose proof (Zdigits2_bounds (Zpos m2) eq_refl) as B2. fold d2 in B2.
  pose proof (Zdigits2_pos (Zpos m1) eq_refl) as P1. fold d1 in P1.
  pose proof (Zdigits2_pos (Zpos m2) eq_refl) as P2. fold d2 in P2.
  assert (Hq : (0 <= q)%Z) by nia.
  assert (Pw : (0 < 2 ^ s)%Z) by (apply Z.pow_pos_nonneg; lia).
  exists (inject_Z q + inject_Z r / inject_Z (Zpos m2)).
  split; [exact Hq |]. split; [apply new_location_spec; lia |].
  split; [| split; [| split; [lia |]]].
  - assert (N2 : 0 < inject_Z (Zpos m2))
      by (change 0 with (inject_Z 0); rewrite <- Zlt_Qlt; lia).
    assert (E : (inject_Z q + inject_Z r / inject_Z (Zpos m2)) * inject_Z (Zpos m2)
                == inject_Z (Zpos m1) * pow2 s).
    { rewrite <- pow2_Z by lia. rewrite <- inject_Z_mult. rewrite Hdiv.
      rewrite inject_Z_plus, inject_Z_mult. field. lra. }
    assert (P : pow2 e1 == pow2 s * pow2 e' * pow2 e2).
    { rewrite <- !pow2_add. replace (s + e' + e2)%Z with e1 by lia. reflexivity. }
    rewrite P.
    transitivity ((inject_Z q + inject_Z r / inject_Z (Zpos m2)) * inject_Z (Zpos m2)
                  * (pow2 e' * pow2 e2)); [ring |].
    rewrite E. ring.
  - (* the quotient has enough digits *)
    rewrite fexp64. rewrite fexp64 in Hmin.
    destruct (Z_le_gt_dec e' (-1074)) as [Hlow | Hhigh]; [lia |].
    assert (Hs53 : (53 <= d1 + s - d2)%Z) by lia.
    assert (Hlow : (2 ^ (d1 + s - d2 - 1) <= q)%Z).
    { assert (L1 : (2 ^ (d1 + s - d2 - 1) * 2 ^ d2 <= Zpos m1 * 2 ^ s)%Z).
      { rewrite <- Z.pow_add_r by lia.
        replace (d1 + s - d2 - 1 + d2)%Z with ((d1 - 1) + s)%Z by lia.
        rewrite Z.pow_add_r by lia. nia. }
      assert (P0 : (0 < 2 ^ (d1 + s - d2 - 1))%Z) by (apply Z.pow_pos_nonneg; lia).
      nia. }
    assert (Hq0 : (0 < q)%Z).
    { assert (P0 : (0 < 2 ^ (d1 + s - d2 - 1))%Z) by (apply Z.pow_pos_nonneg; lia). lia. }
    pose proof (Zdigits2_bounds q Hq0) as Bq.
    assert ((d1 + s - d2 - 1 < Zdigits2 q)%Z).
    { apply (Z.pow_lt_mono_r_iff 2); [lia | apply Zdigits2_nonneg | lia]. }
    lia.
  - intros Hq0. pose proof (Zdigits2_bounds q Hq0) as Bq.
    pose proof (Zdigits2_pos q Hq0) as Pq.
    assert (L : (2 ^ (Zdigits2 q - 1) * 2 ^ (d2 - 1) < 2 ^ (d1 + s))%Z).
    { rewrite (Z.pow_add_r 2 d1 s) by lia.
      assert (P0 : (0 < 2 ^ (Zdigits2 q - 1))%Z) by (apply Z.pow_pos_nonneg; lia).
      assert (P3 : (0 < 2 ^ (d2 - 1))%Z) by (apply Z.pow_pos_nonneg; lia).
      nia. }
    rewrite <- Z.pow_add_r in L by lia.
    apply Z.pow_lt_mono_r_iff in L; lia.
Qed.

End Division2.

(** *** Rounding of signed values *)

Section Operations.

Lemma sqrt_2_value :
  math_sqrt float_2 = S754_finite false 6369051672525773 (-52).
Proof. vm_compute. reflexivity. Qed.

Lemma iter_xO_value (m d : positive) :
  Zpos (Pos.iter xO m d) = Zpos m * 2 ^ Zpos d.
Proof.
  induction d as [| d IH] using Pos.peano_ind.
  - simpl. lia.
  - rewrite Pos.iter_succ. rewrite Pos2Z.inj_xO, IH.
    rewrite Pos2Z.inj_succ, Z.pow_succ_r by lia. lia.
Qed.

Lemma shl_align_spec (m : positive) (e e' : Z) :
  (e' <= e -> Zpos (fst (shl_align m e e')) = Zpos m * 2 ^ (e - e')
              /\ snd (shl_align m e e') = e') /\
  (e <= e' -> shl_align m e e' = (m, e)).
Proof.
  unfold shl_align. destruct (e' - e) as [| p | p] eqn:E; cbn [fst snd].
  - split; intros H; [| reflexivity].
    replace (e - e') with 0 by lia. split; lia.
  - split; intros H; [lia | reflexivity].
  - split; intros H; [| lia].
    rewrite iter_xO_value. replace (e - e') with (Zpos p) by lia. split; reflexivity.
Qed.

Lemma Zdigits2_shift (m k : Z) :
  0 < m -> 0 <= k -> Zdigits2 (m * 2 ^ k) = Zdigits2 m + k.
Proof.
  intros Hm Hk. pose proof (Zdigits2_bounds m Hm) as B.
  pose proof (Zdigits2_pos m Hm) as P.
  assert (Pk : 0 < 2 ^ k) by (apply Z.pow_pos_nonneg; lia).
  apply Zdigits2_unique; [| nia].
  replace (Zdigits2 m + k - 1) with ((Zdigits2 m - 1) + k) by lia.
  rewrite !Z.pow_add_r by lia. nia.
Qed.

(** The sign given to [binary_round_aux] only signs the result. *)
Lemma binary_round_aux_sign (m e : Z) (l : location) :
  binary_round_aux 53 1024 true m e l
  = SFopp (binary_round_aux 53 1024 false m e l).
Proof.
  unfold binary_round_aux.
  destruct (shr_fexp 53 1024 m e l) as [mrs1 e1].
  destruct (shr_fexp 53 1024 _ e1 loc_Exact) as [mrs2 e2].
  destruct (shr_m mrs2) as [| p | p]; try reflexivity.
  destruct (e2 <=? 1024 - 53); reflexivity.
Qed.

Local Open Scope Q_scope.

Lemma round_aux_signed (s : bool) (m e : Z) (l : location) (u : Q) :
  (0 <= m)%Z -> inb_rec (shr_record_of_loc m l) u ->
  (e <= fexp 53 1024 (Zdigits2 m + e))%Z -> u * pow2 e <= max_value ->
  finite_valid (binary_round_aux 53 1024 s m e l) /\
  B2Q (binary_round_aux 53 1024 s m e l)
  == sign_factor s * B2Q (binary_round_aux 53 1024 false m e l).
Proof.
  intros Hm Hin HP Hov.
  destruct (round_aux_spec m e l u Hm Hin HP Hov) as [V _].
  destruct s.
  - rewrite binary_round_aux_sign. split.
    + destruct (binary_round_aux 53 1024 false m e l) as [| | | [|] p q];
        simpl in *; auto.
    + rewrite B2Q_opp. unfold sign_factor. ring.
  - split; [apply nonneg_valid_finite; exact V | unfold sign_factor; ring].
Qed.

(** The rounding of a value that is at most 0 is 0. *)
Lemma round_aux_of_zero (m e : Z) (l : location) (u : Q) :
  (0 <= m)%Z -> inb_rec (shr_record_of_loc m l) u ->
  (e <= fexp 53 1024 (Zdigits2 m + e))%Z ->
  u * pow2 e <= 0 ->
  B2Q (binary_round_aux 53 1024 false m e l) == 0.
Proof.
  intros Hm Hin HP Hz.
  assert (Hov : u * pow2 e <= max_value).
  { assert (0 < max_value) by reflexivity. lra. }
  destruct (round_aux_spec m e l u Hm Hin HP Hov) as [V _].
  pose proof (B2Q_nonneg _ V) as N.
  assert (L : B2Q (binary_round_aux 53 1024 false m e l)
              <= B2Q (binary_round_aux 53 1024 false 0 (-1074) loc_Exact)).
  { apply (round_aux_mono m e l u 0 (-1074) loc_Exact 0); try assumption.
    - lia.
    - reflexivity.
    - vm_compute. discriminate.
    - vm_compute. discriminate.
    - lra. }
  change (B2Q (binary_round_aux 53 1024 false 0 (-1074) loc_Exact)) with 0 in L.
  lra.
Qed.

Lemma rounds_from_valid (z : spec_float) (v : Q) : rounds_from z v -> finite_valid z.
Proof. intros [H _]. exact H. Qed.

(** Rounding is monotone. *)
Lemma rounds_from_mono (z z' : spec_float) (v v' : Q) :
  rounds_from z v -> rounds_from z' v' -> v <= v' -> B2Q z <= B2Q z'.
Proof.
  intros (_ & s & m & e & l & u & Hm & Hin & HP & Hov & Hz & Hv)
         (_ & s' & m' & e' & l' & u' & Hm' & Hin' & HP' & Hov' & Hz' & Hv') Hle.
  rewrite Hz, Hz'.
  destruct (round_aux_signed s m e l u Hm Hin HP Hov) as [_ ->].
  destruct (round_aux_signed s' m' e' l' u' Hm' Hin' HP' Hov') as [_ ->].
  destruct (round_aux_spec m e l u Hm Hin HP Hov) as [V _].
  destruct (round_aux_spec m' e' l' u' Hm' Hin' HP' Hov') as [V' _].
  pose proof (B2Q_nonneg _ V) as N. pose proof (B2Q_nonneg _ V') as N'.
  destruct (input_value_bounds m e l u Hm Hin HP) as (U0 & _).
  destruct (input_value_bounds m' e' l' u' Hm' Hin' HP') as (U0' & _).
  unfold sign_factor in *.
  destruct s, s'.
  - assert (B2Q (binary_round_aux 53 1024 false m' e' l')
            <= B2Q (binary_round_aux 53 1024 false m e l)).
    { apply (round_aux_mono m' e' l' u' m e l u); try assumption. lra. }
    lra.
  - lra.
  - assert (Z1 : B2Q (binary_round_aux 53 1024 false m e l) == 0)
      by (apply (round_aux_of_zero m e l u); try assumption; lra).
    assert (Z2 : B2Q (binary_round_aux 53 1024 false m' e' l') == 0)
      by (apply (round_aux_of_zero m' e' l' u'); try assumption; lra).
    lra.
  - assert (B2Q (binary_round_aux 53 1024 false m e l)
            <= B2Q (binary_round_aux 53 1024 false m' e' l')).
    { apply (round_aux_mono m e l u m' e' l' u'); try assumption. lra. }
    lra.
Qed.

Lemma rounds_from_aux (s : bool) (m e : Z) (l : location) (u v : Q) :
  (0 <= m)%Z -> inb_rec (shr_record_of_loc m l) u ->
  (e <= fexp 53 1024 (Zdigits2 m + e))%Z -> u * pow2 e <= max_value ->
  sign_factor s * (u * pow2 e) == v ->
  rounds_from (binary_round_aux 53 1024 s m e l) v.
Proof.
  intros Hm Hin HP Hov Hv. split.
  - apply (round_aux_signed s m e l u); assumption.
  - exists s, m, e, l, u.
    split; [exact Hm |]. split; [exact Hin |]. split; [exact HP |].
    split; [exact Hov |]. split; [reflexivity | exact Hv].
Qed.

Lemma rounds_from_zero (s : bool) (v : Q) : v == 0 -> rounds_from (S754_zero s) v.
Proof.
  intros Hv. split; [exact I |].
  exists false, 0%Z, (-1074)%Z, loc_Exact, 0.
  split; [lia |]. split; [reflexivity |]. split; [vm_compute; discriminate |].
  split; [vm_compute; discriminate |]. split; [reflexivity |].
  rewrite Hv. unfold sign_factor. ring.
Qed.

Lemma rounds_from_one (v : Q) : v == 1 -> rounds_from float_1 v.
Proof.
  intros Hv. split; [reflexivity |].
  exists false, 4503599627370496%Z, (-52)%Z, loc_Exact, (inject_Z 4503599627370496).
  split; [lia |]. split; [reflexivity |]. split; [vm_compute; discriminate |].
  split; [vm_compute; discriminate |]. split; [reflexivity |].
  rewrite Hv. reflexivity.
Qed.

End Operations.

(** *** The division and the subtraction of [relevance_score_fn] *)

Section Steps.
Local Open Scope Q_scope.

Lemma B2Q_sqrt_2_bounds : 1 < B2Q (math_sqrt float_2) /\ B2Q (math_sqrt float_2) < 2.
Proof. rewrite sqrt_2_value. split; reflexivity. Qed.

Lemma B2Q_float_1 : B2Q float_1 == 1.
Proof. reflexivity. Qed.

Lemma B2Q_float_max : B2Q float_max == max_value.
Proof. unfold float_max, max_value. rewrite B2Q_finite. ring. Qed.

Lemma finite_valid_abs (z : spec_float) :
  finite_valid z -> - max_value <= B2Q z /\ B2Q z <= max_value.
Proof.
  intros V. assert (M : 0 < max_value) by reflexivity.
  destruct z as [s | s | | s m e]; try contradiction.
  - simpl. lra.
  - simpl in V. pose proof (bounded_le_max m e V). pose proof (mantissa_pos m e).
    rewrite B2Q_finite. destruct s; lra.
Qed.

(** The quotient of a finite float by [math.sqrt(2)] is the rounding of
    the quotient of the values. *)
Lemma SFdiv_sqrt_2 (x : spec_float) :
  finite_valid x ->
  rounds_from (SFdiv 53 1024 x (math_sqrt float_2)) (B2Q x / B2Q (math_sqrt float_2)).
Proof.
  intros Vx. pose proof B2Q_sqrt_2_bounds as [Hc1 Hc2].
  revert Hc1 Hc2. rewrite sqrt_2_value. intros Hc1 Hc2.
  set (C := B2Q (S754_finite false 6369051672525773 (-52))) in *.
  assert (HC : C == inject_Z (Zpos 6369051672525773) * pow2 (-52))
    by (unfold C; rewrite B2Q_finite; ring).
  assert (N : ~ C == 0) by lra.
  destruct x as [s | s | | s m e]; try contradiction.
  - cbn [SFdiv]. apply rounds_from_zero. cbn [B2Q]. field. lra.
  - simpl in Vx. pose proof (bounded_le_max m e Vx) as Hmax.
    pose proof (mantissa_pos m e) as Hpos.
    cbn [SFdiv].
    assert (Hs : xorb s false = s) by (destruct s; reflexivity). rewrite Hs.
    destruct (SFdiv_core_binary 53 1024 (Zpos m) e (Zpos 6369051672525773) (-52))
      as [[q e'] l] eqn:Hcore.
    destruct (div_core_spec _ _ _ _ _ _ _ Hcore) as (u & Hq & Hin & Hval & HP & He' & Hdig).
    rewrite <- HC in Hval.
    assert (Hu : u * pow2 e' == inject_Z (Zpos m) * pow2 e / C).
    { apply (Qmult_inj_r _ _ C N). rewrite Hval. field. exact N. }
    apply (rounds_from_aux s q e' l u); try assumption.
    + rewrite Hu.
      apply Qle_trans with (inject_Z (Zpos m) * pow2 e); [| exact Hmax].
      apply Qle_shift_div_r; [lra |].
      set (X := inject_Z (Zpos m) * pow2 e) in *. clearbody X C. nra.
    + rewrite Hu, B2Q_finite. unfold sign_factor. destruct s; field; exact N.
Qed.

(** [binary_round] rounds the value of its argument. *)
Lemma binary_round_spec (s : bool) (m : positive) (e : Z) :
  inject_Z (Zpos m) * pow2 e <= max_value ->
  rounds_from (binary_round 53 1024 s m e)
              (sign_factor s * (inject_Z (Zpos m) * pow2 e)).
Proof.
  intros Hov. unfold binary_round.
  set (E := fexp 53 1024 (Zpos (digits2_pos m) + e)).
  change (Zpos (digits2_pos m)) with (Zdigits2 (Zpos m)) in E.
  destruct (shl_align_spec m e E) as [Hshift Hsame].
  destruct (Z_lt_le_dec E e) as [Hlt | Hge].
  - destruct Hshift as [Hm He]; [lia |].
    destruct (shl_align m e E) as [mz ez'] eqn:Hal. cbn [fst snd] in Hm, He.
    subst ez'.
    assert (Hdz : (Zdigits2 (Zpos mz) = Zdigits2 (Zpos m) + (e - E))%Z).
    { rewrite Hm. apply Zdigits2_shift; lia. }
    assert (Hval : inject_Z (Zpos mz) * pow2 E == inject_Z (Zpos m) * pow2 e).
    { rewrite Hm, inject_Z_mult, pow2_Z by lia.
      assert (P : pow2 (e - E) * pow2 E == pow2 e).
      { rewrite <- pow2_add. replace (e - E + E)%Z with e by lia. reflexivity. }
      rewrite <- P. ring. }
    apply (rounds_from_aux s (Zpos mz) E loc_Exact (inject_Z (Zpos mz))).
    + lia.
    + reflexivity.
    + rewrite Hdz. replace (Zdigits2 (Zpos m) + (e - E) + E)%Z
        with (Zdigits2 (Zpos m) + e)%Z by lia. fold E. lia.
    + rewrite Hval. exact Hov.
    + rewrite Hval. reflexivity.
  - rewrite (Hsame Hge).
    apply (rounds_from_aux s (Zpos m) e loc_Exact (inject_Z (Zpos m))).
    + lia.
    + reflexivity.
    + fold E. exact Hge.
    + exact Hov.
    + reflexivity.
Qed.

(** [1.0 - q] is the rounding of the difference of the values, when it
    cannot overflow. *)
Lemma SFsub_float_1 (q : spec_float) :
  finite_valid q -> 1 - max_value <= B2Q q -> B2Q q <= max_value - 1 ->
  rounds_from (SFsub 53 1024 float_1 q) (1 - B2Q q).
Proof.
  intros Vq Hlo Hhi.
  destruct q as [s | s | | sq mq eq]; try contradiction.
  - cbn [SFsub float_1]. apply rounds_from_one. cbn [B2Q]. ring.
  - unfold float_1. cbn [SFsub cond_Zopp].
    set (ez := Z.min (-52) eq).
    destruct (shl_align_spec 4503599627370496 (-52) ez) as [[A1 _] _]; [unfold ez; lia |].
    destruct (shl_align_spec mq eq ez) as [[A2 _] _]; [unfold ez; lia |].
    rewrite A1, A2.
    set (a1 := (4503599627370496 * 2 ^ (-52 - ez))%Z).
    set (a2 := (Zpos mq * 2 ^ (eq - ez))%Z).
    assert (H1 : inject_Z a1 * pow2 ez == 1).
    { unfold a1. rewrite inject_Z_mult, pow2_Z by (unfold ez; lia).
      assert (P1 : pow2 (-52 - ez) * pow2 ez == pow2 (-52)).
      { rewrite <- pow2_add. replace (-52 - ez + ez)%Z with (-52)%Z by lia. reflexivity. }
      rewrite <- Qmult_assoc, P1. reflexivity. }
    assert (H2 : inject_Z a2 * pow2 ez == inject_Z (Zpos mq) * pow2 eq).
    { unfold a2. rewrite inject_Z_mult, pow2_Z by (unfold ez; lia).
      assert (P2 : pow2 (eq - ez) * pow2 ez == pow2 eq).
      { rewrite <- pow2_add. replace (eq - ez + ez)%Z with eq by lia. reflexivity. }
      rewrite <- Qmult_assoc, P2. reflexivity. }
    clearbody a1 a2.
    set (M := (a1 - cond_Zopp sq a2)%Z).
    assert (HM : inject_Z M * pow2 ez == 1 - B2Q (S754_finite sq mq eq)).
    { rewrite B2Q_finite. unfold M, Z.sub.
      rewrite inject_Z_plus, inject_Z_opp.
      destruct sq; cbn [cond_Zopp]; rewrite ?inject_Z_opp.
      - transitivity (inject_Z a1 * pow2 ez + inject_Z a2 * pow2 ez); [ring |].
        rewrite H1, H2. ring.
      - transitivity (inject_Z a1 * pow2 ez - inject_Z a2 * pow2 ez); [ring |].
        rewrite H1, H2. ring. }
    clearbody M.
    destruct M as [| m | m]; cbn [binary_normalize].
    + apply rounds_from_zero. rewrite <- HM. change (inject_Z 0) with 0. ring.
    + assert (R : rounds_from (binary_round 53 1024 false m ez)
                    (sign_factor false * (inject_Z (Zpos m) * pow2 ez))).
      { apply binary_round_spec. rewrite HM. lra. }
      destruct R as [V (s & m0 & e0 & l0 & u0 & R1 & R2 & R3 & R4 & R5 & R6)].
      split; [exact V |]. exists s, m0, e0, l0, u0.
      repeat (split; [assumption |]). rewrite R6, <- HM. unfold sign_factor. ring.
    + assert (HMn : inject_Z (Zpos m) * pow2 ez == B2Q (S754_finite sq mq eq) - 1).
      { rewrite <- Qopp_involutive with (q := inject_Z (Zpos m) * pow2 ez) at 1.
        change (Zneg m) with (- Zpos m)%Z in HM. rewrite inject_Z_opp in HM.
        lra. }
      assert (R : rounds_from (binary_round 53 1024 true m ez)
                    (sign_factor true * (inject_Z (Zpos m) * pow2 ez))).
      { apply binary_round_spec. rewrite HMn. lra. }
      destruct R as [V (s & m0 & e0 & l0 & u0 & R1 & R2 & R3 & R4 & R5 & R6)].
      split; [exact V |]. exists s, m0, e0, l0, u0.
      repeat (split; [assumption |]). rewrite R6, HMn. unfold sign_factor. ring.
Qed.

End Steps.

(** *** Monotonicity of [relevance_score_fn] *)

Section Score.
Local Open Scope Q_scope.

Lemma finite_valid_sqrt_2 : finite_valid (math_sqrt float_2).
Proof. rewrite sqrt_2_value. reflexivity. Qed.

Lemma quotient_le (a b c : Q) : 0 < c -> a <= b -> a / c <= b / c.
Proof.
  intros Hc Hab. unfold Qdiv. apply Qmult_le_compat_r; [exact Hab |].
  apply Qinv_le_0_compat. lra.
Qed.

Lemma SFdiv_float_max :
  B2Q (SFdiv 53 1024 float_max (math_sqrt float_2)) <= max_value - 1.
Proof. vm_compute. discriminate. Qed.

Lemma SFdiv_float_min :
  1 - max_value <= B2Q (SFdiv 53 1024 (SFopp float_max) (math_sqrt float_2)).
Proof. vm_compute. discriminate. Qed.

(** The quotient by [math.sqrt(2)] is monotone on finite floats, and
    leaves room for adding 1. *)
Lemma SFdiv_sqrt_2_mono (x y : spec_float) :
  finite_valid x -> finite_valid y -> B2Q x <= B2Q y ->
  B2Q (SFdiv 53 1024 x (math_sqrt float_2))
  <= B2Q (SFdiv 53 1024 y (math_sqrt float_2)).
Proof.
  intros Vx Vy Hxy. destruct B2Q_sqrt_2_bounds as [C1 C2].
  apply (rounds_from_mono _ _ _ _ (SFdiv_sqrt_2 x Vx) (SFdiv_sqrt_2 y Vy)).
  apply quotient_le; lra.
Qed.

Lemma SFdiv_sqrt_2_range (x : spec_float) :
  finite_valid x ->
  finite_valid (SFdiv 53 1024 x (math_sqrt float_2)) /\
  1 - max_value <= B2Q (SFdiv 53 1024 x (math_sqrt float_2)) /\
  B2Q (SFdiv 53 1024 x (math_sqrt float_2)) <= max_value - 1.
Proof.
  intros Vx. destruct (finite_valid_abs x Vx) as [Hlo Hhi].
  split; [exact (rounds_from_valid _ _ (SFdiv_sqrt_2 x Vx)) |]. split.
  - apply Qle_trans with (1 := SFdiv_float_min).
    apply SFdiv_sqrt_2_mono; [reflexivity | exact Vx |].
    rewrite B2Q_opp, B2Q_float_max. exact Hlo.
  - apply Qle_trans with (2 := SFdiv_float_max).
    apply SFdiv_sqrt_2_mono; [exact Vx | reflexivity |].
    rewrite B2Q_float_max. exact Hhi.
Qed.

(** On finite floats [relevance_score_fn] is finite and non-increasing. *)
Lemma relevance_score_fn_finite (x : spec_float) :
  finite_valid x ->
  rounds_from (relevance_score_fn x)
              (1 - B2Q (SFdiv 53 1024 x (math_sqrt float_2))).
Proof.
  intros Vx. destruct (SFdiv_sqrt_2_range x Vx) as (V & Hlo & Hhi).
  unfold relevance_score_fn. apply SFsub_float_1; assumption.
Qed.

Lemma relevance_score_fn_finite_order (x y : spec_float) :
  finite_valid x -> finite_valid y -> B2Q x <= B2Q y ->
  B2Q (relevance_score_fn y) <= B2Q (relevance_score_fn x).
Proof.
  intros Vx Vy Hxy.
  pose proof (SFdiv_sqrt_2_mono x y Vx Vy Hxy) as Hq.
  apply (rounds_from_mono _ _ _ _
           (relevance_score_fn_finite y Vy) (relevance_score_fn_finite x Vx)).
  lra.
Qed.

Lemma relevance_score_fn_minus_infinity :
  relevance_score_fn (S754_infinity true) = S754_infinity false.
Proof. vm_compute. reflexivity. Qed.

Lemma relevance_score_fn_plus_infinity :
  relevance_score_fn (S754_infinity false) = S754_infinity true.
Proof. vm_compute. reflexivity. Qed.

Lemma SFleb_plus_infinity (z : spec_float) :
  finite_valid z -> SFleb z (S754_infinity false) = true.
Proof. destruct z as [| | | s m e]; try contradiction; reflexivity. Qed.

Lemma SFleb_minus_infinity (z : spec_float) :
  finite_valid z -> SFleb (S754_infinity true) z = true.
Proof. destruct z as [| | | s m e]; try contradiction; reflexivity. Qed.

(** [relevance_score_fn] is non-increasing on all binary64 values that can
    be compared, the infinities included. *)
Lemma relevance_score_fn_order (x y : spec_float) :
  valid_binary 53 1024 x = true -> valid_binary 53 1024 y = true ->
  SFleb x y = true ->
  SFleb (relevance_score_fn y) (relevance_score_fn x) = true.
Proof.
  intros Vx Vy Hxy.
  assert (Fin : forall z, valid_binary 53 1024 z = true ->
                  match z with S754_zero _ | S754_finite _ _ _ => finite_valid z
                  | _ => True end).
  { intros [| | | s m e] Hz; try exact I. exact Hz. }
  pose proof (Fin x Vx) as Fx. pose proof (Fin y Vy) as Fy.
  assert (Both : finite_valid x -> finite_valid y ->
                 SFleb (relevance_score_fn y) (relevance_score_fn x) = true).
  { intros Fx' Fy'.
    apply SFleb_value;
      [exact (rounds_from_valid _ _ (relevance_score_fn_finite y Fy'))
      | exact (rounds_from_valid _ _ (relevance_score_fn_finite x Fx')) |].
    apply relevance_score_fn_finite_order; try assumption.
    apply SFleb_value; assumption. }
  assert (Left : finite_valid y ->
                 SFleb (relevance_score_fn y) (relevance_score_fn (S754_infinity true)) = true).
  { intros Fy'. rewrite relevance_score_fn_minus_infinity.
    apply SFleb_plus_infinity.
    exact (rounds_from_valid _ _ (relevance_score_fn_finite y Fy')). }
  assert (Right : finite_valid x ->
                  SFleb (relevance_score_fn (S754_infinity false)) (relevance_score_fn x) = true).
  { intros Fx'. rewrite relevance_score_fn_plus_infinity.
    apply SFleb_minus_infinity.
    exact (rounds_from_valid _ _ (relevance_score_fn_finite x Fx')). }
  destruct x as [sx | [|] | | sx mx ex]; destruct y as [sy | [|] | | sy my ey];
    try discriminate Hxy;
    try (apply Both; assumption);
    try (apply Left; assumption);
    try (apply Right; assumption);
    try (vm_compute; reflexivity).
Qed.

End Score.

(** *** Accuracy of [relevance_score_fn] on scores *)

Section Accuracy.
Local Open Scope Q_scope.

(** Rounding to the nearest integer moves a number by at most one half. *)
Lemma RNE_error (u : Q) :
  u - (1 # 2) <= inject_Z (RNE u) /\ inject_Z (RNE u) <= u + (1 # 2).
Proof.
  unfold RNE. pose proof (Qfloor_le u) as Hlo. pose proof (Qlt_floor u) as Hhi.
  rewrite inject_Z_plus in Hhi. change (inject_Z 1) with 1 in Hhi.
  destruct (Qcompare_spec (u - inject_Z (Qfloor u)) (1 # 2)) as [E | L | G].
  - destruct (Z.even (Qfloor u)).
    + lra.
    + rewrite inject_Z_plus. change (inject_Z 1) with 1. lra.
  - lra.
  - rewrite inject_Z_plus. change (inject_Z 1) with 1. lra.
Qed.

(** A rounded value between -1 and 1 is within [2^-53] of the exact one. *)
Lemma rounds_from_error (z : spec_float) (v : Q) :
  rounds_from z v -> -1 <= v -> v <= 1 ->
  v - pow2 (-53) <= B2Q z /\ B2Q z <= v + pow2 (-53).
Proof.
  intros (_ & s & m & e & l & u & Hm & Hin & HP & Hov & Hz & Hv) Hlo Hhi.
  destruct (round_aux_signed s m e l u Hm Hin HP Hov) as [_ Hs].
  destruct (round_aux_spec m e l u Hm Hin HP Hov) as [_ Hr].
  destruct (input_value_bounds m e l u Hm Hin HP) as (U0 & Vpos & Vzero).
  rewrite Hz, Hs, Hr. clear Hz Hs Hr.
  set (D := (Zdigits2 m + e)%Z) in *. set (E := fexp 53 1024 D) in *.
  assert (HE : E = Z.max (D - 53) (-1074)) by reflexivity.
  set (w := u * pow2 e) in *.
  assert (Hw : w <= 1) by (unfold sign_factor in Hv; destruct s; lra).
  assert (HE52 : (E <= -52)%Z).
  { destruct (Z_lt_le_dec 0 m) as [Hmpos | Hm0].
    - destruct (Vpos Hmpos) as [Vlo _].
      destruct (Z_le_gt_dec D 1) as [Hle | Hgt]; [lia | exfalso].
      assert (pow2 1 <= pow2 (D - 1)) by (apply pow2_le; lia).
      change (pow2 1) with 2 in *. lra.
    - assert (m = 0%Z) by lia. subst m.
      destruct (Vzero eq_refl) as [_ He]. subst D. simpl in HE. lia. }
  assert (T : u * pow2 (e - E) * pow2 E == w).
  { unfold w. rewrite <- Qmult_assoc, <- pow2_add.
    replace (e - E + E)%Z with e by lia. reflexivity. }
  destruct (RNE_error (u * pow2 (e - E))) as [R1 R2].
  set (t := u * pow2 (e - E)) in *. set (r := inject_Z (RNE t)) in *.
  pose proof (pow2_pos E) as PE.
  assert (Half : pow2 E <= 2 * pow2 (-53)).
  { rewrite <- pow2_succ. apply pow2_le. lia. }
  assert (B1 : (t - (1 # 2)) * pow2 E <= r * pow2 E)
    by (apply Qmult_le_compat_r; lra).
  assert (B2 : r * pow2 E <= (t + (1 # 2)) * pow2 E)
    by (apply Qmult_le_compat_r; lra).
  clearbody t r w. unfold sign_factor in *.
  destruct s; split; nra.
Qed.

(** The binary64 square root of 2 is the float just above the real one. *)
Lemma math_sqrt_2_accuracy :
  (B2Q (math_sqrt float_2) - pow2 (-52)) * (B2Q (math_sqrt float_2) - pow2 (-52)) < 2 /\
  2 < B2Q (math_sqrt float_2) * B2Q (math_sqrt float_2).
Proof. rewrite sqrt_2_value. split; reflexivity. Qed.

Lemma SFdiv_sqrt_2_self :
  SFdiv 53 1024 (math_sqrt float_2) (math_sqrt float_2) = float_1.
Proof. vm_compute. reflexivity. Qed.

(** On scores the result is within [2^-52] of [1 - score / c], where [c]
    is the value of [math.sqrt(2)]. *)
Lemma relevance_score_fn_accuracy (score : spec_float) :
  is_score score = true ->
  1 - B2Q score / B2Q (math_sqrt float_2) - pow2 (-52)
    <= B2Q (relevance_score_fn score) /\
  B2Q (relevance_score_fn score)
    <= 1 - B2Q score / B2Q (math_sqrt float_2) + pow2 (-52).
Proof.
  intros Hs. unfold is_score in Hs.
  apply andb_true_iff in Hs. destruct Hs as [Hs Hle].
  apply andb_true_iff in Hs. destruct Hs as [Hv H0].
  assert (V : finite_valid score).
  { destruct score as [s | [|] | | s m e]; try exact I; try discriminate H0.
    - revert Hle. rewrite sqrt_2_value. discriminate.
    - exact Hv. }
  apply (SFleb_value float_0 score I V) in H0.
  apply (SFleb_value score (math_sqrt float_2) V finite_valid_sqrt_2) in Hle.
  change (B2Q float_0) with 0 in H0.
  destruct B2Q_sqrt_2_bounds as [C1 C2].
  set (C := B2Q (math_sqrt float_2)) in *. set (X := B2Q score) in *.
  pose proof (SFdiv_sqrt_2 score V) as Dq. fold C X in Dq.
  pose proof (relevance_score_fn_finite score V) as Df.
  set (q := B2Q (SFdiv 53 1024 score (math_sqrt float_2))) in *.
  assert (Q0 : 0 <= X / C).
  { apply Qle_shift_div_l; lra. }
  assert (Q1 : X / C <= 1).
  { apply Qle_shift_div_r; lra. }
  destruct (rounds_from_error _ _ Dq) as [E1 E2]; [lra | lra |]. fold q in E1, E2.
  (* the quotient itself stays between 0 and 1 *)
  assert (Hq0 : 0 <= q).
  { pose proof (SFdiv_sqrt_2_mono float_0 score I V) as M. fold q in M.
    apply M. exact H0. }
  assert (Hq1 : q <= 1).
  { pose proof (SFdiv_sqrt_2_mono score (math_sqrt float_2) V finite_valid_sqrt_2 Hle) as M.
    fold q in M. rewrite SFdiv_sqrt_2_self, B2Q_float_1 in M. exact M. }
  destruct (rounds_from_error _ _ Df) as [F1 F2]; [lra | lra |].
  assert (P : pow2 (-52) == 2 * pow2 (-53)) by reflexivity.
  rewrite P. split; lra.
Qed.

End Accuracy.

(** C9, the claim as stated fails: [0.0] and [1e-17] are two distance
    scores, the first strictly below the second, and [relevance_score_fn]
    returns [1.0] for both. So the function is not strictly decreasing, and
    its result at [1e-17] is not [1 - 1e-17/sqrt(2)], which is below 1. *)
Lemma relevance_score_fn_not_strict_counterexample :
  is_score float_0 = true /\ is_score float_1e_17 = true /\
  SFltb float_0 float_1e_17 = true /\
  relevance_score_fn float_0 = float_1 /\
  relevance_score_fn float_1e_17 = float_1 /\
  SFltb (relevance_score_fn float_1e_17) (relevance_score_fn float_0) = false.
Proof. vm_compute. repeat split. Qed.

(** C9, amended. [relevance_score_fn(score)] is the binary64 result of
    [1.0 - score / math.sqrt(2)], each operation rounded to nearest even.
    Score [0.0] maps to [1.0] and score [math.sqrt(2)] maps to [0.0]. The
    value [c] of [math.sqrt(2)] is the float just above the square root of
    2: [(c - 2^-52)^2 < 2 < c^2]. For every binary64 score with
    [0 <= score <= math.sqrt(2)] the result lies between [0.0] and [1.0]
    and is within [2^-52] of the exact value of [1 - score / c]. The
    function is non-increasing, not strictly decreasing, on all binary64
    values: [x <= y] implies that the result for [y] is at most the result
    for [x]. *)
Theorem relevance_score_fn_range_and_order :
  (relevance_score_fn float_0 = float_1 /\
   relevance_score_fn (math_sqrt float_2) = float_0) /\
  ((B2Q (math_sqrt float_2) - pow2 (-52)) * (B2Q (math_sqrt float_2) - pow2 (-52)) < 2
   /\ 2 < B2Q (math_sqrt float_2) * B2Q (math_sqrt float_2))%Q /\
  (forall score : spec_float,
      is_score score = true ->
      SFleb float_0 (relevance_score_fn score) = true /\
      SFleb (relevance_score_fn score) float_1 = true /\
      (1 - B2Q score / B2Q (math_sqrt float_2) - pow2 (-52)
         <= B2Q (relevance_score_fn score))%Q /\
      (B2Q (relevance_score_fn score)
         <= 1 - B2Q score / B2Q (math_sqrt float_2) + pow2 (-52))%Q) /\
  (forall x y : spec_float,
      valid_binary 53 1024 x = true -> valid_binary 53 1024 y = true ->
      SFleb x y = true ->
      SFleb (relevance_score_fn y) (relevance_score_fn x) = true).
Proof.
  assert (E0 : relevance_score_fn float_0 = float_1) by (vm_compute; reflexivity).
  assert (E2 : relevance_score_fn (math_sqrt float_2) = float_0)
    by (vm_compute; reflexivity).
  split; [split; assumption |]. split; [exact math_sqrt_2_accuracy |]. split.
  - intros score Hs.
    destruct (relevance_score_fn_accuracy score Hs) as [A1 A2].
    unfold is_score in Hs.
    apply andb_true_iff in Hs. destruct Hs as [Hs Hle].
    apply andb_true_iff in Hs. destruct Hs as [Hv H0].
    split; [| split; [| split; assumption]].
    + rewrite <- E2. apply relevance_score_fn_order; [exact Hv | reflexivity | exact Hle].
    + rewrite <- E0. apply relevance_score_fn_order; [reflexivity | exact Hv | exact H0].
  - exact relevance_score_fn_order.
Qed.

(** Witness of C9: the score [1e-17] and the pair [1e-17 <= 2.0]. *)
Lemma relevance_score_fn_range_and_order_witness :
  is_score float_1e_17 = true /\
  SFleb float_0 (relevance_score_fn float_1e_17) = true /\
  SFleb (relevance_score_fn float_1e_17) float_1 = true /\
  valid_binary 53 1024 float_1e_17 = true /\ valid_binary 53 1024 float_2 = true /\
  SFleb float_1e_17 float_2 = true /\
  SFleb (relevance_score_fn float_2) (relevance_score_fn float_1e_17) = true.
Proof.
  destruct relevance_score_fn_range_and_order as (_ & _ & Hrange & Horder).
  split; [vm_compute; reflexivity |].
  destruct (Hrange float_1e_17 eq_refl) as (H0 & H1 & _).
  split; [exact H0 |]. split; [exact H1 |].
  split; [vm_compute; reflexivity |]. split; [vm_compute; reflexivity |].
  split; [vm_compute; reflexivity |].
  exact (Horder float_1e_17 float_2 eq_refl eq_refl eq_refl).
Defined.


(** * More on the speaker schedule *)

Section ScheduleArithmetic.

Lemma step_parity (step : Z) : step mod 2 = 0 \/ step mod 2 = 1.
Proof. pose proof (Z.mod_pos_bound step 2). lia. Qed.

Lemma odd_half (q : Z) : (2 * q + 1) mod 2 = 1 /\ (2 * q + 1) / 2 = q.
Proof.
  split.
  - rewrite Z.add_comm, Z.mul_comm, Z_mod_plus_full. reflexivity.
  - rewrite Z.add_comm, Z.mul_comm, Z_div_plus_full by discriminate.
    reflexivity.
Qed.

Lemma odd_shape (step : Z) : step mod 2 = 1 -> step = 2 * (step / 2) + 1.
Proof. intros H. pose proof (Z.div_mod step 2). lia. Qed.

(** Among [m] consecutive integers starting at [q0], the one with
    remainder [k] modulo [m]. *)
Lemma residue_in_window (m q0 k : Z) :
  0 < m -> 0 <= k < m ->
  let q := q0 + (k - q0) mod m in
  q0 <= q < q0 + m /\ q mod m = k.
Proof.
  intros Hm Hk q. subst q.
  pose proof (Z.mod_pos_bound (k - q0) m Hm) as Hb.
  split; [lia |].
  rewrite Z.add_mod_idemp_r by lia.
  replace (q0 + (k - q0)) with k by lia.
  apply Z.mod_small. exact Hk.
Qed.

Lemma residue_unique_in_window (m q0 q q' : Z) :
  0 < m ->
  q0 <= q < q0 + m -> q0 <= q' < q0 + m ->
  q mod m = q' mod m -> q = q'.
Proof.
  intros Hm Hq Hq' E.
  pose proof (Z.div_mod q m) as D. pose proof (Z.div_mod q' m) as D'.
  assert (Hd : q - q' = m * (q / m - q' / m)) by lia.
  assert (Hz : q / m - q' / m = 0) by nia.
  rewrite Hz in Hd. lia.
Qed.

End ScheduleArithmetic.

(** X1. [select_next_speaker] raises in exactly one situation: a list of
    one agent and an odd step, where the divisor [len(agents) - 1] is zero;
    the exception is [ZeroDivisionError]. In every other case, the empty
    list included, it returns an integer. *)
Theorem select_next_speaker_raises_iff :
  forall (step : Z) (agents : list ref) (e : exn),
    select_next_speaker step agents = Raise e <->
    e = ZeroDivisionError /\ len agents = 1 /\ step mod 2 = 1.
Proof.
  intros step agents e. split.
  - intros H. destruct (step_parity step) as [He | Ho].
    + rewrite select_even in H by assumption. discriminate.
    + destruct (Z.eq_dec (len agents) 1) as [H1 | H1].
      * rewrite select_odd_alone in H by lia. now inversion H.
      * rewrite select_odd in H by lia. discriminate.
  - intros (-> & H1 & Ho). apply select_odd_alone; lia.
Qed.

(** Witness of X1: one agent, step 3. *)
Lemma select_next_speaker_raises_iff_witness :
  select_next_speaker 3 [0%nat] = Raise ZeroDivisionError.
Proof.
  apply (proj2 (select_next_speaker_raises_iff 3 [0%nat] ZeroDivisionError)).
  repeat split.
Defined.

(** X2. The schedule is periodic with period [2 * (len(agents) - 1)]:
    shifting the step by that amount does not change the outcome, for
    every step, positive or negative, and every agent list. *)
Theorem select_next_speaker_periodic :
  forall (step : Z) (agents : list ref),
    select_next_speaker (step + 2 * (len agents - 1)) agents =
    select_next_speaker step agents.
Proof.
  intros step agents. set (m := len agents - 1).
  assert (Hp : (step + 2 * m) mod 2 = step mod 2)
    by (rewrite (Z.mul_comm 2 m); apply Z_mod_plus_full).
  destruct (step_parity step) as [He | Ho].
  - rewrite !select_even; congruence.
  - destruct (Z.eq_dec m 0) as [H0 | Hm].
    + rewrite H0, Z.mul_0_r, Z.add_0_r. reflexivity.
    + rewrite !select_odd by (fold m; lia). fold m. do 2 f_equal.
      rewrite (Z.mul_comm 2 m), Z_div_plus_full by discriminate.
      rewrite <- (Z.mul_1_l m) at 1. apply Z_mod_plus_full.
Qed.

(** X3. With at least two agents, index 0 (the storyteller) is selected
    at the even steps and only there: every odd step selects one of the
    other agents, so the storyteller speaks at every second step. *)
Theorem select_next_speaker_storyteller_iff_even :
  forall (step : Z) (agents : list ref),
    2 <= len agents ->
    (select_next_speaker step agents = Return 0 <-> step mod 2 = 0).
Proof.
  intros step agents Hn. split.
  - intros H. destruct (step_parity step) as [He | Ho]; [assumption |].
    rewrite select_odd in H by lia. inversion H as [E].
    pose proof (Z.mod_pos_bound (step / 2) (len agents - 1)). lia.
  - apply select_even.
Qed.

(** Witness of X3 on four agents. *)
Lemma select_next_speaker_storyteller_iff_even_witness :
  2 <= len [0; 1; 2; 3]%nat /\
  select_next_speaker 6 [0; 1; 2; 3]%nat = Return 0.
Proof.
  assert (H : 2 <= len [0; 1; 2; 3]%nat) by (vm_compute; discriminate).
  split; [exact H |].
  apply (proj2 (select_next_speaker_storyteller_iff_even 6 [0; 1; 2; 3]%nat H)).
  reflexivity.
Defined.

(** X4. With at least two agents, the turns of the other agents go round:
    when an odd step selects index [i], the next odd step selects
    [i mod (len(agents) - 1) + 1], the following agent, and after the last
    agent the first one again. *)
Theorem select_next_speaker_next_character :
  forall (step : Z) (agents : list ref) (i : Z),
    2 <= len agents ->
    step mod 2 = 1 ->
    select_next_speaker step agents = Return i ->
    select_next_speaker (step + 2) agents =
    Return (i mod (len agents - 1) + 1).
Proof.
  intros step agents i Hn Ho H.
  set (m := len agents - 1) in *.
  rewrite select_odd in H by (fold m; lia). fold m in H.
  inversion H as [Hi]. clear H.
  assert (Hp : (step + 2) mod 2 = 1).
  { replace (step + 2) with (step + 1 * 2) by lia.
    now rewrite Z_mod_plus_full. }
  rewrite select_odd by (fold m; lia). fold m. do 2 f_equal.
  replace (step + 2) with (step + 1 * 2) by lia.
  rewrite Z_div_plus_full by discriminate.
  pose proof (Z.mod_pos_bound (step / 2) m) as Hb.
  destruct (Z.eq_dec (step / 2 mod m + 1) m) as [Hw | Hw].
  - rewrite Hw, Z.mod_same by lia.
    rewrite <- Z.add_mod_idemp_l by lia.
    rewrite Hw. apply Z.mod_same. lia.
  - rewrite (Z.mod_small (step / 2 mod m + 1) m) by lia.
    rewrite <- Z.add_mod_idemp_l by lia.
    apply Z.mod_small. lia.
Qed.

(** Witness of X4: with three other agents, step 5 selects agent 3 and
    step 7 agent 1 again. *)
Lemma select_next_speaker_next_character_witness :
  select_next_speaker 5 [0; 1; 2; 3]%nat = Return 3 /\
  select_next_speaker (5 + 2) [0; 1; 2; 3]%nat = Return 1.
Proof.
  assert (H : 2 <= len [0; 1; 2; 3]%nat) by (vm_compute; discriminate).
  split; [reflexivity |].
  exact (select_next_speaker_next_character 5 [0; 1; 2; 3]%nat 3 H
           eq_refl eq_refl).
Defined.

(** X5. The schedule is fair to the other agents: with at least two
    agents, in every window of [2 * (len(agents) - 1)] consecutive steps,
    wherever it starts, each index [1 <= i < len(agents)] is selected at
    exactly one step. *)
Theorem select_next_speaker_once_per_round :
  forall (agents : list ref) (start i : Z),
    2 <= len agents ->
    1 <= i < len agents ->
    (exists step : Z,
        start <= step < start + 2 * (len agents - 1) /\
        select_next_speaker step agents = Return i) /\
    (forall step step' : Z,
        start <= step < start + 2 * (len agents - 1) ->
        start <= step' < start + 2 * (len agents - 1) ->
        select_next_speaker step agents = Return i ->
        select_next_speaker step' agents = Return i ->
        step = step').
Proof.
  intros agents start i Hn Hi. set (m := len agents - 1) in *.
  assert (Hm : 0 < m) by lia.
  assert (Hwin : forall step,
             start <= step < start + 2 * m ->
             select_next_speaker step agents = Return i ->
             step = 2 * (step / 2) + 1 /\
             start / 2 <= step / 2 < start / 2 + m /\
             (step / 2) mod m = i - 1).
  { intros step Hs H.
    destruct (step_parity step) as [He | Ho].
    - rewrite select_even in H by assumption. inversion H. lia.
    - rewrite select_odd in H by (fold m; lia). fold m in H.
      inversion H as [E].
      pose proof (Z.div_mod step 2). pose proof (Z.div_mod start 2).
      pose proof (Z.mod_pos_bound start 2).
      split; [lia |]. split; lia. }
  split.
  - destruct (residue_in_window m (start / 2) (i - 1) Hm) as [Hq Hr]; [lia |].
    set (q := start / 2 + (i - 1 - start / 2) mod m) in *.
    exists (2 * q + 1).
    destruct (odd_half q) as [Hodd Hhalf].
    pose proof (Z.div_mod start 2). pose proof (Z.mod_pos_bound start 2).
    split; [lia |].
    rewrite select_odd by (fold m; lia). fold m.
    rewrite Hhalf, Hr. f_equal. lia.
  - intros step step' Hs Hs' H H'.
    destruct (Hwin step Hs H) as (E & Hq & Hr).
    destruct (Hwin step' Hs' H') as (E' & Hq' & Hr').
    assert (step / 2 = step' / 2)
      by (apply (residue_unique_in_window m (start / 2)); congruence || assumption).
    lia.
Qed.

(** Witness of X5: the window of six steps from step 4 with three other
    agents; agent 2 speaks at step 9 only. *)
Lemma select_next_speaker_once_per_round_witness :
  (exists step : Z,
      4 <= step < 4 + 2 * (len [0; 1; 2; 3]%nat - 1) /\
      select_next_speaker step [0; 1; 2; 3]%nat = Return 2) /\
  (forall step' : Z,
      4 <= step' < 4 + 2 * (len [0; 1; 2; 3]%nat - 1) ->
      select_next_speaker step' [0; 1; 2; 3]%nat = Return 2 ->
      9 = step').
Proof.
  assert (H : 2 <= len [0; 1; 2; 3]%nat) by (vm_compute; discriminate).
  assert (Hi : 1 <= 2 < len [0; 1; 2; 3]%nat) by (vm_compute; split; [discriminate | reflexivity]).
  destruct (select_next_speaker_once_per_round [0; 1; 2; 3]%nat 4 2 H Hi)
    as [Hex Huniq].
  split; [exact Hex |].
  intros step' Hs' H'.
  apply (Huniq 9 step'); [vm_compute; split; [discriminate | reflexivity]
                         | exact Hs' | reflexivity | exact H'].
Defined.

(** X6. With exactly two agents the schedule is plain alternation: step
    [s] selects index [s mod 2], the storyteller at even steps and the one
    other agent at every odd step. *)
Theorem select_next_speaker_two_agents_alternate :
  forall (step : Z) (agents : list ref),
    len agents = 2 ->
    select_next_speaker step agents = Return (step mod 2).
Proof.
  intros step agents H2.
  destruct (step_parity step) as [He | Ho].
  - rewrite select_even, He by assumption. reflexivity.
  - rewrite select_odd, Ho, H2 by lia. f_equal.
    change (2 - 1) with 1. rewrite Z.mod_1_r. reflexivity.
Qed.

(** Witness of X6. *)
Lemma select_next_speaker_two_agents_alternate_witness :
  select_next_speaker 7 [0; 1]%nat = Return 1.
Proof.
  exact (select_next_speaker_two_agents_alternate 7 [0; 1]%nat eq_refl).
Defined.

(** * The four ways a call of [step] can go *)

Section StepCases.

Import DialogueSimulator.

Variable w : world.

Lemma step_cases : step_case w.
Proof.
  destruct (select_next_speaker (self w) (_step (self w)) (agents (self w))
              (objects w)) as [idx | e] eqn:Hc.
  2:{ apply (SelectionRaised w e).
      - unfold call_selection_function. now rewrite Hc.
      - now apply step_selection_raises. }
  assert (Hsel : call_selection_function w = (Return idx, w))
    by (unfold call_selection_function; now rewrite Hc).
  destruct (index_in_range (agents (self w)) idx) eqn:Hr.
  2:{ apply (IndexRejected w idx); auto. now apply (step_index_error w idx). }
  destruct (list_getitem_in_range _ _ Hr) as [speaker Hi].
  destruct (fst (DialogueAgent.send (objects w speaker))) as [message | e] eqn:Hs.
  - apply (Spoke w idx speaker message); auto. now apply (step_returns w idx).
  - apply (ModelRaised w idx speaker e); auto. now apply (step_send_raises w idx).
Qed.

End StepCases.

(** X7. [step()] is all or nothing: when it raises, whatever the reason
    (the selection function raised, the index was rejected, or the chat
    model of the speaker raised), the simulator object, so its step counter,
    and every attribute of every agent are as before the call. *)
Theorem step_failure_changes_nothing :
  forall (w : DialogueSimulator.world) (e : exn),
    fst (DialogueSimulator.step w) = Raise e ->
    DialogueSimulator.self (snd (DialogueSimulator.step w))
      = DialogueSimulator.self w /\
    (forall r,
        DialogueSimulator.objects (snd (DialogueSimulator.step w)) r
        = DialogueSimulator.objects w r).
Proof.
  intros w e H.
  destruct (step_cases w); rewrite Hstep in *; simpl in *.
  - auto.
  - auto.
  - split; [reflexivity |]. intro r. apply update_same.
  - discriminate.
Qed.

(** Witness of X7: the storyteller's chat model is down at step 0. *)
Lemma step_failure_changes_nothing_witness :
  let down : DialogueAgent.t :=
    DialogueAgent.__init__ "Dungeon Master" (SystemMessage "")
      (fun _ => Raise ProviderError) in
  let w := DialogueSimulator.World
             (DialogueSimulator.mk [0; 1]%nat 0 round_robin)
             (update Example.cast 0%nat down) in
  fst (DialogueSimulator.step w) = Raise ProviderError /\
  DialogueSimulator._step
    (DialogueSimulator.self (snd (DialogueSimulator.step w))) = 0 /\
  DialogueAgent.message_history
    (DialogueSimulator.objects (snd (DialogueSimulator.step w)) 1%nat)
    = ["Here is the conversation so far."].
Proof.
  intros down w.
  assert (H : fst (DialogueSimulator.step w) = Raise ProviderError)
    by reflexivity.
  destruct (step_failure_changes_nothing w ProviderError H) as [Hself Hobj].
  split; [exact H |]. split.
  - rewrite Hself. reflexivity.
  - rewrite Hobj. reflexivity.
Defined.

(** X8. [step()] returns normally exactly when its three stages succeed:
    the selection function returns an index, the agent list accepts this
    index, and the chat model of the agent at this index answers. The
    returned pair is then the name of that agent and the content of the
    answer. In particular the exception of a chat model is not caught. *)
Theorem step_returns_iff :
  forall (w : DialogueSimulator.world) (name message : string),
    fst (DialogueSimulator.step w) = Return (name, message) <->
    exists (idx : Z) (speaker : ref),
      DialogueSimulator.select_next_speaker (DialogueSimulator.self w)
        (DialogueSimulator._step (DialogueSimulator.self w))
        (DialogueSimulator.agents (DialogueSimulator.self w))
        (DialogueSimulator.objects w) = Return idx /\
      list_getitem (DialogueSimulator.agents (DialogueSimulator.self w)) idx
        = Return speaker /\
      fst (DialogueAgent.send (DialogueSimulator.objects w speaker))
        = Return message /\
      name = DialogueAgent.name (DialogueSimulator.objects w speaker).
Proof.
  intros w name message. split.
  - intros H.
    destruct (step_cases w); rewrite Hstep in H; simpl in H; try discriminate.
    inversion H; subst. exists idx, speaker.
    unfold DialogueSimulator.call_selection_function in Hsel.
    inversion Hsel as [E]. rewrite E. auto.
  - intros (idx & speaker & Hsel & Hidx & Hsend & ->).
    now rewrite (step_returns w idx speaker message Hsel Hidx Hsend).
Qed.

(** Witness of X8 on the example simulator at step 0. *)
Lemma step_returns_iff_witness :
  fst (DialogueSimulator.step Example.world0)
    = Return ("Dungeon Master", "The hunt begins.").
Proof.
  apply (proj2 (step_returns_iff Example.world0 "Dungeon Master"
                  "The hunt begins.")).
  exists 0, 0%nat. repeat split.
Defined.

(** * What the simulator never changes *)

Section Frame.

Import DialogueSimulator.

Lemma same_identity_refl (a : DialogueAgent.t) : same_identity a a.
Proof. repeat split. Qed.

Lemma same_identity_trans (a b c : DialogueAgent.t) :
  same_identity a b -> same_identity b c -> same_identity a c.
Proof.
  unfold same_identity. intros (? & ? & ? & ?) (? & ? & ? & ?).
  repeat split; congruence.
Qed.

Lemma update_each_identity (f : DialogueAgent.t -> DialogueAgent.t)
    (rs : list ref) (h : store) (r : ref) :
  (forall a, same_identity a (f a)) ->
  same_identity (h r) (update_each f rs h r).
Proof.
  intros Hf. rewrite update_each_iter.
  induction (occurrences rs r) as [| n IH]; simpl.
  - apply same_identity_refl.
  - eapply same_identity_trans; [exact IH | apply Hf].
Qed.

Lemma update_each_outside (f : DialogueAgent.t -> DialogueAgent.t)
    (rs : list ref) (h : store) (r : ref) :
  ~ In r rs -> update_each f rs h r = h r.
Proof.
  intros Hnin. rewrite update_each_iter. unfold occurrences.
  apply (count_occ_not_In Nat.eq_dec) in Hnin. now rewrite Hnin.
Qed.

Lemma run_step_state (w : world) :
  snd (run_simulator_call CallStep w) = snd (step w).
Proof.
  simpl. destruct (step w) as [[res | e] w'] eqn:Es.
  - now rewrite (bind_returns _ _ w w' res Es).
  - now rewrite (bind_raises _ _ w w' e Es).
Qed.

Lemma kept_refl (w : world) : kept w w.
Proof.
  repeat split; auto; lia.
Qed.

Lemma kept_trans (w1 w2 w3 : world) : kept w1 w2 -> kept w2 w3 -> kept w1 w3.
Proof.
  intros (Ha & Hs & Hc & Hi & Ho) (Ha' & Hs' & Hc' & Hi' & Ho').
  split; [congruence |]. split; [congruence |]. split; [lia |]. split.
  - intro r. eapply same_identity_trans; eauto.
  - intros r Hr. rewrite Ho' by (rewrite Ha; exact Hr). now apply Ho.
Qed.

Lemma run_simulator_call_kept (c : simulator_call) (w : world) :
  kept w (snd (run_simulator_call c w)).
Proof.
  destruct c as [| nm msg |].
  - simpl. rewrite reset_world. cbn [snd].
    repeat split; cbn [self objects]; try reflexivity; try lia;
      try (apply (update_each_identity cleared); intro; repeat split).
    intros r Hr. now apply update_each_outside.
  - simpl. rewrite inject_world. cbn [snd].
    repeat split; cbn [self objects agents _step select_next_speaker];
      try reflexivity; try lia;
      try (apply (update_each_identity (received nm msg)); intro; repeat split).
    intros r Hr. now apply update_each_outside.
  - rewrite run_step_state.
    destruct (step_cases w); rewrite Hstep; cbn [snd];
      try apply kept_refl.
    + repeat split; cbn [self objects]; try reflexivity; try lia;
        try (rewrite update_same; reflexivity).
      intros r _. apply update_same.
    + assert (Hid : forall r,
                 same_identity (objects w r)
                   (update_each
                      (received (DialogueAgent.name (objects w speaker)) message)
                      (agents (self w))
                      (update (objects w) speaker (objects w speaker)) r)).
      { intro r.
        eapply same_identity_trans;
          [| apply update_each_identity; intro; repeat split].
        rewrite update_same. apply same_identity_refl. }
      repeat split; cbn [self objects agents _step select_next_speaker];
        try reflexivity; try lia; try apply Hid.
      intros r Hr. rewrite update_each_outside by exact Hr. apply update_same.
Qed.

Lemma run_simulator_calls_kept (cs : list simulator_call) (w : world) :
  kept w (run_simulator_calls cs w).
Proof.
  revert w; induction cs as [| c cs IH]; intros w.
  - apply kept_refl.
  - eapply kept_trans; [apply (run_simulator_call_kept c) |].
    apply IH.
Qed.

End Frame.

(** X9. Whatever sequence of [reset], [inject] and [step] calls is made,
    returning or raising, the simulator keeps its agent list and its
    selection function, its step counter never goes down, no agent changes
    its name, prefix, system message or chat model, and an object that is
    not in the agent list is not touched at all. *)
Theorem simulator_calls_keep_frame :
  forall (w : DialogueSimulator.world) (cs : list simulator_call),
    let w' := run_simulator_calls cs w in
    DialogueSimulator.agents (DialogueSimulator.self w')
      = DialogueSimulator.agents (DialogueSimulator.self w) /\
    DialogueSimulator.select_next_speaker (DialogueSimulator.self w')
      = DialogueSimulator.select_next_speaker (DialogueSimulator.self w) /\
    DialogueSimulator._step (DialogueSimulator.self w)
      <= DialogueSimulator._step (DialogueSimulator.self w') /\
    (forall r,
        DialogueAgent.name (DialogueSimulator.objects w' r)
          = DialogueAgent.name (DialogueSimulator.objects w r) /\
        DialogueAgent.prefix (DialogueSimulator.objects w' r)
          = DialogueAgent.prefix (DialogueSimulator.objects w r) /\
        DialogueAgent.system_message (DialogueSimulator.objects w' r)
          = DialogueAgent.system_message (DialogueSimulator.objects w r) /\
        DialogueAgent.model (DialogueSimulator.objects w' r)
          = DialogueAgent.model (DialogueSimulator.objects w r)) /\
    (forall r,
        ~ In r (DialogueSimulator.agents (DialogueSimulator.self w)) ->
        DialogueSimulator.objects w' r = DialogueSimulator.objects w r).
Proof.
  intros w cs w'. exact (run_simulator_calls_kept cs w).
Qed.

(** Witness of X9: an object outside the agent list after three calls. *)
Lemma simulator_calls_keep_frame_witness :
  let cs := [CallInject "Dungeon Master" "Go."; CallStep; CallSimReset] in
  ~ In 9%nat (DialogueSimulator.agents (DialogueSimulator.self Example.world0)) /\
  DialogueSimulator.objects (run_simulator_calls cs Example.world0) 9%nat
    = Example.cast 9%nat.
Proof.
  intros cs.
  assert (H : ~ In 9%nat
                (DialogueSimulator.agents (DialogueSimulator.self Example.world0)))
    by (simpl; intuition discriminate).
  split; [exact H |].
  exact (proj2 (proj2 (proj2 (proj2
           (simulator_calls_keep_frame Example.world0 cs)))) 9%nat H).
Defined.

(** * The shared transcript *)

Section SharedTranscript.

Import DialogueSimulator.

Local Abbreviation history w r := (DialogueAgent.message_history (objects w r)).

Lemma ticked_step (w : world) :
  ticked CallStep w =
  match fst (step w) with Return _ => true | Raise _ => false end.
Proof.
  unfold ticked, run_simulator_call.
  destruct (step w) as [[res | e] w'] eqn:Es; simpl.
  - now rewrite (bind_returns _ _ w w' res Es).
  - now rewrite (bind_raises _ _ w w' e Es).
Qed.

Lemma call_entries_length (c : simulator_call) (w : world) :
  List.length (call_entries c w) = if ticked c w then 1%nat else 0%nat.
Proof.
  destruct c as [| nm msg |].
  - reflexivity.
  - unfold ticked. simpl. now rewrite inject_world.
  - rewrite ticked_step. simpl.
    destruct (fst (step w)) as [[nm msg] | e]; reflexivity.
Qed.

Lemma tick_entries_length (cs : list simulator_call) (w : world) :
  List.length (tick_entries cs w) = ticks cs w.
Proof.
  revert w; induction cs as [| c cs IH]; intros w; [reflexivity |].
  simpl. now rewrite length_app, call_entries_length, IH.
Qed.

(** One call on distinct agents: every transcript of the list is cleared
    by [reset] and otherwise gains the entries of the call. *)
Lemma run_simulator_call_transcript (c : simulator_call) (w : world) (r : ref) :
  NoDup (agents (self w)) ->
  In r (agents (self w)) ->
  history (snd (run_simulator_call c w)) r =
  match c with
  | CallSimReset => [DialogueAgent.conversation_header]
  | _ => history w r ++ call_entries c w
  end.
Proof.
  intros Hnd Hin. destruct c as [| nm msg |].
  - simpl. rewrite reset_world. cbn [snd objects].
    rewrite update_each_iter, iter_cleared.
    apply (count_occ_In Nat.eq_dec) in Hin. unfold occurrences.
    destruct (count_occ Nat.eq_dec _ r); [lia | reflexivity].
  - simpl run_simulator_call. rewrite inject_world. cbn [snd objects].
    now apply broadcast_once.
  - rewrite run_step_state. unfold call_entries.
    destruct (step_cases w); rewrite Hstep; cbn [fst snd objects];
      try now rewrite app_nil_r.
    + rewrite update_same. now rewrite app_nil_r.
    + rewrite broadcast_once by assumption. now rewrite update_same.
Qed.

Lemma run_simulator_calls_transcript (cs : list simulator_call) (w : world)
    (r : ref) :
  NoDup (agents (self w)) ->
  In r (agents (self w)) ->
  ~ In CallSimReset cs ->
  history (run_simulator_calls cs w) r = history w r ++ tick_entries cs w.
Proof.
  revert w; induction cs as [| c cs IH]; intros w Hnd Hin Hnr.
  - simpl. now rewrite app_nil_r.
  - unfold run_simulator_calls in *. simpl fold_left. simpl tick_entries.
    destruct (run_simulator_call_kept c w) as (Ha & _).
    rewrite IH; try (rewrite Ha; assumption).
    2:{ intro H. apply Hnr. now right. }
    rewrite run_simulator_call_transcript by assumption.
    destruct c; [exfalso; apply Hnr; now left | |]; now rewrite app_assoc.
Qed.

Lemma run_simulator_calls_agree (cs : list simulator_call) (w : world) :
  NoDup (agents (self w)) ->
  (forall r r', In r (agents (self w)) -> In r' (agents (self w)) ->
                history w r = history w r') ->
  forall r r', In r (agents (self w)) -> In r' (agents (self w)) ->
               history (run_simulator_calls cs w) r
               = history (run_simulator_calls cs w) r'.
Proof.
  revert w; induction cs as [| c cs IH]; intros w Hnd Heq r r' Hr Hr'.
  - now apply Heq.
  - unfold run_simulator_calls in *. simpl fold_left.
    destruct (run_simulator_call_kept c w) as (Ha & _).
    apply IH; try (rewrite Ha; assumption).
    intros x x' Hx Hx'. rewrite Ha in Hx, Hx'.
    rewrite !run_simulator_call_transcript by assumption.
    destruct c; [reflexivity | |]; now rewrite (Heq x x').
Qed.

End SharedTranscript.

(** X10. Between resets all agents record the same conversation: when the
    agents of the list are distinct objects and no [reset] is among the
    calls, every agent's transcript after the calls is its transcript
    before them followed by one common log, which holds, in call order, the
    entry of every [inject] and of every [step] that returned. The log is as
    long as the step counter has advanced. *)
Theorem transcripts_gain_common_log :
  forall (w : DialogueSimulator.world) (cs : list simulator_call),
    NoDup (DialogueSimulator.agents (DialogueSimulator.self w)) ->
    ~ In CallSimReset cs ->
    let w' := run_simulator_calls cs w in
    (forall r,
        In r (DialogueSimulator.agents (DialogueSimulator.self w)) ->
        DialogueAgent.message_history (DialogueSimulator.objects w' r)
        = DialogueAgent.message_history (DialogueSimulator.objects w r)
            ++ tick_entries cs w) /\
    DialogueSimulator._step (DialogueSimulator.self w')
      = DialogueSimulator._step (DialogueSimulator.self w)
        + Z.of_nat (List.length (tick_entries cs w)).
Proof.
  intros w cs Hnd Hnr w'. split.
  - intros r Hin. now apply run_simulator_calls_transcript.
  - subst w'. now rewrite run_simulator_calls_counter, tick_entries_length.
Qed.

(** Witness of X10: the opening [inject] and two [step] calls. *)
Lemma transcripts_gain_common_log_witness :
  let cs := [CallInject "Dungeon Master" "Go."; CallStep; CallStep] in
  DialogueAgent.message_history
    (DialogueSimulator.objects (run_simulator_calls cs Example.world0) 2%nat)
  = ["Here is the conversation so far.";
     "Dungeon Master: Go.";
     "Harry Potter: I draw my wand.";
     "Dungeon Master: The hunt begins."] /\
  DialogueSimulator._step
    (DialogueSimulator.self (run_simulator_calls cs Example.world0)) = 3.
Proof.
  intros cs.
  assert (Hnd : NoDup [0; 1; 2; 3]%nat).
  { repeat constructor; simpl; intuition discriminate. }
  assert (Hnr : ~ In CallSimReset cs).
  { simpl. intuition discriminate. }
  destruct (transcripts_gain_common_log Example.world0 cs Hnd Hnr)
    as [Hlog Hstep].
  split.
  - apply (Hlog 2%nat). simpl. tauto.
  - exact Hstep.
Defined.

(** X11. Agents that agree stay in agreement: when the agents of the list
    are distinct objects and all hold the same transcript, as they do after
    [reset()], they all hold the same transcript after any sequence of
    [reset], [inject] and [step] calls, returning or raising. *)
Theorem transcripts_stay_equal :
  forall (w : DialogueSimulator.world) (cs : list simulator_call),
    NoDup (DialogueSimulator.agents (DialogueSimulator.self w)) ->
    (forall r r',
        In r (DialogueSimulator.agents (DialogueSimulator.self w)) ->
        In r' (DialogueSimulator.agents (DialogueSimulator.self w)) ->
        DialogueAgent.message_history (DialogueSimulator.objects w r)
        = DialogueAgent.message_history (DialogueSimulator.objects w r')) ->
    forall r r',
      In r (DialogueSimulator.agents (DialogueSimulator.self w)) ->
      In r' (DialogueSimulator.agents (DialogueSimulator.self w)) ->
      DialogueAgent.message_history
        (DialogueSimulator.objects (run_simulator_calls cs w) r)
      = DialogueAgent.message_history
          (DialogueSimulator.objects (run_simulator_calls cs w) r').
Proof.
  intros w cs Hnd Heq r r' Hr Hr'. now apply run_simulator_calls_agree.
Qed.

(** Witness of X11: the example simulator, whose agents are new, after a
    [step], an [inject] and another [step]. *)
Lemma transcripts_stay_equal_witness :
  let cs := [CallStep; CallInject "Dungeon Master" "Go."; CallStep] in
  DialogueAgent.message_history
    (DialogueSimulator.objects (run_simulator_calls cs Example.world0) 0%nat)
  = DialogueAgent.message_history
      (DialogueSimulator.objects (run_simulator_calls cs Example.world0) 3%nat).
Proof.
  intros cs.
  assert (Hnd : NoDup [0; 1; 2; 3]%nat).
  { repeat constructor; simpl; intuition discriminate. }
  assert (Heq : forall r r',
             In r [0; 1; 2; 3]%nat -> In r' [0; 1; 2; 3]%nat ->
             DialogueAgent.message_history (Example.cast r)
             = DialogueAgent.message_history (Example.cast r')).
  { intros r r' Hr Hr'. simpl in Hr, Hr'.
    repeat (destruct Hr as [<- | Hr]; [| try contradiction]);
      repeat (destruct Hr' as [<- | Hr']; [| try contradiction]);
      reflexivity. }
  apply (transcripts_stay_equal Example.world0 cs Hnd Heq); simpl; tauto.
Defined.

(** * The main loop *)

Lemma select_in_range (step : Z) (rs : list ref) :
  2 <= len rs ->
  exists idx, select_next_speaker step rs = Return idx /\ 0 <= idx < len rs.
Proof.
  intros Hn. destruct (step_parity step) as [He | Ho].
  - exists 0. rewrite select_even by assumption. split; [reflexivity | lia].
  - exists ((step / 2) mod (len rs - 1) + 1).
    rewrite select_odd by lia. split; [reflexivity |].
    pose proof (Z.mod_pos_bound (step / 2) (len rs - 1)). lia.
Qed.

Section MainLoopFacts.

Import DialogueSimulator MainLoop.

Local Abbreviation history w r := (DialogueAgent.message_history (objects w r)).

Lemma send_answers (a : DialogueAgent.t) :
  (forall prompt, exists reply, DialogueAgent.model a prompt = Return reply) ->
  exists message, fst (DialogueAgent.send a) = Return message.
Proof.
  intros H. unfold DialogueAgent.send, bind, gets, lift, ret. simpl.
  destruct (H [DialogueAgent.system_message a;
               HumanMessage
                 (join newline
                    (DialogueAgent.message_history a ++ [DialogueAgent.prefix a]))])
    as [reply ->].
  now exists (content reply).
Qed.

Lemma models_answer_kept (w w' : world) :
  kept w w' ->
  models_answer (agents (self w)) (objects w) ->
  models_answer (agents (self w')) (objects w').
Proof.
  intros (Ha & _ & _ & Hid & _) H r prompt Hin.
  rewrite Ha in Hin. destruct (Hid r) as (_ & _ & _ & ->). now apply H.
Qed.

(** One turn of the loop when the schedule is [select_next_speaker], there
    are at least two distinct agents and the chat models answer. *)
Lemma turn_runs (s : script) :
  let w := world_of s in
  select_next_speaker (self w) = round_robin ->
  2 <= len (agents (self w)) ->
  models_answer (agents (self w)) (objects w) ->
  exists idx speaker message,
    round_robin (_step (self w)) (agents (self w)) (objects w) = Return idx /\
    list_getitem (agents (self w)) idx = Return speaker /\
    fst (step w) = Return (DialogueAgent.name (objects w speaker), message) /\
    turn s =
    (Return tt,
     Script (snd (step w))
       (stdout s ++
        [("(" ++ DialogueAgent.name (objects w speaker) ++ "): " ++ message)%string;
         newline])).
Proof.
  intros w Hrr Hn Hm.
  destruct (select_in_range (_step (self w)) (agents (self w)) Hn)
    as (idx & Hsel & Hidx).
  destruct (list_getitem_nonneg (agents (self w)) idx Hidx)
    as (speaker & _ & Hget).
  assert (Hin : In speaker (agents (self w)))
    by (eapply list_getitem_In; eassumption).
  destruct (send_answers (objects w speaker)) as [message Hsend].
  { intro prompt. now apply Hm. }
  assert (Hsel' : select_next_speaker (self w) (_step (self w))
                    (agents (self w)) (objects w) = Return idx)
    by (rewrite Hrr; exact Hsel).
  pose proof (step_returns w idx speaker message Hsel' Hget Hsend) as Hstep.
  exists idx, speaker, message.
  split; [exact Hsel |]. split; [exact Hget |].
  split; [now rewrite Hstep |].
  unfold turn.
  erewrite bind_returns
    by (unfold in_world; fold w; rewrite Hstep; reflexivity).
  rewrite Hstep. cbn [fst snd].
  erewrite bind_returns by reflexivity.
  unfold print, modify. cbn [world_of stdout].
  now rewrite <- app_assoc.
Qed.

Lemma in_world_returns {A : Type} (method : M world A) (s : script)
    (o : outcome A) (w' : world) :
  method (world_of s) = (o, w') ->
  in_world method s = (o, Script w' (stdout s)).
Proof. unfold in_world. now intros ->. Qed.

Lemma step_spoke_transcript (w : world) (nm msg : string) (r : ref) :
  fst (step w) = Return (nm, msg) ->
  NoDup (agents (self w)) ->
  In r (agents (self w)) ->
  history (snd (step w)) r = history w r ++ [transcript_entry nm msg].
Proof.
  intros H Hnd Hin.
  rewrite <- run_step_state.
  rewrite (run_simulator_call_transcript CallStep w r Hnd Hin).
  unfold call_entries. now rewrite H.
Qed.

Lemma step_spoke_counter (w : world) (res : string * string) :
  fst (step w) = Return res ->
  _step (self (snd (step w))) = _step (self w) + 1.
Proof.
  intros H. rewrite step_counter, ticked_step, H. reflexivity.
Qed.

End MainLoopFacts.

Section MainLoopRun.

Import DialogueSimulator MainLoop.

Local Abbreviation history w r := (DialogueAgent.message_history (objects w r)).

(** The line printed for a turn. *)
Local Abbreviation turn_line nm msg := ("(" ++ nm ++ "): " ++ msg)%string.

Lemma while_turns_run (k : nat) :
  forall (n : Z) (s : script),
    let w := world_of s in
    select_next_speaker (self w) = round_robin ->
    2 <= len (agents (self w)) ->
    NoDup (agents (self w)) ->
    models_answer (agents (self w)) (objects w) ->
    exists s' log lines,
      while_turns k n s = (Return (n + Z.of_nat k), s') /\
      kept w (world_of s') /\
      _step (self (world_of s')) = _step (self w) + Z.of_nat k /\
      List.length log = k /\
      List.length lines = (2 * k)%nat /\
      stdout s' = stdout s ++ lines /\
      (forall r, In r (agents (self w)) ->
                 history (world_of s') r = history w r ++ log) /\
      (forall j, (j < k)%nat ->
         exists idx speaker message,
           round_robin (_step (self w) + Z.of_nat j) (agents (self w)) (objects w)
             = Return idx /\
           list_getitem (agents (self w)) idx = Return speaker /\
           nth_error log j
             = Some (transcript_entry (DialogueAgent.name (objects w speaker)) message) /\
           nth_error lines (2 * j)
             = Some (turn_line (DialogueAgent.name (objects w speaker)) message)).
Proof.
  induction k as [| k IH]; intros n s w Hrr Hn Hnd Hm.
  - exists s, [], []. simpl. repeat rewrite Z.add_0_r. rewrite app_nil_r.
    split; [reflexivity |]. split; [apply kept_refl |].
    split; [reflexivity |]. split; [reflexivity |]. split; [reflexivity |].
    split; [reflexivity |]. split.
    + intros r _. now rewrite app_nil_r.
    + intros j Hj. lia.
  - destruct (turn_runs s Hrr Hn Hm) as (idx0 & sp0 & msg0 & Hsel0 & Hget0 & Hres0 & Hturn).
    fold w in Hsel0, Hget0, Hres0, Hturn.
    set (w1 := snd (step w)) in *.
    set (l0 := turn_line (DialogueAgent.name (objects w sp0)) msg0) in *.
    set (s1 := Script w1 (stdout s ++ [l0; newline])) in *.
    assert (Hk : kept w w1).
    { subst w1. rewrite <- run_step_state. apply run_simulator_call_kept. }
    destruct Hk as (Ha & Hs & Hc & Hid & Ho).
    assert (Hk : kept w w1) by (repeat split; auto; apply Hid).
    destruct (IH (n + 1) s1) as (s' & log & lines & Hrun & Hk' & Hstep' & Hlog & Hlines & Hout & Hhist & Hturns).
    { cbn [s1 world_of]. congruence. }
    { cbn [s1 world_of]. now rewrite Ha. }
    { cbn [s1 world_of]. now rewrite Ha. }
    { cbn [s1 world_of]. now apply (models_answer_kept w w1). }
    cbn [s1 world_of stdout] in *.
    exists s', (transcript_entry (DialogueAgent.name (objects w sp0)) msg0 :: log),
           (l0 :: newline :: lines).
    split.
    { simpl while_turns. erewrite bind_returns by exact Hturn.
      rewrite Hrun. do 2 f_equal. lia. }
    split; [eapply kept_trans; eassumption |].
    split.
    { rewrite Hstep'. subst w1. rewrite (step_spoke_counter w _ Hres0). lia. }
    split; [simpl; congruence |].
    split; [simpl; lia |].
    split; [rewrite Hout, <- app_assoc; reflexivity |].
    split.
    { intros r Hin. rewrite Hhist by (rewrite Ha; exact Hin).
      subst w1. rewrite (step_spoke_transcript w _ _ r Hres0 Hnd Hin).
      now rewrite <- app_assoc. }
    intros [| j] Hj.
    + exists idx0, sp0, msg0. rewrite Z.add_0_r. repeat split; assumption.
    + destruct (Hturns j) as (idx & sp & msg & Hsel & Hget & Hl & Hp); [lia |].
      exists idx, sp, msg.
      rewrite Ha in Hsel, Hget.
      destruct (Hid sp) as (Hname & _). rewrite Hname in Hl, Hp.
      split.
      { unfold round_robin in *. rewrite <- Hsel. f_equal.
        subst w1. rewrite (step_spoke_counter w _ Hres0). lia. }
      split; [exact Hget |].
      split; [exact Hl |].
      replace (2 * S j)%nat with (S (S (2 * j))) by lia. exact Hp.
Qed.

End MainLoopRun.

Section MainCell.

Import DialogueSimulator MainLoop.

Local Abbreviation history w r := (DialogueAgent.message_history (objects w r)).
Local Abbreviation turn_line nm msg := ("(" ++ nm ++ "): " ++ msg)%string.

Variables (storyteller : ref) (characters : list ref).
Variables (storyteller_name specified_quest : string).
Variable s : script.

Local Abbreviation cast := (storyteller :: characters).
Local Abbreviation h := (objects (world_of s)).

Hypothesis Hchars : characters <> [].
Hypothesis Hnd : NoDup cast.
Hypothesis Hm : models_answer cast h.

Let w0 : world := World (mk cast 0 round_robin) h.
Let w2 : world :=
  run_simulator_calls
    [CallSimReset; CallInject storyteller_name specified_quest] w0.

Lemma opening_world :
  kept w0 w2 /\
  _step (self w2) = 1 /\
  (forall r, In r cast ->
     history w2 r =
     [DialogueAgent.conversation_header;
      transcript_entry storyteller_name specified_quest]).
Proof.
  split; [apply run_simulator_calls_kept |]. split.
  - subst w2. unfold run_simulator_calls. simpl fold_left.
    rewrite inject_world. cbn [snd self _step].
    now rewrite reset_world.
  - intros r Hin. subst w2. unfold run_simulator_calls. cbn [fold_left].
    set (w1 := snd (run_simulator_call CallSimReset w0)).
    assert (Ha : agents (self w1) = cast)
      by (subst w1; simpl; now rewrite reset_world).
    rewrite (run_simulator_call_transcript
               (CallInject storyteller_name specified_quest) w1 r)
      by (rewrite Ha; assumption).
    subst w1.
    rewrite (run_simulator_call_transcript CallSimReset w0 r)
      by assumption.
    reflexivity.
Qed.

Lemma main_runs :
  exists s' log lines,
    main storyteller characters storyteller_name specified_quest s
      = (Return tt, s') /\
    _step (self (world_of s')) = 1 + max_iters /\
    agents (self (world_of s')) = cast /\
    List.length log = Z.to_nat max_iters /\
    List.length lines = (2 * Z.to_nat max_iters)%nat /\
    stdout s' =
      stdout s ++ turn_line storyteller_name specified_quest :: newline :: lines /\
    (forall r, In r cast ->
       history (world_of s') r =
       DialogueAgent.conversation_header
         :: transcript_entry storyteller_name specified_quest :: log) /\
    (forall j, (j < Z.to_nat max_iters)%nat ->
       exists idx speaker message,
         round_robin (1 + Z.of_nat j) cast h = Return idx /\
         list_getitem cast idx = Return speaker /\
         nth_error log j
           = Some (transcript_entry (DialogueAgent.name (h speaker)) message) /\
         nth_error lines (2 * j)
           = Some (turn_line (DialogueAgent.name (h speaker)) message)).
Proof.
  destruct opening_world as (Hk & Hc & Hhist).
  pose proof Hk as (Ha & Hs & _ & Hid & _).
  set (s2 := Script w2
               (stdout s ++ [turn_line storyteller_name specified_quest; newline])).
  assert (Hlen : 2 <= len cast).
  { unfold len. destruct characters; [contradiction | simpl; lia]. }
  destruct (while_turns_run (Z.to_nat (max_iters - 0)) 0 s2)
    as (s' & log & lines & Hrun & Hk' & Hstep & Hlog & Hlines & Hout & Hh & Hturns).
  { cbn [s2 world_of]. exact Hs. }
  { cbn [s2 world_of]. now rewrite Ha. }
  { cbn [s2 world_of]. now rewrite Ha. }
  { cbn [s2 world_of]. apply (models_answer_kept w0 w2 Hk). exact Hm. }
  cbn [s2 world_of stdout] in *.
  exists s', log, lines.
  split.
  { assert (Hw2 : w2 =
                  World (mk cast 1 round_robin)
                    (update_each (received storyteller_name specified_quest) cast
                       (update_each cleared cast h))).
    { subst w2. unfold run_simulator_calls. simpl fold_left.
      rewrite inject_world. cbn [snd]. now rewrite reset_world. }
    unfold main, DialogueSimulator.__init__.
    erewrite bind_returns by reflexivity.
    erewrite bind_returns by reflexivity.
    erewrite bind_returns
      by (apply in_world_returns; cbn [world_of]; apply reset_world).
    erewrite bind_returns
      by (apply in_world_returns; cbn [world_of]; apply inject_world).
    erewrite bind_returns by reflexivity.
    erewrite bind_returns by reflexivity.
    erewrite bind_returns; [reflexivity |].
    rewrite <- Hrun. f_equal. subst s2. rewrite Hw2.
    unfold print, modify. cbn [world_of stdout self objects agents _step
                                select_next_speaker].
    now rewrite <- app_assoc. }
  split; [rewrite Hstep, Hc; reflexivity |].
  split; [destruct Hk' as (Ha' & _); rewrite Ha', Ha; reflexivity |].
  split; [exact Hlog |]. split; [exact Hlines |].
  split; [rewrite Hout, <- app_assoc; reflexivity |].
  split.
  { intros r Hin. rewrite Hh by (rewrite Ha; exact Hin).
    now rewrite Hhist. }
  intros j Hj. destruct (Hturns j Hj) as (idx & sp & msg & Hsel & Hget & Hl & Hp).
  exists idx, sp, msg.
  rewrite Ha in Hsel, Hget. rewrite Hc in Hsel.
  destruct (Hid sp) as (Hname & _). cbn [w0 objects] in Hname.
  rewrite Hname in Hl, Hp.
  repeat split; assumption.
Qed.

End MainCell.

(** X12. The main loop runs to its end when there is at least one
    character, the agents are distinct objects and every chat model
    answers: the cell returns, the step counter ends at 21 (the opening
    [inject] and the 20 turns), the transcript of every agent has 22
    entries and starts with the header and the injected quest, and 42
    strings are printed after what was there, the quest line first. *)
Theorem main_loop_completes :
  forall (storyteller : ref) (characters : list ref)
         (storyteller_name specified_quest : string) (s : MainLoop.script),
    characters <> [] ->
    NoDup (storyteller :: characters) ->
    models_answer (storyteller :: characters)
      (DialogueSimulator.objects (MainLoop.world_of s)) ->
    let done :=
      MainLoop.main storyteller characters storyteller_name specified_quest s in
    let transcript r :=
      DialogueAgent.message_history
        (DialogueSimulator.objects (MainLoop.world_of (snd done)) r) in
    fst done = Return tt /\
    DialogueSimulator._step
      (DialogueSimulator.self (MainLoop.world_of (snd done))) = 21 /\
    (forall r, In r (storyteller :: characters) ->
       List.length (transcript r) = 22%nat /\
       firstn 2 (transcript r) =
         ["Here is the conversation so far.";
          (storyteller_name ++ ": " ++ specified_quest)%string]) /\
    (exists lines,
        MainLoop.stdout (snd done) =
          MainLoop.stdout s
            ++ ("(" ++ storyteller_name ++ "): " ++ specified_quest)%string
            :: newline :: lines /\
        List.length lines = 40%nat).
Proof.
  intros storyteller characters storyteller_name specified_quest s
         Hchars Hnd Hm done transcript.
  destruct (main_runs storyteller characters storyteller_name specified_quest s
              Hchars Hnd Hm)
    as (s' & log & lines & Hrun & Hstep & _ & Hlog & Hlines & Hout & Hhist & _).
  subst transcript done. rewrite Hrun. cbn [fst snd].
  split; [reflexivity |]. split; [exact Hstep |]. split.
  - intros r Hin. rewrite (Hhist r Hin). simpl. rewrite Hlog. split; reflexivity.
  - exists lines. split; [exact Hout | exact Hlines].
Qed.

(** X13. In the main loop the schedule is consulted at the steps 1 to 20,
    because the opening [inject] has used step 0: turn number [j] (from 0)
    is spoken by [agents[select_next_speaker(j + 1, agents)]], whose entry
    is entry [j + 2] of every transcript and whose line is printed at
    position [2 + 2 * j] of the output of the cell. So the first turn goes
    to the first character and not to the storyteller. *)
Theorem main_loop_speaking_order :
  forall (storyteller : ref) (characters : list ref)
         (storyteller_name specified_quest : string) (s : MainLoop.script),
    characters <> [] ->
    NoDup (storyteller :: characters) ->
    models_answer (storyteller :: characters)
      (DialogueSimulator.objects (MainLoop.world_of s)) ->
    let agents := storyteller :: characters in
    let done :=
      MainLoop.main storyteller characters storyteller_name specified_quest s in
    let name r :=
      DialogueAgent.name (DialogueSimulator.objects (MainLoop.world_of s) r) in
    let transcript r :=
      DialogueAgent.message_history
        (DialogueSimulator.objects (MainLoop.world_of (snd done)) r) in
    (forall j : nat, (j < 20)%nat ->
       exists (idx : Z) (speaker : ref) (message : string),
         select_next_speaker (Z.of_nat j + 1) agents = Return idx /\
         list_getitem agents idx = Return speaker /\
         (forall r, In r agents ->
            nth_error (transcript r) (j + 2)
            = Some (name speaker ++ ": " ++ message)%string) /\
         nth_error (MainLoop.stdout (snd done))
                   (List.length (MainLoop.stdout s) + 2 + 2 * j)
         = Some ("(" ++ name speaker ++ "): " ++ message)%string) /\
    (exists (first : ref) (others : list ref) (message : string),
        characters = first :: others /\
        forall r, In r agents ->
          nth_error (transcript r) 2
          = Some (name first ++ ": " ++ message)%string).
Proof.
  intros storyteller characters storyteller_name specified_quest s
         Hchars Hnd Hm agents done name transcript.
  destruct (main_runs storyteller characters storyteller_name specified_quest s
              Hchars Hnd Hm)
    as (s' & log & lines & Hrun & _ & _ & _ & _ & Hout & Hhist & Hturns).
  subst transcript done. rewrite Hrun. cbn [fst snd].
  change (Z.to_nat MainLoop.max_iters) with 20%nat in Hturns.
  assert (Horder : forall j : nat, (j < 20)%nat ->
            exists (idx : Z) (speaker : ref) (message : string),
              select_next_speaker (Z.of_nat j + 1) agents = Return idx /\
              list_getitem agents idx = Return speaker /\
              (forall r, In r agents ->
                 nth_error
                   (DialogueAgent.message_history
                      (DialogueSimulator.objects (MainLoop.world_of s') r))
                   (j + 2)
                 = Some (name speaker ++ ": " ++ message)%string) /\
              nth_error (MainLoop.stdout s')
                        (List.length (MainLoop.stdout s) + 2 + 2 * j)
              = Some ("(" ++ name speaker ++ "): " ++ message)%string).
  { intros j Hj.
    destruct (Hturns j Hj) as (idx & sp & msg & Hsel & Hget & Hl & Hp).
    exists idx, sp, msg.
    split; [rewrite Z.add_comm; exact Hsel |]. split; [exact Hget |]. split.
    - intros r Hin. rewrite (Hhist r Hin).
      replace (j + 2)%nat with (S (S j)) by lia. exact Hl.
    - rewrite Hout, nth_error_app2 by lia.
      replace (List.length (MainLoop.stdout s) + 2 + 2 * j
               - List.length (MainLoop.stdout s))%nat
        with (S (S (2 * j))) by lia.
      exact Hp. }
  split; [exact Horder |].
  destruct characters as [| first others]; [contradiction |].
  destruct (Horder 0%nat) as (idx & sp & msg & Hsel & Hget & Hh & _); [lia |].
  exists first, others, msg. split; [reflexivity |].
  assert (Hidx : idx = 1).
  { assert (Hlen : len (storyteller :: first :: others) - 1 <> 0)
      by (unfold len; simpl List.length; lia).
    assert (Hone : select_next_speaker (Z.of_nat 0 + 1)
                     (storyteller :: first :: others) = Return 1).
    { rewrite select_odd; [| vm_compute; discriminate | exact Hlen].
      change ((Z.of_nat 0 + 1) / 2) with 0.
      now rewrite Z.mod_0_l by exact Hlen. }
    subst agents. congruence. }
  subst idx. subst agents. inversion Hget; subst sp. exact Hh.
Qed.

Lemma example_cast_distinct : NoDup [0; 1; 2; 3; 4]%nat.
Proof. repeat constructor; simpl; intuition discriminate. Defined.

Lemma example_cast_answers : models_answer [0; 1; 2; 3; 4]%nat Example.cast.
Proof.
  intros r prompt Hin. simpl in Hin.
  repeat (destruct Hin as [<- | Hin]; [eexists; reflexivity |]).
  contradiction.
Defined.

(** Witness of X12: the notebook's cast of a storyteller and four
    characters. *)
Lemma main_loop_completes_witness :
  let s := MainLoop.Script Example.world0 [] in
  let done := MainLoop.main 0%nat [1; 2; 3; 4]%nat "Dungeon Master"
                "Find the horcruxes." s in
  fst done = Return tt /\
  DialogueSimulator._step
    (DialogueSimulator.self (MainLoop.world_of (snd done))) = 21 /\
  List.length
    (DialogueAgent.message_history
       (DialogueSimulator.objects (MainLoop.world_of (snd done)) 4%nat))
  = 22%nat.
Proof.
  intros s done.
  assert (Hchars : [1; 2; 3; 4]%nat <> []) by discriminate.
  destruct (main_loop_completes 0%nat [1; 2; 3; 4]%nat "Dungeon Master"
              "Find the horcruxes." s Hchars example_cast_distinct
              example_cast_answers)
    as (Hret & Hstep & Hhist & _).
  split; [exact Hret |]. split; [exact Hstep |].
  apply (Hhist 4%nat). simpl. tauto.
Defined.

(** Witness of X13: the first turn of the notebook's cast is Harry
    Potter's. *)
Lemma main_loop_speaking_order_witness :
  let s := MainLoop.Script Example.world0 [] in
  let done := MainLoop.main 0%nat [1; 2; 3; 4]%nat "Dungeon Master"
                "Find the horcruxes." s in
  exists message,
    nth_error
      (DialogueAgent.message_history
         (DialogueSimulator.objects (MainLoop.world_of (snd done)) 0%nat)) 2
    = Some ("Harry Potter: " ++ message)%string.
Proof.
  intros s done.
  assert (Hchars : [1; 2; 3; 4]%nat <> []) by discriminate.
  destruct (main_loop_speaking_order 0%nat [1; 2; 3; 4]%nat "Dungeon Master"
              "Find the horcruxes." s Hchars example_cast_distinct
              example_cast_answers)
    as (_ & first & others & message & Hc & Hfirst).
  exists message. inversion Hc; subst first others.
  apply (Hfirst 0%nat). simpl. tauto.
Defined.

(** * [run_conversation] *)

Section ConversationFacts.

Import Conversation.

Variable G : Type.
Variable generate_reaction : string -> M G (bool * string).
Variable generate_dialogue_response : string -> M G (bool * string).

Local Abbreviation for_agents := (for_agents G generate_dialogue_response).
Local Abbreviation while_true := (while_true G generate_dialogue_response).
Local Abbreviation run_conversation :=
  (run_conversation G generate_reaction generate_dialogue_response).

Lemma call_printed {A : Type} (r : ref) (method : M G A) (c : conversation G) :
  printed (snd (call G r method c)) = printed c.
Proof. unfold call. now destruct (method (agent_objects c r)). Qed.

(** A round that comes to its end has printed one line for each agent. *)
Lemma for_agents_printed (agents : list ref) :
  forall (b : bool) (obs : string) (c c' : conversation G)
         (res : bool * string),
    for_agents agents b obs c = (Return res, c') ->
    exists lines,
      printed c' = printed c ++ lines /\
      List.length lines = List.length agents.
Proof.
  induction agents as [| a agents IH]; intros b obs c c' res H.
  - simpl in H. inversion H; subst. exists []. now rewrite app_nil_r.
  - simpl in H. unfold bind at 1 in H.
    pose proof (call_printed a (generate_dialogue_response obs) c) as Hp.
    destruct (call G a (generate_dialogue_response obs) c) as [[resp |] c1];
      [| discriminate].
    unfold bind at 1 in H. simpl in H, Hp.
    apply IH in H. destruct H as (lines & Hl & Hn). simpl in Hl.
    exists (snd resp :: lines). split.
    + rewrite Hl, Hp, <- app_assoc. reflexivity.
    + simpl. now rewrite Hn.
Qed.

Lemma while_true_printed (fuel : nat) (agents : list ref) :
  forall (turns : Z) (obs : string) (c c' : conversation G),
    while_true fuel agents turns obs c = (Return (Some tt), c') ->
    exists (rounds : nat) (lines : list string),
      (1 <= rounds <= fuel)%nat /\
      printed c' = printed c ++ lines /\
      List.length lines = (rounds * List.length agents)%nat.
Proof.
  induction fuel as [| fuel IH]; intros turns obs c c' H.
  - discriminate.
  - simpl in H. unfold bind at 1 in H.
    destruct (for_agents agents false obs c) as [[[brk obs1] |] c1] eqn:Er;
      [| discriminate].
    destruct (for_agents_printed agents false obs c c1 _ Er) as (l1 & Hl1 & Hn1).
    simpl in H. destruct brk.
    + inversion H; subst. exists 1%nat, l1.
      split; [lia |]. split; [exact Hl1 | lia].
    + apply IH in H. destruct H as (rounds & lines & Hr & Hl & Hn).
      exists (S rounds), (l1 ++ lines).
      split; [lia |]. split.
      * now rewrite Hl, Hl1, <- app_assoc.
      * rewrite length_app, Hn1, Hn. simpl. lia.
Qed.

(** Agents that always stay in the dialogue end no round with the flag
    set. *)
Lemma for_agents_all_stay (agents : list ref) :
  (forall obs g, exists text g',
      generate_dialogue_response obs g = (Return (true, text), g')) ->
  forall (b : bool) (obs : string) (c : conversation G),
    exists obs' c', for_agents agents b obs c = (Return (b, obs'), c').
Proof.
  intros Hstay. induction agents as [| a agents IH]; intros b obs c.
  - now exists obs, c.
  - simpl. unfold bind at 1, call.
    destruct (Hstay obs (agent_objects c a)) as (text & g' & ->).
    unfold bind at 1. simpl. apply IH.
Qed.

Lemma while_true_all_stay (fuel : nat) (agents : list ref) :
  (forall obs g, exists text g',
      generate_dialogue_response obs g = (Return (true, text), g')) ->
  forall (turns : Z) (obs : string) (c : conversation G),
    fst (while_true fuel agents turns obs c) = Return None.
Proof.
  intros Hstay. induction fuel as [| fuel IH]; intros turns obs c.
  - reflexivity.
  - simpl. unfold bind at 1.
    destruct (for_agents_all_stay agents Hstay false obs c) as (obs' & c' & ->).
    simpl. apply IH.
Qed.

End ConversationFacts.

(** X14. [run_conversation] needs two agents: with an empty list or a
    single agent, [agents[1]] raises [IndexError] before any agent is
    called and before anything is printed, so the agents and the output
    are as before. *)
Theorem run_conversation_needs_two_agents :
  forall (G : Type)
         (generate_reaction generate_dialogue_response
            : string -> M G (bool * string))
         (fuel : nat) (agents : list ref) (initial_observation : string)
         (c : Conversation.conversation G),
    (List.length agents < 2)%nat ->
    Conversation.run_conversation G generate_reaction
      generate_dialogue_response fuel agents initial_observation c
    = (Raise IndexError, c).
Proof.
  intros G gr gdr fuel agents initial c Hlen.
  unfold Conversation.run_conversation. apply bind_raises. unfold lift.
  rewrite list_getitem_out_of_range; [reflexivity |].
  unfold index_in_range, len. apply andb_false_iff. right.
  apply Z.ltb_ge. lia.
Qed.

(** Witness of X14: a conversation of one agent. *)
Lemma run_conversation_needs_two_agents_witness :
  Conversation.run_conversation nat ExampleAgents.generate_reaction
    ExampleAgents.generate_dialogue_response 5 [0%nat] "Hi, Eve."
    ExampleAgents.start
  = (Raise IndexError, ExampleAgents.start).
Proof.
  apply run_conversation_needs_two_agents. simpl. lia.
Defined.

(** X15. A conversation that ends has printed the reaction of
    [agents[1]] to the initial observation and then complete rounds only:
    after that first line the number of printed lines is a positive
    multiple of the number of agents. The round in which an agent leaves
    the dialogue is finished by the agents that come after it. *)
Theorem run_conversation_prints_complete_rounds :
  forall (G : Type)
         (generate_reaction generate_dialogue_response
            : string -> M G (bool * string))
         (fuel : nat) (agents : list ref) (initial_observation : string)
         (c : Conversation.conversation G),
    let done :=
      Conversation.run_conversation G generate_reaction
        generate_dialogue_response fuel agents initial_observation c in
    fst done = Return (Some tt) ->
    exists (second : ref) (flag : bool) (reaction : string)
           (rounds : nat) (lines : list string),
      list_getitem agents 1 = Return second /\
      fst (generate_reaction initial_observation
             (Conversation.agent_objects c second))
        = Return (flag, reaction) /\
      (1 <= rounds <= fuel)%nat /\
      Conversation.printed (snd done)
        = Conversation.printed c ++ reaction :: lines /\
      List.length lines = (rounds * List.length agents)%nat.
Proof.
  intros G gr gdr fuel agents initial c done H. subst done.
  unfold Conversation.run_conversation in *.
  unfold bind at 1 in H. unfold bind at 1. unfold lift in *.
  destruct (list_getitem agents 1) as [second |] eqn:Hget; [| discriminate].
  unfold bind at 1 in H. unfold bind at 1.
  pose proof (call_printed G second (gr initial) c) as Hp.
  unfold Conversation.call in *.
  destruct (gr initial (Conversation.agent_objects c second))
    as [[[flag reaction] |] g'] eqn:Er; [| discriminate].
  unfold bind at 1 in H. unfold bind at 1.
  simpl in H, Hp |- *.
  destruct (Conversation.while_true G gdr fuel agents 0 reaction _)
    as [[[[] |] |] c'] eqn:Ew; try discriminate.
  destruct (while_true_printed G gdr fuel agents 0 reaction _ c' Ew)
    as (rounds & lines & Hr & Hl & Hn).
  exists second, flag, reaction, rounds, lines.
  split; [reflexivity |]. split; [now rewrite Er |]. split; [exact Hr |].
  split; [| exact Hn].
  simpl. rewrite Hl. simpl. now rewrite <- app_assoc.
Qed.

(** Witness of X15: two agents that leave after two answers each; the
    conversation prints the reaction and three rounds of two lines. *)
Lemma run_conversation_prints_complete_rounds_witness :
  exists lines,
    Conversation.printed
      (snd (Conversation.run_conversation nat ExampleAgents.generate_reaction
              ExampleAgents.generate_dialogue_response 5 [0; 1]%nat "Hi, Eve."
              ExampleAgents.start))
    = "Eve nods." :: lines /\
    exists rounds, List.length lines = (rounds * 2)%nat.
Proof.
  destruct (run_conversation_prints_complete_rounds nat
              ExampleAgents.generate_reaction
              ExampleAgents.generate_dialogue_response 5 [0; 1]%nat "Hi, Eve."
              ExampleAgents.start eq_refl)
    as (second & flag & reaction & rounds & lines & _ & Hre & _ & Hp & Hn).
  inversion Hre; subst reaction.
  exists lines. split; [exact Hp |]. exists rounds. exact Hn.
Defined.

(** X16. Nothing bounds the conversation: [turns] is counted but never
    tested, so when every agent always stays in the dialogue (and the
    reaction of [agents[1]] returns), the loop does not end, whatever the
    number of rounds it is given. *)
Theorem run_conversation_unbounded :
  forall (G : Type)
         (generate_reaction generate_dialogue_response
            : string -> M G (bool * string))
         (agents : list ref) (initial_observation : string)
         (c : Conversation.conversation G),
    (2 <= List.length agents)%nat ->
    (forall obs g, exists res g',
        generate_reaction obs g = (Return res, g')) ->
    (forall obs g, exists text g',
        generate_dialogue_response obs g = (Return (true, text), g')) ->
    forall fuel : nat,
      fst (Conversation.run_conversation G generate_reaction
             generate_dialogue_response fuel agents initial_observation c)
      = Return None.
Proof.
  intros G gr gdr agents initial c Hlen Hreact Hstay fuel.
  unfold Conversation.run_conversation.
  destruct (list_getitem_nonneg agents 1) as (second & _ & Hget).
  { unfold len. lia. }
  unfold bind at 1, lift. rewrite Hget.
  unfold bind at 1, Conversation.call.
  destruct (Hreact initial (Conversation.agent_objects c second))
    as (res & g' & ->).
  unfold bind at 1. simpl.
  apply while_true_all_stay. exact Hstay.
Qed.

(** Witness of X16: two agents that never leave, run for 50 rounds. *)
Lemma run_conversation_unbounded_witness :
  fst (Conversation.run_conversation nat ExampleAgents.generate_reaction
         (fun _ g => (Return (true, "Go on."), g)) 50 [0; 1]%nat "Hi, Eve."
         ExampleAgents.start)
  = Return None.
Proof.
  apply run_conversation_unbounded.
  - simpl. lia.
  - intros obs g. eexists. eexists. reflexivity.
  - intros obs g. eexists. eexists. reflexivity.
Defined.

(** * The prompt of [send] *)

Section Prompt.

Lemma string_app_assoc (a b c : string) :
  ((a ++ b) ++ c = a ++ (b ++ c))%string.
Proof. induction a as [| ch a IH]; simpl; [reflexivity | now rewrite IH]. Qed.

Lemma string_app_nil_r (a : string) : (a ++ "")%string = a.
Proof. induction a as [| ch a IH]; simpl; [reflexivity | now rewrite IH]. Qed.

Lemma concat_cons_more (sep x : string) (l : list string) :
  l <> [] ->
  String.concat sep (x :: l) = (x ++ sep ++ String.concat sep l)%string.
Proof. destruct l; [contradiction | reflexivity]. Qed.

Lemma concat_empty_cons (x : string) (l : list string) :
  String.concat "" (x :: l) = (x ++ String.concat "" l)%string.
Proof. destruct l; [simpl; now rewrite string_app_nil_r | reflexivity]. Qed.

(** Joining lines and a last piece with a separator puts the separator
    after every line and nothing after the last piece. *)
Lemma join_with_last (sep : string) (lines : list string) (last : string) :
  join sep (lines ++ [last]) =
  (String.concat "" (map (fun line => line ++ sep) lines) ++ last)%string.
Proof.
  unfold join. induction lines as [| x lines IH]; [reflexivity |].
  change ((x :: lines) ++ [last]) with (x :: (lines ++ [last])).
  rewrite concat_cons_more by (destruct lines; discriminate).
  rewrite IH. cbn [map]. rewrite concat_empty_cons.
  now rewrite !string_app_assoc.
Qed.

Lemma run_agent_calls_identity (cs : list agent_call) (a : DialogueAgent.t) :
  same_identity a (run_agent_calls cs a).
Proof.
  revert a; induction cs as [| c cs IH]; intros a.
  - apply same_identity_refl.
  - unfold run_agent_calls in *. simpl fold_left.
    eapply same_identity_trans; [| apply IH].
    destruct c as [| | nm msg].
    + repeat split.
    + rewrite run_agent_call_send. apply same_identity_refl.
    + repeat split.
Qed.

End Prompt.

(** X17. What the chat model is asked by [send()]: for an agent that was
    constructed and has then received the messages [msgs], the prompt is
    the system message followed by one human message, whose content is the
    header line, then one line "{speaker}: {message}" for each received
    message in order, each line ended by a newline, and at the end the
    agent's own prefix "{name}: " with nothing after it. [send()] returns
    the content of the model's reply to this prompt, or raises what the
    model raises. *)
Theorem send_prompt :
  forall (name : string) (system_message : BaseMessage) (model : ChatOpenAI)
         (msgs : list (string * string)),
    let a := run_agent_calls (receive_calls msgs)
               (DialogueAgent.__init__ name system_message model) in
    let human :=
      ("Here is the conversation so far." ++ newline
       ++ String.concat ""
            (map (fun nm => fst nm ++ ": " ++ snd nm ++ newline) msgs)
       ++ name ++ ": ")%string in
    fst (DialogueAgent.send a) =
    match model [system_message; HumanMessage human] with
    | Return reply => Return (content reply)
    | Raise e => Raise e
    end.
Proof.
  intros name system_message model msgs a human.
  assert (Hh : DialogueAgent.message_history a =
               DialogueAgent.conversation_header
                 :: map (fun nm => transcript_entry (fst nm) (snd nm)) msgs).
  { subst a. now rewrite run_receive_calls. }
  destruct (run_agent_calls_identity (receive_calls msgs)
              (DialogueAgent.__init__ name system_message model))
    as (_ & Hp & Hs & Hm).
  fold a in Hp, Hs, Hm. simpl in Hp, Hs, Hm.
  unfold DialogueAgent.send, bind, gets, lift, ret. cbn beta iota.
  rewrite Hm, Hs, Hp, Hh, join_with_last.
  assert (E : (String.concat ""
                 (map (fun line => line ++ newline)
                    (DialogueAgent.conversation_header
                       :: map (fun nm => transcript_entry (fst nm) (snd nm)) msgs))
               ++ (name ++ ": "))%string = human).
  { subst human. cbn [map]. rewrite map_map.
    assert (Em : map (fun nm : string * string =>
                        (transcript_entry (fst nm) (snd nm) ++ newline)%string) msgs
                 = map (fun nm => (fst nm ++ ": " ++ snd nm ++ newline)%string) msgs).
    { apply map_ext. intros [n m]. unfold transcript_entry. simpl.
      now rewrite !string_app_assoc. }
    rewrite Em.
    rewrite concat_empty_cons. now rewrite !string_app_assoc. }
  rewrite E.
  destruct (model [system_message; HumanMessage human]); reflexivity.
Qed.

(** * Negative indices *)

Lemma list_getitem_negative {A : Type} (l : list A) (i : Z) :
  - len l <= i < 0 ->
  exists x,
    nth_error l (Z.to_nat (len l + i)) = Some x /\ list_getitem l i = Return x.
Proof.
  unfold list_getitem, len. intros Hi.
  destruct (Z.ltb_spec i 0) as [_ |]; [| lia].
  destruct (Z.ltb_spec (i + Z.of_nat (List.length l)) 0) as [| _]; [lia |].
  rewrite (Z.add_comm (Z.of_nat (List.length l)) i).
  destruct (nth_error l (Z.to_nat (i + Z.of_nat (List.length l)))) eqn:E;
    [eauto |].
  apply nth_error_None in E. lia.
Qed.

(** X18. [step()] accepts a negative index from the selection function
    as list indexing does: an index [idx] with [-len(agents) <= idx < 0]
    selects the agent at position [len(agents) + idx], so -1 selects the
    last agent, and the step goes on as for any other index. *)
Theorem step_accepts_negative_index :
  forall (w : DialogueSimulator.world) (idx : Z),
    DialogueSimulator.select_next_speaker (DialogueSimulator.self w)
      (DialogueSimulator._step (DialogueSimulator.self w))
      (DialogueSimulator.agents (DialogueSimulator.self w))
      (DialogueSimulator.objects w) = Return idx ->
    - len (DialogueSimulator.agents (DialogueSimulator.self w)) <= idx < 0 ->
    exists speaker : ref,
      nth_error (DialogueSimulator.agents (DialogueSimulator.self w))
        (Z.to_nat (len (DialogueSimulator.agents (DialogueSimulator.self w)) + idx))
        = Some speaker /\
      (forall message : string,
          fst (DialogueAgent.send (DialogueSimulator.objects w speaker))
            = Return message ->
          fst (DialogueSimulator.step w)
            = Return (DialogueAgent.name (DialogueSimulator.objects w speaker),
                      message) /\
          DialogueSimulator._step
            (DialogueSimulator.self (snd (DialogueSimulator.step w)))
            = DialogueSimulator._step (DialogueSimulator.self w) + 1).
Proof.
  intros w idx Hsel Hneg.
  destruct (list_getitem_negative _ idx Hneg) as (speaker & Hnth & Hget).
  exists speaker. split; [exact Hnth |].
  intros message Hsend.
  now rewrite (step_returns w idx speaker message Hsel Hget Hsend).
Qed.

(** Witness of X18: a selection function that answers -1 on four agents
    lets the last one speak. *)
Lemma step_accepts_negative_index_witness :
  let w := DialogueSimulator.World
             (DialogueSimulator.mk [0; 1; 2; 3]%nat 0 (Example.always (-1)))
             Example.cast in
  fst (DialogueSimulator.step w) = Return ("Hermione Granger", "I draw my wand.").
Proof.
  intros w.
  assert (Hneg : - len [0; 1; 2; 3]%nat <= -1 < 0)
    by (vm_compute; split; [discriminate | reflexivity]).
  destruct (step_accepts_negative_index w (-1) eq_refl Hneg)
    as (speaker & Hnth & Hstep).
  inversion Hnth; subst speaker.
  exact (proj1 (Hstep "I draw my wand." eq_refl)).
Defined.

(** X19. A simulator with a single agent and the schedule
    [select_next_speaker] cannot take an odd step: whenever its step
    counter is odd, [step()] raises [ZeroDivisionError], before any agent
    is asked, and leaves the simulator and the agents as they are. *)
Theorem step_single_agent_odd_raises :
  forall (w : DialogueSimulator.world),
    DialogueSimulator.select_next_speaker (DialogueSimulator.self w) = round_robin ->
    len (DialogueSimulator.agents (DialogueSimulator.self w)) = 1 ->
    DialogueSimulator._step (DialogueSimulator.self w) mod 2 = 1 ->
    DialogueSimulator.step w = (Raise ZeroDivisionError, w).
Proof.
  intros w Hrr H1 Hodd.
  apply step_selection_raises. rewrite Hrr. unfold round_robin.
  apply select_odd_alone; [lia | exact H1].
Qed.

(** Witness of X19: the storyteller alone, after one step. *)
Lemma step_single_agent_odd_raises_witness :
  let w := DialogueSimulator.World
             (DialogueSimulator.mk [0%nat] 0 round_robin) Example.cast in
  fst (DialogueSimulator.step w) = Return ("Dungeon Master", "The hunt begins.") /\
  DialogueSimulator.step (snd (DialogueSimulator.step w))
    = (Raise ZeroDivisionError, snd (DialogueSimulator.step w)).
Proof.
  intros w. split; [reflexivity |].
  apply step_single_agent_odd_raises; reflexivity.
Defined.
